(** * config_hw: the lexer and parser of the configuration language

    A shallow embedding of [main.py]: the comment pre-pass
    ([remove_comments]), the lexer ([TOKEN_REGEX], [tokenize]) and the
    recursive-descent parser (class [Parser]), followed by the properties
    of the specification that were checked against them.

    Modelling choices.
    - A Python [str] is a list of characters; a character is an [ascii],
      read as the code point of the same number (U+0000 to U+00FF).
    - The [re] module is embedded as a small backtracking matcher over the
      constructs that the patterns of [main.py] use.  [\d] and [\w] are
      Python's Unicode classes restricted to code points below 256.
    - Exceptions are values of [Exception]; a call either returns, raises,
      or (in the model only) runs out of the fuel that bounds its loops and
      its recursion.
    - The lexer and the parser are first given as they run on a stack
      without bound.  The recursion limit of the interpreter is modelled
      apart, in the functions [limited_...]: the parser once more, with
      the frames that are left on the stack; it does what the first one
      does or raises RecursionError.
    - The parser object is the record [Parser], passed from call to call.
      The values it builds are never changed once built, so a value bound
      to a constant and its uses are modelled as equal values.
    - A [dict] is an association list kept in insertion order with one
      entry per key, which is how a Python dict iterates.
    - A Python [float] is a binary64 number, a [spec_float]. *)

From Stdlib Require Import List Ascii String Bool Arith Lia ZArith.
From Stdlib Require Import DecimalString.
From Stdlib Require Import Floats.SpecFloat.
Import ListNotations.

Set Warnings "-register-all".

(** [length], [concat] and the like are the list functions throughout. *)
Local Abbreviation length := Datatypes.length.

(** ** Strings *)

Definition str := list ascii.

(** A string literal of the source. *)
Definition lit (s : String.string) : str := String.list_ascii_of_string s.

Fixpoint str_eqb (a b : str) : bool :=
  match a, b with
  | [], [] => true
  | x :: a', y :: b' => Ascii.eqb x y && str_eqb a' b'
  | _, _ => false
  end.

(** [text[i:j]] for [0 <= i], [0 <= j]. *)
Definition slice (text : str) (i j : nat) : str :=
  firstn (j - i) (skipn i text).

(** [format(n)] of a non-negative integer. *)
Definition str_of_nat (n : nat) : str :=
  String.list_ascii_of_string (NilZero.string_of_uint (Nat.to_uint n)).

Fixpoint lstrip (c : ascii) (s : str) : str :=
  match s with
  | x :: s' => if Ascii.eqb x c then lstrip c s' else s
  | [] => []
  end.

Definition rstrip (c : ascii) (s : str) : str := rev (lstrip c (rev s)).

(** [s.strip(c)] for a one-character [c]. *)
Definition strip (c : ascii) (s : str) : str := rstrip c (lstrip c s).

(** ** Character classes *)

Definition code (c : ascii) : nat := nat_of_ascii c.

Definition in_range (lo hi : nat) (c : ascii) : bool :=
  (lo <=? code c) && (code c <=? hi).

(** [\d]: a Unicode decimal digit; below 256 these are [0-9]. *)
Definition is_digit (c : ascii) : bool := in_range 48 57 c.

(** [[a-z]] *)
Definition is_lower (c : ascii) : bool := in_range 97 122 c.

(** [[a-z0-9_]] *)
Definition is_ident_char (c : ascii) : bool :=
  is_lower c || in_range 48 57 c || (code c =? 95).

(** [\w]: alphanumeric in the sense of [str.isalnum], or an underscore.
    Below 128 that is [[A-Za-z0-9_]]; from 128 to 255 it is the letters
    and the numeric signs of Latin-1. *)
Definition is_word (c : ascii) : bool :=
  in_range 48 57 c || in_range 65 90 c || (code c =? 95) || in_range 97 122 c
  || (code c =? 170) || in_range 178 179 c || (code c =? 181)
  || in_range 185 186 c || in_range 188 190 c
  || in_range 192 214 c || in_range 216 246 c || in_range 248 255 c.

(** [[^']] *)
Definition not_quote (c : ascii) : bool := negb (code c =? 39).

(** [[ \t\n]] *)
Definition is_blank (c : ascii) : bool :=
  (code c =? 32) || (code c =? 9) || (code c =? 10).

(** [.] under [re.S] *)
Definition any_char (c : ascii) : bool := true.

(** ** Regular expressions *)

Inductive atom : Type :=
| Chr (c : ascii)               (* a literal character *)
| Cls (p : ascii -> bool)       (* one character of a class *)
| Star (p : ascii -> bool)      (* class*  , greedy *)
| LazyStar (p : ascii -> bool)  (* class*? , lazy *)
| WordB.                        (* \b *)

Definition regex := list atom.

Definition word (s : String.string) : regex := map Chr (lit s).
Definition chr (c : ascii) : regex := [Chr c].
Definition cls (p : ascii -> bool) : regex := [Cls p].
Definition star (p : ascii -> bool) : regex := [Star p].
Definition plus (p : ascii -> bool) : regex := [Cls p; Star p].
Definition lazy_star (p : ascii -> bool) : regex := [LazyStar p].
Definition wordb : regex := [WordB].

Definition is_word_opt (c : option ascii) : bool :=
  match c with Some x => is_word x | None => false end.

(** [match_here r prev s]: the pattern [r] is tried at the start of [s],
    [prev] being the character just before it; the answer is the length of
    the match that the backtracking search of [re] finds first. *)
Fixpoint match_here (r : regex) (prev : option ascii) (s : str)
  : option nat :=
  match r with
  | [] => Some 0
  | Chr c :: r' =>
      match s with
      | x :: s' =>
          if Ascii.eqb x c then option_map S (match_here r' (Some x) s')
          else None
      | [] => None
      end
  | Cls p :: r' =>
      match s with
      | x :: s' =>
          if p x then option_map S (match_here r' (Some x) s') else None
      | [] => None
      end
  | Star p :: r' =>
      (fix greedy (prev : option ascii) (s : str) : option nat :=
         match s with
         | x :: s' =>
             if p x then
               match greedy (Some x) s' with
               | Some n => Some (S n)
               | None => match_here r' prev s
               end
             else match_here r' prev s
         | [] => match_here r' prev s
         end) prev s
  | LazyStar p :: r' =>
      (fix lazy (prev : option ascii) (s : str) : option nat :=
         match match_here r' prev s with
         | Some n => Some n
         | None =>
             match s with
             | x :: s' => if p x then option_map S (lazy (Some x) s') else None
             | [] => None
             end
         end) prev s
  | WordB :: r' =>
      if xorb (is_word_opt prev) (is_word_opt (hd_error s))
      then match_here r' prev s
      else None
  end.

Definition char_before (text : str) (pos : nat) : option ascii :=
  match pos with
  | 0 => None
  | S k => nth_error text k
  end.

(** [re.compile(r).match(text, pos)], answered by [match.end()]. *)
Definition re_match (r : regex) (text : str) (pos : nat) : option nat :=
  option_map (Nat.add pos)
    (match_here r (char_before text pos) (skipn pos text)).

(** [re.sub(r, "", s)]: the text is scanned from the left; where the
    pattern matches, the matched characters are dropped and the scan goes on
    after them, elsewhere the character is kept.  [skip] counts the
    characters of the current match that are still to be dropped. *)
Fixpoint re_sub_empty (r : regex) (skip : nat) (prev : option ascii)
  (s : str) : str :=
  match s with
  | [] => []
  | c :: s' =>
      match skip with
      | S k => re_sub_empty r k (Some c) s'
      | 0 =>
          match match_here r prev s with
          | Some (S k) => re_sub_empty r k (Some c) s'
          | _ => c :: re_sub_empty r 0 (Some c) s'
          end
      end
  end.

(** ** remove_comments *)

(** [--\[\[.*?\]\]] with [re.S] *)
Definition COMMENT : regex := word "--[[" ++ lazy_star any_char ++ word "]]".

Definition remove_comments (text : str) : str :=
  re_sub_empty COMMENT 0 None text.


(** ** Exceptions and outcomes *)

Inductive Exception : Type :=
| SyntaxError (msg : str)
| AttributeError (msg : str)
| ValueError
| RecursionError.

(** What a call does: it returns a value, raises, or, in the model only,
    stops because the fuel that bounds its loops and recursion ran out. *)
Inductive outcome (A : Type) : Type :=
| Ok (a : A)
| Raise (e : Exception)
| OutOfFuel.

Arguments Ok {A} a.
Arguments Raise {A} e.
Arguments OutOfFuel {A}.

Definition bind {A B : Type} (m : outcome A) (k : A -> outcome B)
  : outcome B :=
  match m with
  | Ok a => k a
  | Raise e => Raise e
  | OutOfFuel => OutOfFuel
  end.

Notation "x <- m ;; k" := (bind m (fun x => k))
  (at level 61, m at next level, right associativity).
Notation "' pat <- m ;; k" := (bind m (fun x => match x with pat => k end))
  (at level 61, pat pattern, m at next level, right associativity).

(** ** Tokens *)

Inductive TokenType : Type :=
| NUMBER | STRING | SET | STRUCT | LIST | CONST | IDENT
| LBRACE | RBRACE | LPAREN | RPAREN | EQUAL | COMMA | SKIP.

Definition TokenType_eqb (a b : TokenType) : bool :=
  match a, b with
  | NUMBER, NUMBER | STRING, STRING | SET, SET | STRUCT, STRUCT
  | LIST, LIST | CONST, CONST | IDENT, IDENT | LBRACE, LBRACE
  | RBRACE, RBRACE | LPAREN, LPAREN | RPAREN, RPAREN | EQUAL, EQUAL
  | COMMA, COMMA | SKIP, SKIP => true
  | _, _ => false
  end.

(** The type of a token as the source spells it. *)
Definition type_name (t : TokenType) : str :=
  lit match t with
      | NUMBER => "NUMBER" | STRING => "STRING" | SET => "SET"
      | STRUCT => "STRUCT" | LIST => "LIST" | CONST => "CONST"
      | IDENT => "IDENT" | LBRACE => "LBRACE" | RBRACE => "RBRACE"
      | LPAREN => "LPAREN" | RPAREN => "RPAREN" | EQUAL => "EQUAL"
      | COMMA => "COMMA" | SKIP => "SKIP"
      end.

Definition TOKEN_REGEX : list (TokenType * regex) :=
  [ (NUMBER, star is_digit ++ chr "." ++ plus is_digit);
    (STRING, chr "'" ++ star not_quote ++ chr "'");
    (SET,    word "set" ++ wordb);
    (STRUCT, word "struct" ++ wordb);
    (LIST,   word "(list" ++ wordb);
    (CONST,  chr "|" ++ cls is_lower ++ star is_ident_char ++ chr "|");
    (IDENT,  cls is_lower ++ star is_ident_char);
    (LBRACE, chr "{");
    (RBRACE, chr "}");
    (LPAREN, chr "(");
    (RPAREN, chr ")");
    (EQUAL,  chr "=");
    (COMMA,  chr ",");
    (SKIP,   plus is_blank) ].

Record Token : Type := mkToken { type : TokenType; value : str }.

(** The [for ttype, regex in TOKEN_REGEX] loop of [tokenize]: the first
    entry of the table whose pattern matches at [pos], with the end of the
    match. *)
Fixpoint first_match (table : list (TokenType * regex)) (text : str)
  (pos : nat) : option (TokenType * nat) :=
  match table with
  | [] => None
  | (ttype, r) :: rest =>
      match re_match r text pos with
      | Some e => Some (ttype, e)
      | None => first_match rest text pos
      end
  end.

(** [if ttype != "SKIP": tokens.append(Token(ttype, match.group()))] *)
Definition emit (toks : list Token) (ttype : TokenType) (text : str)
  (pos e : nat) : list Token :=
  if TokenType_eqb ttype SKIP then toks
  else toks ++ [mkToken ttype (slice text pos e)].

(** The [while pos < len(text)] loop of [tokenize]. *)
Fixpoint tokenize_loop (fuel : nat) (text : str) (pos : nat)
  (tokens : list Token) : outcome (list Token) :=
  match fuel with
  | 0 => OutOfFuel
  | S fuel' =>
      if pos <? length text then
        match first_match TOKEN_REGEX text pos with
        | Some (ttype, e) =>
            tokenize_loop fuel' text e (emit tokens ttype text pos e)
        | None =>
            Raise (SyntaxError
                     (lit "Unexpected character at position "
                      ++ str_of_nat pos))
        end
      else Ok tokens
  end.

Definition tokenize (text : str) : outcome (list Token) :=
  tokenize_loop (S (length text)) text 0 [].

(** ** Values *)

(** The tree that the parser builds: a float, a str, a list or a dict. *)
Inductive Value : Type :=
| VFloat (x : spec_float)
| VStr (s : str)
| VList (items : list Value)
| VDict (obj : list (str * Value)).

(** [d[k]], or [None] when [k not in d]. *)
Fixpoint dict_get {V : Type} (d : list (str * V)) (k : str) : option V :=
  match d with
  | [] => None
  | (k', v) :: d' => if str_eqb k' k then Some v else dict_get d' k
  end.

(** [d[k] = v]: a key already present keeps its place and takes the new
    value, a new key goes to the end. *)
Fixpoint dict_set {V : Type} (d : list (str * V)) (k : str) (v : V)
  : list (str * V) :=
  match d with
  | [] => [(k, v)]
  | (k', v') :: d' =>
      if str_eqb k' k then (k', v) :: d' else (k', v') :: dict_set d' k v
  end.

(** ** float *)

Definition digit_value (c : ascii) : N := N.of_nat (code c - 48).

(** The integer that a run of decimal digits writes. *)
Definition decimal (s : str) : N :=
  fold_left (fun acc c => (10 * acc + digit_value c)%N) s 0%N.

(** The binary64 number nearest to [n / 10^k], ties to even, infinite
    beyond the range. *)
Definition binary64_of_decimal (n : N) (k : nat) : spec_float :=
  match n with
  | N0 => S754_zero false
  | Npos m =>
      SFdiv 53 1024 (S754_finite false m 0)
        (S754_finite false (Z.to_pos (10 ^ Z.of_nat k)) 0)
  end.

Fixpoint span (p : ascii -> bool) (s : str) : str * str :=
  match s with
  | c :: s' =>
      if p c then let (a, b) := span p s' in (c :: a, b) else ([], s)
  | [] => ([], [])
  end.

(** [float(s)].  The model covers the spellings that the lexer produces,
    digits, a point, one digit or more: these Python converts to the
    nearest binary64 number.  The further spellings that Python accepts
    (a sign, an exponent, [inf], [nan], underscores, blanks around) never
    reach this call from [tokenize] and are answered like any malformed
    text, by [ValueError]. *)
Definition float (s : str) : outcome spec_float :=
  let (int_part, rest) := span is_digit s in
  match rest with
  | "."%char :: frac =>
      match frac with
      | [] => Raise ValueError
      | _ :: _ =>
          if forallb is_digit frac
          then Ok (binary64_of_decimal (decimal (int_part ++ frac))
                     (length frac))
          else Raise ValueError
      end
  | _ => Raise ValueError
  end.

(** ** class Parser *)

Record Parser : Type := mkParser {
  tokens : list Token;
  pos : nat;
  constants : list (str * Value)
}.

(** [Parser(tokens)] *)
Definition Parser_init (toks : list Token) : Parser := mkParser toks 0 [].

Definition advance (p : Parser) : Parser :=
  mkParser (tokens p) (S (pos p)) (constants p).

Definition set_constant (p : Parser) (name : str) (v : Value) : Parser :=
  mkParser (tokens p) (pos p) (dict_set (constants p) name v).

Definition peek (p : Parser) : option Token :=
  if pos p <? length (tokens p) then nth_error (tokens p) (pos p) else None.

Definition end_of_input : Exception :=
  SyntaxError (lit "Unexpected end of input").

Definition consume (expected : option TokenType) (p : Parser)
  : outcome (Token * Parser) :=
  match peek p with
  | None => Raise end_of_input
  | Some token =>
      match expected with
      | Some ex =>
          if negb (TokenType_eqb (type token) ex)
          then Raise (SyntaxError (lit "Expected " ++ type_name ex
                                   ++ lit ", got " ++ type_name (type token)))
          else Ok (token, advance p)
      | None => Ok (token, advance p)
      end
  end.

(** What [tok.type] raises when [tok] is [None]. *)
Definition none_has_no_type : Exception :=
  AttributeError (lit "'NoneType' object has no attribute 'type'").

(** The test of the two inner [while] loops:
    [self.peek() and self.peek().type != closing]. *)
Definition more_before (closing : TokenType) (p : Parser) : bool :=
  match peek p with
  | Some tok => negb (TokenType_eqb (type tok) closing)
  | None => false
  end.

(** [self.peek() and self.peek().type == "COMMA"] *)
Definition at_comma (p : Parser) : bool :=
  match peek p with
  | Some tok => TokenType_eqb (type tok) COMMA
  | None => false
  end.

(** [parse_value], [parse_list] and [parse_struct] with the [while] loops
    of the latter two.  Every call and every turn of a loop takes one unit
    of [fuel]. *)
Fixpoint parse_value (fuel : nat) (p : Parser) : outcome (Value * Parser) :=
  match fuel with
  | 0 => OutOfFuel
  | S fuel' =>
      match peek p with
      | None => Raise none_has_no_type
      | Some tok =>
          match type tok with
          | NUMBER =>
              '(t, p1) <- consume None p ;;
              x <- float (value t) ;;
              Ok (VFloat x, p1)
          | STRING =>
              '(t, p1) <- consume None p ;;
              Ok (VStr (strip "'" (value t)), p1)
          | CONST =>
              '(t, p1) <- consume None p ;;
              let name := strip "|" (value t) in
              match dict_get (constants p1) name with
              | None => Raise (SyntaxError (lit "Unknown constant " ++ name))
              | Some v => Ok (v, p1)
              end
          | LIST => parse_list fuel' p
          | STRUCT => parse_struct fuel' p
          | other =>
              Raise (SyntaxError (lit "Unexpected token " ++ type_name other))
          end
      end
  end

with parse_list (fuel : nat) (p : Parser) : outcome (Value * Parser) :=
  match fuel with
  | 0 => OutOfFuel
  | S fuel' =>
      '(_, p1) <- consume (Some LIST) p ;;
      '(items, p2) <- parse_list_loop fuel' p1 [] ;;
      '(_, p3) <- consume (Some RPAREN) p2 ;;
      Ok (VList items, p3)
  end

with parse_list_loop (fuel : nat) (p : Parser) (items : list Value)
  : outcome (list Value * Parser) :=
  match fuel with
  | 0 => OutOfFuel
  | S fuel' =>
      if more_before RPAREN p then
        '(v, p1) <- parse_value fuel' p ;;
        parse_list_loop fuel' p1 (items ++ [v])
      else Ok (items, p)
  end

with parse_struct (fuel : nat) (p : Parser) : outcome (Value * Parser) :=
  match fuel with
  | 0 => OutOfFuel
  | S fuel' =>
      '(_, p1) <- consume (Some STRUCT) p ;;
      '(_, p2) <- consume (Some LBRACE) p1 ;;
      '(obj, p3) <- parse_struct_loop fuel' p2 [] ;;
      '(_, p4) <- consume (Some RBRACE) p3 ;;
      Ok (VDict obj, p4)
  end

with parse_struct_loop (fuel : nat) (p : Parser) (obj : list (str * Value))
  : outcome (list (str * Value) * Parser) :=
  match fuel with
  | 0 => OutOfFuel
  | S fuel' =>
      if more_before RBRACE p then
        '(k, p1) <- consume (Some IDENT) p ;;
        '(_, p2) <- consume (Some EQUAL) p1 ;;
        '(v, p3) <- parse_value fuel' p2 ;;
        let obj' := dict_set obj (value k) v in
        if at_comma p3 then
          '(_, p4) <- consume (Some COMMA) p3 ;;
          parse_struct_loop fuel' p4 obj'
        else parse_struct_loop fuel' p3 obj'
      else Ok (obj, p)
  end.

Definition parse_set (fuel : nat) (p : Parser) : outcome Parser :=
  '(_, p1) <- consume (Some SET) p ;;
  '(name, p2) <- consume (Some IDENT) p1 ;;
  '(_, p3) <- consume (Some EQUAL) p2 ;;
  '(v, p4) <- parse_value fuel p3 ;;
  Ok (set_constant p4 (value name) v).

(** The [while self.peek()] loop of [parse]; [result] is the local
    variable of that name, [None] at first. *)
Fixpoint parse_loop (fuel : nat) (p : Parser) (result : option Value)
  : outcome (option Value * Parser) :=
  match fuel with
  | 0 => OutOfFuel
  | S fuel' =>
      match peek p with
      | None => Ok (result, p)
      | Some tok =>
          if TokenType_eqb (type tok) SET then
            p1 <- parse_set fuel' p ;;
            parse_loop fuel' p1 result
          else
            '(v, p1) <- parse_value fuel' p ;;
            parse_loop fuel' p1 (Some v)
      end
  end.

Definition parse (fuel : nat) (p : Parser) : outcome (option Value * Parser) :=
  parse_loop fuel p None.

(** Fuel that is enough for any parse of [toks]. *)
Definition parse_fuel (toks : list Token) : nat := 3 * length toks + 3.

(** [Parser(tokens).parse()] *)
Definition parse_tokens (toks : list Token) : outcome (option Value) :=
  '(result, _) <- parse (parse_fuel toks) (Parser_init toks) ;;
  Ok result.

(** The body of [main] up to the tree: the text is stripped of comments,
    tokenized and parsed. *)
Definition main_tree (source : str) : outcome (option Value) :=
  let source := remove_comments source in
  toks <- tokenize source ;;
  parse_tokens toks.

(** ** Vocabulary of the specification *)

(** *** Texts and comments *)

Fixpoint starts_with (pat s : str) : bool :=
  match pat, s with
  | [], _ => true
  | c :: pat', x :: s' => Ascii.eqb x c && starts_with pat' s'
  | _ :: _, [] => false
  end.

(** [pat] occurs in [s] at one of the first [n] positions. *)
Fixpoint occurs_before (pat : str) (n : nat) (s : str) : bool :=
  match n with
  | 0 => false
  | S n' =>
      starts_with pat s
      || match s with
         | [] => false
         | _ :: s' => occurs_before pat n' s'
         end
  end.

(** The block comment with the given body. *)
Definition block_comment (body : str) : str :=
  lit "--[[" ++ body ++ lit "]]".

(** The body of a block comment holds no closing [ ]] ] of its own: in
    the comment the first [ ]] ] is the last two characters. *)
Definition closes_at_end (body : str) : bool :=
  negb (occurs_before (lit "]]") (length body) (body ++ lit "]]")).

(** [c] inserted into [t] at position [i]. *)
Definition insert_at (i : nat) (c t : str) : str :=
  firstn i t ++ c ++ skipn i t.

(** [comment_place 0 i t]: position [i] of the text [t] is a place for a
    block comment.  The function follows the pass of [remove_comments]
    over [t] up to [i]; as in [re_sub_empty], [skip] counts the
    characters of the current match that are still to be dropped.  On the
    way, a [--[[] that matches no comment and lies before [i] altogether
    spoils the place: the comment would close it.  At [i], the place is
    good between two matches, and inside a match where a [--[[] begins
    (the comment put there ends the one around it, and the [--[[] opens
    another up to the same [ ]] ]). *)
Fixpoint comment_place (skip i : nat) (s : str) : bool :=
  match i with
  | 0 =>
      match skip with
      | 0 => true
      | S _ => starts_with (lit "--[[") s
      end
  | S i' =>
      match s with
      | [] => false
      | _ :: s' =>
          match skip with
          | S k => comment_place k i' s'
          | 0 =>
              match match_here COMMENT None s with
              | Some (S k) => comment_place k i' s'
              | _ =>
                  if starts_with (lit "--[[") s && (4 <=? i) then false
                  else comment_place 0 i' s'
              end
          end
      end
  end.

(** *** The positions that the lexer visits *)

(** [scans text pos toks]: the loop of [tokenize] on [text] comes to
    position [pos] with [toks] collected so far. *)
Inductive scans (text : str) : nat -> list Token -> Prop :=
| scans_start : scans text 0 []
| scans_step pos toks ttype e :
    scans text pos toks ->
    pos < length text ->
    first_match TOKEN_REGEX text pos = Some (ttype, e) ->
    scans text e (emit toks ttype text pos e).

(** *** The grammar *)

(** A call of [parse_value] on [p] returns [v] and leaves the parser in
    [p']. *)
Definition returns_value (p : Parser) (v : Value) (p' : Parser) : Prop :=
  exists fuel, parse_value fuel p = Ok (v, p').

Definition token_at (p : Parser) (k : nat) (ttype : TokenType)
  (tok : Token) : Prop :=
  nth_error (tokens p) (k + pos p) = Some tok /\ type tok = ttype.

Definition move (k : nat) (p : Parser) : Parser :=
  mkParser (tokens p) (k + pos p) (constants p).

(** A top-level item: a [set] statement or a bare value. *)
Inductive item : Type :=
| ISet (name : str) (v : Value)
| IValue (v : Value).

(** [SetStmt := 'set' Ident '=' Value] and the bare [Value] of
    [Program := (SetStmt | Value)*]. *)
Inductive statement : Parser -> item -> Parser -> Prop :=
| statement_set p t_set t_name t_eq v p' :
    token_at p 0 SET t_set ->
    token_at p 1 IDENT t_name ->
    token_at p 2 EQUAL t_eq ->
    returns_value (move 3 p) v p' ->
    statement p (ISet (value t_name) v) (set_constant p' (value t_name) v)
| statement_value p tok v p' :
    peek p = Some tok ->
    type tok <> SET ->
    returns_value p v p' ->
    statement p (IValue v) p'.

Inductive statements : Parser -> list item -> Parser -> Prop :=
| statements_nil p : statements p [] p
| statements_cons p it p1 items p' :
    statement p it p1 ->
    statements p1 items p' ->
    statements p (it :: items) p'.

(** The value of the last item that is not a [set], [None] without one. *)
Definition last_value (items : list item) : option Value :=
  fold_left (fun r it => match it with IValue v => Some v | ISet _ _ => r end)
    items None.

(** The value that the last [set name] of [items] binds. *)
Definition last_set (name : str) (items : list item) : option Value :=
  fold_left
    (fun r it =>
       match it with
       | ISet n v => if str_eqb n name then Some v else r
       | IValue _ => r
       end) items None.

(** The constant table after the [set] statements of [items], in order. *)
Definition constants_after (items : list item) (d : list (str * Value))
  : list (str * Value) :=
  fold_left
    (fun d it => match it with ISet n v => dict_set d n v | IValue _ => d end)
    items d.

(** [(Ident '=' Value (',')?)*]: the entries of a struct literal read from
    [p], in order, up to [p']. *)
Inductive struct_entries : Parser -> list (str * Value) -> Parser -> Prop :=
| entries_nil p : struct_entries p [] p
| entries_cons p t_key t_eq v p1 kvs p' :
    token_at p 0 IDENT t_key ->
    token_at p 1 EQUAL t_eq ->
    returns_value (move 2 p) v p1 ->
    struct_entries (if at_comma p1 then advance p1 else p1) kvs p' ->
    struct_entries p ((value t_key, v) :: kvs) p'.

(** The dict that assigning the entries in order builds. *)
Definition dict_of (kvs : list (str * Value)) (obj : list (str * Value))
  : list (str * Value) :=
  fold_left (fun d kv => dict_set d (fst kv) (snd kv)) kvs obj.

(** The value of the last entry of [kvs] under the key [k]. *)
Definition last_entry (k : str) (kvs : list (str * Value)) : option Value :=
  fold_left (fun r kv => if str_eqb (fst kv) k then Some (snd kv) else r)
    kvs None.

(** *** Measures of patterns *)

(** The characters that every match of [r] takes. *)
Fixpoint min_length (r : regex) : nat :=
  match r with
  | [] => 0
  | (Chr _ | Cls _) :: r' => S (min_length r')
  | (Star _ | LazyStar _ | WordB) :: r' => min_length r'
  end.

(** The pattern has no [\b]. *)
Definition prev_free (r : regex) : bool :=
  forallb (fun a => match a with WordB => false | _ => true end) r.

(** *** The cursor *)

(** The part of the parser that a call leaves alone, and the way the
    cursor goes. *)
Definition same_input (p p' : Parser) : Prop :=
  tokens p' = tokens p /\ constants p' = constants p.

Definition moved_on (p p' : Parser) : Prop :=
  same_input p p' /\ pos p < pos p'.

Definition not_back (p p' : Parser) : Prop :=
  same_input p p' /\ pos p <= pos p'.

(** The tokens from the cursor on. *)
Definition remaining (p : Parser) : nat := length (tokens p) - pos p.

(** *** Properties of the parsing functions, by the fuel of the call *)

(** A call that returns has moved the cursor on. *)
Definition value_moves (call : nat -> Parser -> outcome (Value * Parser))
  (fuel : nat) : Prop :=
  forall p v p', call fuel p = Ok (v, p') -> moved_on p p'.

(** A loop that returns has not moved the cursor back. *)
Definition loop_stays {A : Type}
  (call : nat -> Parser -> A -> outcome (A * Parser)) (fuel : nat) : Prop :=
  forall p acc acc' p', call fuel p acc = Ok (acc', p') -> not_back p p'.

(** A call that did not run out of fuel does the same with more. *)
Definition value_stable (call : nat -> Parser -> outcome (Value * Parser))
  (fuel : nat) : Prop :=
  forall fuel' p, fuel <= fuel' -> call fuel p <> OutOfFuel ->
    call fuel' p = call fuel p.

Definition loop_stable {A : Type}
  (call : nat -> Parser -> A -> outcome (A * Parser)) (fuel : nat) : Prop :=
  forall fuel' p acc, fuel <= fuel' -> call fuel p acc <> OutOfFuel ->
    call fuel' p acc = call fuel p acc.

(** Three units of fuel for each token left, and [c] more, are enough. *)
Definition value_ends (call : nat -> Parser -> outcome (Value * Parser))
  (c fuel : nat) : Prop :=
  forall p, 3 * remaining p + c <= fuel -> call fuel p <> OutOfFuel.

Definition loop_ends {A : Type}
  (call : nat -> Parser -> A -> outcome (A * Parser)) (fuel : nat) : Prop :=
  forall p acc, 3 * remaining p + 3 <= fuel -> call fuel p acc <> OutOfFuel.

(** ** The recursion limit *)

(** The interpreter bounds the depth to which calls may nest: a call that
    would go deeper raises RecursionError, which no handler of [main.py]
    catches.  The functions above run as on a stack without bound.
    Here are the methods of [Parser] once more, named [limited_...], each
    with the number [stack] of frames that are left where the method is
    called: the call takes one frame for the body, and with none left it
    raises RecursionError.  The calls that a body makes are the calls of the
    source, in its order: [consume] calls [peek], the test of a [while]
    loop calls [peek] once or twice.  Built-in functions ([float],
    [str.strip], [len], the constructor of an exception) take no frame.
    Fuel is spent as above. *)
Definition call_method {A : Type} (stack : nat) (body : nat -> outcome A)
  : outcome A :=
  match stack with
  | 0 => Raise RecursionError
  | S stack' => body stack'
  end.

(** [Parser(tokens)], a call of [__init__] *)
Definition limited_Parser_init (stack : nat) (toks : list Token)
  : outcome Parser :=
  call_method stack (fun _ => Ok (Parser_init toks)).

Definition limited_peek (stack : nat) (p : Parser) : outcome (option Token) :=
  call_method stack (fun _ => Ok (peek p)).

Definition limited_consume (stack : nat) (expected : option TokenType)
  (p : Parser) : outcome (Token * Parser) :=
  call_method stack (fun stack =>
    token <- limited_peek stack p ;;
    match token with
    | None => Raise end_of_input
    | Some token =>
        match expected with
        | Some ex =>
            if negb (TokenType_eqb (type token) ex)
            then Raise (SyntaxError (lit "Expected " ++ type_name ex
                                     ++ lit ", got " ++ type_name (type token)))
            else Ok (token, advance p)
        | None => Ok (token, advance p)
        end
    end).

(** [self.peek() and self.peek().type != closing]: the second call is
    made when the first returned a token. *)
Definition limited_more_before (stack : nat) (closing : TokenType)
  (p : Parser) : outcome bool :=
  first <- limited_peek stack p ;;
  match first with
  | None => Ok false
  | Some _ =>
      second <- limited_peek stack p ;;
      match second with
      | Some tok => Ok (negb (TokenType_eqb (type tok) closing))
      | None => Raise none_has_no_type
      end
  end.

(** [self.peek() and self.peek().type == "COMMA"] *)
Definition limited_at_comma (stack : nat) (p : Parser) : outcome bool :=
  first <- limited_peek stack p ;;
  match first with
  | None => Ok false
  | Some _ =>
      second <- limited_peek stack p ;;
      match second with
      | Some tok => Ok (TokenType_eqb (type tok) COMMA)
      | None => Raise none_has_no_type
      end
  end.

Fixpoint limited_parse_value (stack fuel : nat) (p : Parser) {struct fuel}
  : outcome (Value * Parser) :=
  match fuel with
  | 0 => OutOfFuel
  | S fuel' =>
      call_method stack (fun stack =>
        tok <- limited_peek stack p ;;
        match tok with
        | None => Raise none_has_no_type
        | Some tok =>
            match type tok with
            | NUMBER =>
                '(t, p1) <- limited_consume stack None p ;;
                x <- float (value t) ;;
                Ok (VFloat x, p1)
            | STRING =>
                '(t, p1) <- limited_consume stack None p ;;
                Ok (VStr (strip "'" (value t)), p1)
            | CONST =>
                '(t, p1) <- limited_consume stack None p ;;
                let name := strip "|" (value t) in
                match dict_get (constants p1) name with
                | None =>
                    Raise (SyntaxError (lit "Unknown constant " ++ name))
                | Some v => Ok (v, p1)
                end
            | LIST => limited_parse_list stack fuel' p
            | STRUCT => limited_parse_struct stack fuel' p
            | other =>
                Raise (SyntaxError
                         (lit "Unexpected token " ++ type_name other))
            end
        end)
  end

with limited_parse_list (stack fuel : nat) (p : Parser) {struct fuel}
  : outcome (Value * Parser) :=
  match fuel with
  | 0 => OutOfFuel
  | S fuel' =>
      call_method stack (fun stack =>
        '(_, p1) <- limited_consume stack (Some LIST) p ;;
        '(items, p2) <- limited_parse_list_loop stack fuel' p1 [] ;;
        '(_, p3) <- limited_consume stack (Some RPAREN) p2 ;;
        Ok (VList items, p3))
  end

(** The [while] loop of [parse_list], in the body of that method:
    [stack] frames are left there. *)
with limited_parse_list_loop (stack fuel : nat) (p : Parser)
  (items : list Value) {struct fuel} : outcome (list Value * Parser) :=
  match fuel with
  | 0 => OutOfFuel
  | S fuel' =>
      go <- limited_more_before stack RPAREN p ;;
      if go then
        '(v, p1) <- limited_parse_value stack fuel' p ;;
        limited_parse_list_loop stack fuel' p1 (items ++ [v])
      else Ok (items, p)
  end

with limited_parse_struct (stack fuel : nat) (p : Parser) {struct fuel}
  : outcome (Value * Parser) :=
  match fuel with
  | 0 => OutOfFuel
  | S fuel' =>
      call_method stack (fun stack =>
        '(_, p1) <- limited_consume stack (Some STRUCT) p ;;
        '(_, p2) <- limited_consume stack (Some LBRACE) p1 ;;
        '(obj, p3) <- limited_parse_struct_loop stack fuel' p2 [] ;;
        '(_, p4) <- limited_consume stack (Some RBRACE) p3 ;;
        Ok (VDict obj, p4))
  end

with limited_parse_struct_loop (stack fuel : nat) (p : Parser)
  (obj : list (str * Value)) {struct fuel}
  : outcome (list (str * Value) * Parser) :=
  match fuel with
  | 0 => OutOfFuel
  | S fuel' =>
      go <- limited_more_before stack RBRACE p ;;
      if go then
        '(k, p1) <- limited_consume stack (Some IDENT) p ;;
        '(_, p2) <- limited_consume stack (Some EQUAL) p1 ;;
        '(v, p3) <- limited_parse_value stack fuel' p2 ;;
        let obj' := dict_set obj (value k) v in
        comma <- limited_at_comma stack p3 ;;
        if comma then
          '(_, p4) <- limited_consume stack (Some COMMA) p3 ;;
          limited_parse_struct_loop stack fuel' p4 obj'
        else limited_parse_struct_loop stack fuel' p3 obj'
      else Ok (obj, p)
  end.

Definition limited_parse_set (stack fuel : nat) (p : Parser) : outcome Parser :=
  call_method stack (fun stack =>
    '(_, p1) <- limited_consume stack (Some SET) p ;;
    '(name, p2) <- limited_consume stack (Some IDENT) p1 ;;
    '(_, p3) <- limited_consume stack (Some EQUAL) p2 ;;
    '(v, p4) <- limited_parse_value stack fuel p3 ;;
    Ok (set_constant p4 (value name) v)).

(** The [while self.peek()] loop of [parse], in the body of that method;
    the branch calls [peek] again. *)
Fixpoint limited_parse_loop (stack fuel : nat) (p : Parser)
  (result : option Value) {struct fuel} : outcome (option Value * Parser) :=
  match fuel with
  | 0 => OutOfFuel
  | S fuel' =>
      first <- limited_peek stack p ;;
      match first with
      | None => Ok (result, p)
      | Some _ =>
          second <- limited_peek stack p ;;
          match second with
          | None => Raise none_has_no_type
          | Some tok =>
              if TokenType_eqb (type tok) SET then
                p1 <- limited_parse_set stack fuel' p ;;
                limited_parse_loop stack fuel' p1 result
              else
                '(v, p1) <- limited_parse_value stack fuel' p ;;
                limited_parse_loop stack fuel' p1 (Some v)
          end
      end
  end.

Definition limited_parse (stack fuel : nat) (p : Parser)
  : outcome (option Value * Parser) :=
  call_method stack (fun stack => limited_parse_loop stack fuel p None).

(** [Parser(tokens).parse()] with [stack] frames left. *)
Definition limited_parse_tokens (stack : nat) (toks : list Token)
  : outcome (option Value) :=
  p <- limited_Parser_init stack toks ;;
  '(result, _) <- limited_parse stack (parse_fuel toks) p ;;
  Ok result.



(** ** main *)



(** ** Further vocabulary *)

(** *** The language of a pattern *)

(** [lang r w]: the word [w] is made the way the pattern [r] says,
    whatever stands around it. *)
Inductive lang : regex -> str -> Prop :=
| lang_nil : lang [] []
| lang_chr c r w : lang r w -> lang (Chr c :: r) (c :: w)
| lang_cls (p : ascii -> bool) r x w :
    p x = true -> lang r w -> lang (Cls p :: r) (x :: w)
| lang_star (p : ascii -> bool) r xs w :
    forallb p xs = true -> lang r w -> lang (Star p :: r) (xs ++ w)
| lang_lazy (p : ascii -> bool) r xs w :
    forallb p xs = true -> lang r w -> lang (LazyStar p :: r) (xs ++ w)
| lang_wordb r w : lang r w -> lang (WordB :: r) w.

(** What the text of a token of each type looks like. *)
Definition lexeme_shape (ttype : TokenType) (w : str) : Prop :=
  match ttype with
  | NUMBER =>
      exists ip fp,
        w = ip ++ lit "." ++ fp /\ forallb is_digit ip = true
        /\ forallb is_digit fp = true /\ fp <> []
  | STRING =>
      exists s, w = lit "'" ++ s ++ lit "'" /\ forallb not_quote s = true
  | CONST =>
      exists c name,
        w = lit "|" ++ (c :: name) ++ lit "|" /\ is_lower c = true
        /\ forallb is_ident_char name = true
  | IDENT =>
      exists c name,
        w = c :: name /\ is_lower c = true
        /\ forallb is_ident_char name = true
  | SET => w = lit "set"
  | STRUCT => w = lit "struct"
  | LIST => w = lit "(list"
  | LBRACE => w = lit "{"
  | RBRACE => w = lit "}"
  | LPAREN => w = lit "("
  | RPAREN => w = lit ")"
  | EQUAL => w = lit "="
  | COMMA => w = lit ","
  | SKIP => False
  end.

(** *** The pieces of a text *)

(** The tokens of a run of matches: those of SKIP are left out. *)
Definition tokens_of (pieces : list (TokenType * str)) : list Token :=
  map (fun tw => mkToken (fst tw) (snd tw))
    (filter (fun tw => negb (TokenType_eqb (fst tw) SKIP)) pieces).

(** A match is not empty, and a match of SKIP is made of blanks. *)
Definition piece_ok (tw : TokenType * str) : Prop :=
  snd tw <> [] /\ (fst tw = SKIP -> forallb is_blank (snd tw) = true).

(** *** List literals *)

(** [Value*]: the items of a list literal read from [p], in order, up to
    [p']. *)
Inductive list_items : Parser -> list Value -> Parser -> Prop :=
| items_nil p : list_items p [] p
| items_cons p v p1 vs p' :
    returns_value p v p1 ->
    list_items p1 vs p' ->
    list_items p (v :: vs) p'.

(** The types of the tokens that a value begins with. *)
Definition starts_value (ttype : TokenType) : bool :=
  match ttype with
  | NUMBER | STRING | CONST | LIST | STRUCT => true
  | _ => false
  end.

(** *** Exceptions *)

Definition is_syntax_error (e : Exception) : Prop :=
  exists msg, e = SyntaxError msg.

(** The last token is [=]. *)
Definition ends_with_equal (toks : list Token) : Prop :=
  exists before t, toks = before ++ [t] /\ type t = EQUAL.

(** Some NUMBER token holds a text that no match of the NUMBER pattern
    is. *)
Definition has_bad_number (toks : list Token) : Prop :=
  exists t,
    In t toks /\ type t = NUMBER /\ ~ lexeme_shape NUMBER (value t).

(** Every NUMBER token has the form that the lexer gives it. *)
Definition numbers_lexed (toks : list Token) : Prop :=
  Forall (fun t => type t = NUMBER -> lexeme_shape NUMBER (value t)) toks.

(** *** Nesting *)

(** The tokens that open a list or a struct literal. *)
Definition opens (ttype : TokenType) : bool :=
  match ttype with
  | LIST | STRUCT => true
  | _ => false
  end.

Definition nesting_tokens (toks : list Token) : nat :=
  length (filter (fun t => opens (type t)) toks).

(** The opening tokens from the cursor on. *)
Definition openers (p : Parser) : nat :=
  nesting_tokens (skipn (pos p) (tokens p)).


(** What a call does with a limited stack, against what it does without
    the limit: the same, unless it raises RecursionError. *)
Definition agrees {A : Type} (limited unlimited : outcome A) : Prop :=
  limited = Raise RecursionError \/ limited = unlimited.

(** *** Keys *)

(** The keys in the order in which they first come. *)
Definition first_keys (ks : list str) : list str :=
  fold_left
    (fun acc k =>
       if existsb (fun k' => str_eqb k' k) acc then acc else acc ++ [k])
    ks [].

(** What is behind an exception of the parser: it is a SyntaxError, or it
    is the AttributeError of [parse_value] and the tokens end with [=], or
    it is the ValueError of [float] and a NUMBER token does not hold a
    number. *)
Definition blamed (e : Exception) (toks : list Token) : Prop :=
  is_syntax_error e
  \/ (e = none_has_no_type /\ ends_with_equal toks)
  \/ (e = ValueError /\ has_bad_number toks).

(** *** More tokens, more text *)

(** The parser [p] with the tokens [more] put after its own. *)
Definition followed_by (more : list Token) (p : Parser) : Parser :=
  mkParser (tokens p ++ more) (pos p) (constants p).

(** A pattern on which a character [c] put at the end of the text has no
    hold: [c] is none of its literal characters and in none of its
    one-character classes, and a repetition that takes [c] is followed by
    a character that must still come. *)
Fixpoint unmoved_by (c : ascii) (r : regex) : bool :=
  match r with
  | [] => true
  | Chr q :: r' => negb (Ascii.eqb c q) && unmoved_by c r'
  | Cls p :: r' => negb (p c) && unmoved_by c r'
  | Star p :: r' | LazyStar p :: r' =>
      (negb (p c) || (1 <=? min_length r')) && unmoved_by c r'
  | WordB :: r' => unmoved_by c r'
  end.

(** Pieces of text with a block comment after each, and a last piece. *)
Fixpoint commented (parts : list (str * str)) (last : str) : str :=
  match parts with
  | [] => last
  | (piece, body) :: parts' =>
      piece ++ block_comment body ++ commented parts' last
  end.

(** There is no [--[[] in the text. *)
Definition no_opener (t : str) : bool :=
  negb (occurs_before (lit "--[[") (length t) t).
(** * Properties *)

(** ** The matcher *)

Lemma match_here_star (p : ascii -> bool) (r : regex) prev s :
  match_here (Star p :: r) prev s =
  match s with
  | x :: s' =>
      if p x then
        match match_here (Star p :: r) (Some x) s' with
        | Some n => Some (S n)
        | None => match_here r prev s
        end
      else match_here r prev s
  | [] => match_here r prev s
  end.
Proof. destruct s; reflexivity. Qed.

Lemma match_here_lazy (p : ascii -> bool) (r : regex) prev s :
  match_here (LazyStar p :: r) prev s =
  match match_here r prev s with
  | Some n => Some n
  | None =>
      match s with
      | x :: s' =>
          if p x then option_map S (match_here (LazyStar p :: r) (Some x) s')
          else None
      | [] => None
      end
  end.
Proof. destruct s; reflexivity. Qed.

(** A match lies inside the text and is no shorter than the pattern's
    mandatory characters. *)
Lemma match_here_bounds (r : regex) :
  forall prev s n,
    match_here r prev s = Some n -> min_length r <= n <= length s.
Proof.
  induction r as [|a r IH]; intros prev s n H.
  - simpl in *. inversion H. lia.
  - destruct a as [c|p|p|p|].
    + simpl in H. destruct s as [|x s']; [discriminate|].
      destruct (Ascii.eqb x c); [|discriminate].
      destruct (match_here r (Some x) s') as [m|] eqn:E; [|discriminate].
      inversion H; subst. apply IH in E. simpl. lia.
    + simpl in H. destruct s as [|x s']; [discriminate|].
      destruct (p x); [|discriminate].
      destruct (match_here r (Some x) s') as [m|] eqn:E; [|discriminate].
      inversion H; subst. apply IH in E. simpl. lia.
    + revert prev n H. induction s as [|x s' IHs]; intros prev n H;
        rewrite match_here_star in H.
      * apply IH in H. simpl in *. lia.
      * destruct (p x).
        -- destruct (match_here (Star p :: r) (Some x) s') as [m|] eqn:E.
           ++ inversion H; subst. apply IHs in E. simpl in *. lia.
           ++ apply IH in H. simpl in *. lia.
        -- apply IH in H. simpl in *. lia.
    + revert prev n H. induction s as [|x s' IHs]; intros prev n H;
        rewrite match_here_lazy in H.
      * destruct (match_here r prev []) as [m|] eqn:E; [|discriminate].
        inversion H; subst. apply IH in E. simpl in *. lia.
      * destruct (match_here r prev (x :: s')) as [m|] eqn:E.
        -- inversion H; subst. apply IH in E. simpl in *. lia.
        -- destruct (p x); [|discriminate].
           destruct (match_here (LazyStar p :: r) (Some x) s') as [m|] eqn:E2;
             [|discriminate].
           inversion H; subst. apply IHs in E2. simpl in *. lia.
    + simpl in H.
      destruct (xorb (is_word_opt prev) (is_word_opt (hd_error s)));
        [|discriminate].
      apply IH in H. simpl. lia.
Qed.

(** A pattern without [\b] does not look at the character before it. *)
Lemma match_here_prev_free (r : regex) :
  prev_free r = true ->
  forall prev prev' s, match_here r prev s = match_here r prev' s.
Proof.
  induction r as [|a r IH]; intros Hf prev prev' s; [reflexivity|].
  simpl in Hf. apply andb_prop in Hf. destruct Hf as [Ha Hr].
  specialize (IH Hr).
  destruct a as [c|p|p|p|]; try discriminate.
  - reflexivity.
  - reflexivity.
  - revert prev prev'. induction s as [|x s' IHs]; intros prev prev';
      rewrite (match_here_star p r prev), (match_here_star p r prev').
    + apply IH.
    + rewrite (IH prev prev'). reflexivity.
  - revert prev prev'. induction s as [|x s' IHs]; intros prev prev';
      rewrite (match_here_lazy p r prev), (match_here_lazy p r prev');
      rewrite (IH prev prev'); [reflexivity|].
    destruct (match_here r prev' (x :: s')); [reflexivity|].
    reflexivity.
Qed.

(** ** The lexer *)

Lemma re_match_bounds (r : regex) text pos e :
  1 <= min_length r ->
  re_match r text pos = Some e -> pos < e <= length text.
Proof.
  unfold re_match. intros Hm H.
  destruct (match_here r (char_before text pos) (skipn pos text)) as [n|] eqn:E;
    [|discriminate].
  inversion H; subst. apply match_here_bounds in E.
  rewrite length_skipn in E. lia.
Qed.

(** The loop over the table stops at the first entry that matches. *)
Lemma first_match_first table text pos ttype e :
  first_match table text pos = Some (ttype, e) <->
  exists before r after,
    table = before ++ (ttype, r) :: after /\
    re_match r text pos = Some e /\
    Forall (fun tr => re_match (snd tr) text pos = None) before.
Proof.
  split.
  - induction table as [|[t r] rest IH]; intro H; [discriminate|].
    simpl in H. destruct (re_match r text pos) as [e'|] eqn:E.
    + inversion H; subst. exists [], r, rest. auto.
    + destruct (IH H) as (before & r' & after & -> & Hm & Hb).
      exists ((t, r) :: before), r', after. auto.
  - intros (before & r & after & -> & Hm & Hb).
    induction Hb as [|[t' r'] before Hn Hb IH]; simpl.
    + rewrite Hm. reflexivity.
    + simpl in Hn. rewrite Hn. exact IH.
Qed.

Lemma first_match_in table text pos ttype e :
  first_match table text pos = Some (ttype, e) ->
  exists r, In (ttype, r) table /\ re_match r text pos = Some e.
Proof.
  intro H. apply first_match_first in H.
  destruct H as (before & r & after & -> & Hm & _).
  exists r. split; [|exact Hm]. apply in_or_app. right. left. reflexivity.
Qed.

Lemma TOKEN_REGEX_nonempty :
  Forall (fun tr => 1 <= min_length (snd tr)) TOKEN_REGEX.
Proof. unfold TOKEN_REGEX. repeat constructor; simpl; lia. Qed.

(** Every match of the lexer takes at least one character of the text. *)
Lemma first_match_progress text pos ttype e :
  first_match TOKEN_REGEX text pos = Some (ttype, e) ->
  pos < e <= length text.
Proof.
  intro H. apply first_match_in in H. destruct H as (r & Hin & Hm).
  pose proof TOKEN_REGEX_nonempty as Hall. rewrite Forall_forall in Hall.
  apply (re_match_bounds r text pos e (Hall _ Hin) Hm).
Qed.

Lemma tokenize_loop_S fuel text pos toks :
  tokenize_loop (S fuel) text pos toks =
  if pos <? length text then
    match first_match TOKEN_REGEX text pos with
    | Some (ttype, e) => tokenize_loop fuel text e (emit toks ttype text pos e)
    | None =>
        Raise (SyntaxError
                 (lit "Unexpected character at position " ++ str_of_nat pos))
    end
  else Ok toks.
Proof. reflexivity. Qed.

(** With fuel beyond the characters left, the loop of [tokenize] comes to
    its end, and more fuel changes nothing. *)
Lemma tokenize_loop_fuel (f1 : nat) :
  forall f2 text pos toks,
    pos <= length text ->
    length text < pos + f1 -> length text < pos + f2 ->
    tokenize_loop f1 text pos toks = tokenize_loop f2 text pos toks
    /\ tokenize_loop f1 text pos toks <> OutOfFuel.
Proof.
  induction f1 as [|f1 IH]; intros f2 text pos toks Hle H1 H2.
  - lia.
  - destruct f2 as [|f2].
    + lia.
    + rewrite !tokenize_loop_S.
      destruct (pos <? length text) eqn:E; [|split; [reflexivity|discriminate]].
      apply Nat.ltb_lt in E.
      destruct (first_match TOKEN_REGEX text pos) as [[ttype e]|] eqn:M;
        [|split; [reflexivity|discriminate]].
      apply first_match_progress in M.
      apply IH; lia.
Qed.

Lemma tokenize_terminates text : tokenize text <> OutOfFuel.
Proof.
  unfold tokenize.
  apply (tokenize_loop_fuel (S (length text)) (S (length text)) text 0 []); lia.
Qed.

(** The run of [tokenize] from a position that the scan visits. *)
Lemma scans_tokenize text pos toks :
  scans text pos toks ->
  pos <= length text /\
  forall fuel, length text < pos + fuel ->
    tokenize text = tokenize_loop fuel text pos toks.
Proof.
  induction 1 as [|pos toks ttype e Hs [Hle IH] Hlt Hm].
  - split; [lia|]. intros fuel Hf. unfold tokenize.
    apply tokenize_loop_fuel; lia.
  - pose proof (first_match_progress _ _ _ _ Hm) as Hp.
    split; [lia|]. intros fuel Hf.
    rewrite (IH (S (fuel + length text))) by lia. rewrite tokenize_loop_S.
    apply Nat.ltb_lt in Hlt. rewrite Hlt, Hm.
    apply tokenize_loop_fuel; lia.
Qed.

Lemma skipn_length_app {A : Type} (pre x : list A) :
  skipn (length pre) (pre ++ x) = x.
Proof. induction pre; simpl; auto. Qed.

(** Matching at the end of a prefix looks at the rest of the text only,
    but for the character before. *)
Lemma re_match_after r pre x :
  re_match r (pre ++ x) (length pre) =
  option_map (Nat.add (length pre))
    (match_here r (char_before (pre ++ x) (length pre)) x).
Proof. unfold re_match. rewrite skipn_length_app. reflexivity. Qed.

Lemma keyword_first_match (pre rest : str) :
  is_word_opt (hd_error rest) = false ->
  first_match TOKEN_REGEX (pre ++ lit "(list" ++ rest) (length pre)
    = Some (LIST, length pre + 5)
  /\ first_match TOKEN_REGEX (pre ++ lit "set" ++ rest) (length pre)
    = Some (SET, length pre + 3)
  /\ first_match TOKEN_REGEX (pre ++ lit "struct" ++ rest) (length pre)
    = Some (STRUCT, length pre + 6).
Proof.
  intro Hb. unfold TOKEN_REGEX, first_match.
  rewrite !re_match_after.
  split; [|split].
  - generalize (char_before (pre ++ lit "(list" ++ rest) (length pre)).
    intro prev. cbn. rewrite Hb. cbn. reflexivity.
  - generalize (char_before (pre ++ lit "set" ++ rest) (length pre)).
    intro prev. cbn. rewrite Hb. cbn. reflexivity.
  - generalize (char_before (pre ++ lit "struct" ++ rest) (length pre)).
    intro prev. cbn. rewrite Hb. cbn. reflexivity.
Qed.

Lemma ident_char_is_word c : is_ident_char c = true -> is_word c = true.
Proof.
  destruct c as [[] [] [] [] [] [] [] []]; vm_compute; intro H;
    first [reflexivity | discriminate H].
Qed.

(** The generic patterns match the keywords as well; it is their place in
    the table that keeps them from being chosen. *)
Lemma generic_patterns_match (pre rest : str) :
  is_word_opt (hd_error rest) = false ->
  re_match (chr "(") (pre ++ lit "(list" ++ rest) (length pre)
    = Some (length pre + 1)
  /\ re_match (cls is_lower ++ star is_ident_char)
       (pre ++ lit "set" ++ rest) (length pre) = Some (length pre + 3)
  /\ re_match (cls is_lower ++ star is_ident_char)
       (pre ++ lit "struct" ++ rest) (length pre) = Some (length pre + 6).
Proof.
  intro Hb.
  assert (Hi : match rest with c :: _ => is_ident_char c | [] => false end
               = false).
  { destruct rest as [|c rest']; [reflexivity|]. simpl in Hb.
    destruct (is_ident_char c) eqn:E; [|reflexivity].
    apply ident_char_is_word in E. congruence. }
  rewrite !re_match_after. split; [|split].
  - reflexivity.
  - generalize (char_before (pre ++ lit "set" ++ rest) (length pre)).
    intro prev. destruct rest as [|c rest']; cbn; [|rewrite Hi]; reflexivity.
  - generalize (char_before (pre ++ lit "struct" ++ rest) (length pre)).
    intro prev. destruct rest as [|c rest']; cbn; [|rewrite Hi]; reflexivity.
Qed.

(** C5: at every position the lexer takes the first pattern of the table,
    in the order NUMBER, STRING, SET, STRUCT, LIST, CONST, IDENT, the
    single characters, SKIP, that matches there, whatever the later patterns
    would match; so [(list], [set] and [struct] before a word boundary are
    lexed as LIST, SET and STRUCT although the patterns of LPAREN and IDENT
    match at the same place. *)
Theorem C5_first_pattern_in_table_order :
  (forall text pos ttype e,
      first_match TOKEN_REGEX text pos = Some (ttype, e) <->
      exists before r after,
        TOKEN_REGEX = before ++ (ttype, r) :: after /\
        re_match r text pos = Some e /\
        Forall (fun tr => re_match (snd tr) text pos = None) before)
  /\ (forall fuel text pos toks ttype e,
         pos < length text ->
         first_match TOKEN_REGEX text pos = Some (ttype, e) ->
         tokenize_loop (S fuel) text pos toks
         = tokenize_loop fuel text e (emit toks ttype text pos e))
  /\ map fst TOKEN_REGEX
     = [NUMBER; STRING; SET; STRUCT; LIST; CONST; IDENT;
        LBRACE; RBRACE; LPAREN; RPAREN; EQUAL; COMMA; SKIP]
  /\ (forall pre rest,
         is_word_opt (hd_error rest) = false ->
         (first_match TOKEN_REGEX (pre ++ lit "(list" ++ rest) (length pre)
            = Some (LIST, length pre + 5)
          /\ first_match TOKEN_REGEX (pre ++ lit "set" ++ rest) (length pre)
            = Some (SET, length pre + 3)
          /\ first_match TOKEN_REGEX (pre ++ lit "struct" ++ rest) (length pre)
            = Some (STRUCT, length pre + 6))
         /\
         (re_match (chr "(") (pre ++ lit "(list" ++ rest) (length pre)
            = Some (length pre + 1)
          /\ re_match (cls is_lower ++ star is_ident_char)
               (pre ++ lit "set" ++ rest) (length pre) = Some (length pre + 3)
          /\ re_match (cls is_lower ++ star is_ident_char)
               (pre ++ lit "struct" ++ rest) (length pre)
             = Some (length pre + 6)))
  /\ tokenize (lit "(list set struct")
     = Ok [mkToken LIST (lit "(list"); mkToken SET (lit "set");
           mkToken STRUCT (lit "struct")]
  /\ tokenize (lit "(listing settle structure")
     = Ok [mkToken LPAREN (lit "("); mkToken IDENT (lit "listing");
           mkToken IDENT (lit "settle"); mkToken IDENT (lit "structure")].
Proof.
  split; [|split; [|split; [|split; [|split]]]].
  - intros. apply first_match_first.
  - intros fuel text pos toks ttype e Hlt Hm.
    rewrite tokenize_loop_S. apply Nat.ltb_lt in Hlt. rewrite Hlt, Hm.
    reflexivity.
  - reflexivity.
  - intros pre rest Hb. split.
    + apply keyword_first_match, Hb.
    + apply generic_patterns_match, Hb.
  - vm_compute. reflexivity.
  - vm_compute. reflexivity.
Qed.

Lemma C5_witness :
  is_word_opt (hd_error (lit " 1.0)")) = false
  /\ first_match TOKEN_REGEX (lit "x = " ++ lit "(list" ++ lit " 1.0)") 4
     = Some (LIST, 9).
Proof.
  split; [reflexivity|].
  exact (proj1 (proj1 (proj1 (proj2 (proj2 (proj2
    C5_first_pattern_in_table_order))) (lit "x = ") (lit " 1.0)")
    eq_refl))).
Defined.

(** C8 as it is worded fails: in the text ['@'] the position 1 holds a
    character at which no pattern matches, and [tokenize] returns the
    STRING token all the same, since the lexer never stops there. *)
Lemma C8_unmatched_inside_token :
  1 < length (lit "'@'")
  /\ first_match TOKEN_REGEX (lit "'@'") 1 = None
  /\ tokenize (lit "'@'") = Ok [mkToken STRING (lit "'@'")].
Proof. vm_compute. repeat split; auto. Qed.

(** C8, amended: when the scan of [tokenize] comes to a position of the
    text at which no pattern matches, the call raises the SyntaxError that
    names this position, counted from 0, and returns no token; the
    positions visited before it all had a match. *)
Theorem C8_error_at_first_unmatched_visited text pos toks :
  scans text pos toks ->
  pos < length text ->
  first_match TOKEN_REGEX text pos = None ->
  tokenize text
  = Raise (SyntaxError
             (lit "Unexpected character at position " ++ str_of_nat pos)).
Proof.
  intros Hs Hlt Hn.
  destruct (scans_tokenize text pos toks Hs) as [_ Hrun].
  rewrite (Hrun (S (length text))) by lia.
  rewrite tokenize_loop_S.
  apply Nat.ltb_lt in Hlt. rewrite Hlt, Hn. reflexivity.
Qed.

Lemma C8_witness :
  tokenize (lit "ab @ cd")
  = Raise (SyntaxError (lit "Unexpected character at position 3")).
Proof.
  apply (C8_error_at_first_unmatched_visited (lit "ab @ cd") 3
           [mkToken IDENT (lit "ab")]).
  - apply (scans_step (lit "ab @ cd") 2 [mkToken IDENT (lit "ab")] SKIP 3).
    + apply (scans_step (lit "ab @ cd") 0 [] IDENT 2).
      * apply scans_start.
      * vm_compute; lia.
      * reflexivity.
    + vm_compute; lia.
    + reflexivity.
  - vm_compute; lia.
  - reflexivity.
Defined.

(** ** The comment pre-pass *)

Lemma starts_with_app pat x rest :
  length pat <= length x ->
  starts_with pat (x ++ rest) = starts_with pat x.
Proof.
  revert x. induction pat as [|c pat IH]; intros x Hl; [reflexivity|].
  destruct x as [|a x]; simpl in *; [lia|].
  rewrite IH by lia. reflexivity.
Qed.

Lemma match_two_chars a b prev s :
  match_here [Chr a; Chr b] prev s
  = if starts_with [a; b] s then Some 2 else None.
Proof.
  destruct s as [|x [|y s]]; simpl.
  - reflexivity.
  - destruct (Ascii.eqb x a); reflexivity.
  - destruct (Ascii.eqb x a); [|reflexivity]. simpl.
    destruct (Ascii.eqb y b); reflexivity.
Qed.

(** Where the text does not go on with [--[[] the comment pattern does not
    match. *)
Lemma COMMENT_needs_opener prev s :
  starts_with (lit "--[[") s = false -> match_here COMMENT prev s = None.
Proof.
  unfold COMMENT. intro H.
  destruct s as [|a [|b [|c [|d s]]]]; cbn in *;
    repeat match goal with
      | |- context [Ascii.eqb ?x ?y] => destruct (Ascii.eqb x y); cbn in *
      end; try reflexivity; try discriminate.
Qed.

(** The lazy [.*?] stops at the first [ ]] ]. *)
Lemma lazy_to_first_closer body rest prev :
  closes_at_end body = true ->
  match_here (lazy_star any_char ++ word "]]") prev (body ++ lit "]]" ++ rest)
  = Some (length body + 2).
Proof.
  unfold closes_at_end. rewrite negb_true_iff.
  change (lazy_star any_char ++ word "]]")
    with [LazyStar any_char; Chr "]"; Chr "]"]%char.
  revert prev. induction body as [|c body IH]; intros prev H;
    rewrite match_here_lazy, match_two_chars;
    change ["]"%char; "]"%char] with (lit "]]").
  - reflexivity.
  - simpl length in H. cbn [occurs_before app] in H.
    apply orb_false_iff in H. destruct H as [Hs Ho].
    rewrite app_assoc.
    rewrite (starts_with_app (lit "]]") ((c :: body) ++ lit "]]") rest)
      by (rewrite length_app; simpl; lia).
    change ((c :: body) ++ lit "]]") with (c :: body ++ lit "]]").
    rewrite Hs. cbn [app any_char].
    rewrite <- app_assoc. rewrite (IH (Some c) Ho). reflexivity.
Qed.

Lemma COMMENT_matches_block body rest prev :
  closes_at_end body = true ->
  match_here COMMENT prev (block_comment body ++ rest)
  = Some (length body + 6).
Proof.
  intro H. unfold COMMENT, block_comment.
  change (word "--[[" ++ lazy_star any_char ++ word "]]")
    with (Chr "-" :: Chr "-" :: Chr "[" :: Chr "[" ::
          (lazy_star any_char ++ word "]]"))%char.
  change ((lit "--[[" ++ body ++ lit "]]") ++ rest)
    with ("-" :: "-" :: "[" :: "[" :: ((body ++ lit "]]") ++ rest))%char.
  rewrite <- app_assoc.
  cbn [match_here Ascii.eqb Bool.eqb].
  rewrite lazy_to_first_closer by exact H.
  simpl. f_equal. lia.
Qed.

Lemma COMMENT_prev_free : prev_free COMMENT = true.
Proof. reflexivity. Qed.

Lemma re_sub_empty_prev prev prev' :
  forall skip s,
    re_sub_empty COMMENT skip prev s = re_sub_empty COMMENT skip prev' s.
Proof.
  intros skip s. revert skip prev prev'.
  induction s as [|c s IH]; intros skip prev prev'; [reflexivity|].
  cbn [re_sub_empty]. destruct skip as [|k]; [|reflexivity].
  rewrite (match_here_prev_free COMMENT COMMENT_prev_free prev prev').
  reflexivity.
Qed.

(** The characters of a match are dropped one by one. *)
Lemma re_sub_empty_skip x rest prev :
  re_sub_empty COMMENT (length x) prev (x ++ rest)
  = re_sub_empty COMMENT 0 None rest.
Proof.
  revert prev. induction x as [|c x IH]; intro prev;
    cbn [length app re_sub_empty].
  - apply re_sub_empty_prev.
  - apply IH.
Qed.

(** Up to the first [--[[] the text is kept as it is. *)
Lemma re_sub_empty_keeps t1 rest prev :
  occurs_before (lit "--[[") (length t1) (t1 ++ rest) = false ->
  re_sub_empty COMMENT 0 prev (t1 ++ rest)
  = t1 ++ re_sub_empty COMMENT 0 None rest.
Proof.
  revert prev. induction t1 as [|c t1 IH]; intros prev H.
  - apply re_sub_empty_prev.
  - simpl length in H. cbn [occurs_before app] in H.
    apply orb_false_iff in H. destruct H as [Hs Ho].
    cbn [app re_sub_empty].
    rewrite (COMMENT_needs_opener prev (c :: t1 ++ rest) Hs).
    rewrite (IH (Some c) Ho). reflexivity.
Qed.

(** An opener that begins before an inserted [--[[] lies before it
    altogether. *)
Lemma opener_not_straddling t1 t2 y :
  occurs_before (lit "--[[") (length t1) (t1 ++ t2) = false ->
  occurs_before (lit "--[[") (length t1) (t1 ++ lit "--[[" ++ y) = false.
Proof.
  induction t1 as [|a t1 IH]; intro H; [reflexivity|].
  simpl length in *. cbn [occurs_before app] in *.
  apply orb_false_iff in H. destruct H as [Hs Ho].
  rewrite (IH Ho), orb_false_r.
  destruct t1 as [|b [|c [|d t1]]]; cbn in *;
    repeat match goal with
      | |- context [Ascii.eqb ?x ?y] => destruct (Ascii.eqb x y) eqn:?; cbn in *
      end; try reflexivity; try discriminate; try congruence.
Qed.

(** A block comment put where no opener of the text begins before it is
    taken out again by [remove_comments]. *)
Lemma remove_comments_inserted t1 body t2 :
  occurs_before (lit "--[[") (length t1) (t1 ++ t2) = false ->
  closes_at_end body = true ->
  remove_comments (t1 ++ block_comment body ++ t2) = remove_comments (t1 ++ t2).
Proof.
  intros Ho Hc. unfold remove_comments.
  rewrite (re_sub_empty_keeps t1 t2 None Ho).
  assert (Ho' : occurs_before (lit "--[[") (length t1)
                  (t1 ++ block_comment body ++ t2) = false).
  { unfold block_comment. rewrite <- !app_assoc.
    apply (opener_not_straddling t1 t2 _ Ho). }
  rewrite (re_sub_empty_keeps t1 _ None Ho'). f_equal.
  pose proof (COMMENT_matches_block body t2 None Hc) as Hm.
  remember (block_comment body ++ t2) as s eqn:Es.
  destruct s as [|c s]; [discriminate Es|].
  cbn [re_sub_empty]. rewrite Hm.
  replace (length body + 6) with (S (length body + 5)) by lia.
  unfold block_comment in Es. cbn in Es. inversion Es; subst c s.
  change ("-" :: "[" :: "[" :: (body ++ lit "]]") ++ t2)%char
    with (("-" :: "[" :: "[" :: body ++ lit "]]") ++ t2)%char.
  replace (length body + 5)
    with (length ("-" :: "[" :: "[" :: body ++ lit "]]")%char)
    by (simpl; rewrite length_app; simpl; lia).
  apply re_sub_empty_skip.
Qed.

(** A text without [-] holds no comment. *)
Lemma remove_comments_no_dash t :
  forallb (fun c => negb (Ascii.eqb c "-")) t = true ->
  remove_comments t = t.
Proof.
  intro H. unfold remove_comments.
  rewrite <- (app_nil_r t) at 1.
  rewrite re_sub_empty_keeps; [simpl; apply app_nil_r|].
  rewrite app_nil_r. generalize (length t).
  induction t as [|c t IH]; intro n; destruct n as [|n]; try reflexivity.
  - simpl in H. apply andb_prop in H. destruct H as [Hc Ht].
    cbn [occurs_before]. rewrite (IH Ht), orb_false_r.
    cbn. apply negb_true_iff in Hc. rewrite Hc. reflexivity.
Qed.

(** *** Texts without a whole comment *)

Lemma lazy_needs_closer s :
  forall prev n,
    match_here (lazy_star any_char ++ word "]]") prev s = Some n ->
    occurs_before (lit "]]") (length s) s = true.
Proof.
  change (lazy_star any_char ++ word "]]")
    with [LazyStar any_char; Chr "]"; Chr "]"]%char.
  induction s as [|x s IH]; intros prev n H;
    rewrite match_here_lazy, match_two_chars in H;
    change ["]"%char; "]"%char] with (lit "]]") in H.
  - simpl in H. discriminate.
  - cbn [length occurs_before].
    destruct (starts_with (lit "]]") (x :: s)); [reflexivity|].
    cbn [any_char] in H.
    destruct (match_here [LazyStar any_char; Chr "]"; Chr "]"]%char
                (Some x) s) as [m|] eqn:E; [|discriminate].
    rewrite (IH _ _ E). reflexivity.
Qed.

Lemma occurs_before_later pat x s :
  occurs_before pat (length s) s = true ->
  occurs_before pat (length (x :: s)) (x :: s) = true.
Proof. intro H. cbn [length occurs_before]. rewrite H. apply orb_true_r. Qed.

(** The comment pattern matches only where a [ ]] ] comes. *)
Lemma COMMENT_needs_closer prev s n :
  match_here COMMENT prev s = Some n ->
  occurs_before (lit "]]") (length s) s = true.
Proof.
  intro H.
  destruct (starts_with (lit "--[[") s) eqn:Hs;
    [|rewrite (COMMENT_needs_opener prev s Hs) in H; discriminate].
  destruct s as [|a [|b [|c [|d s]]]]; cbn in Hs;
    repeat match type of Hs with
      | context [Ascii.eqb ?x ?y] =>
          destruct (Ascii.eqb_spec x y); [subst x|]; cbn in Hs
      end; try discriminate Hs.
  unfold COMMENT in H.
  change (word "--[[" ++ lazy_star any_char ++ word "]]")
    with (Chr "-" :: Chr "-" :: Chr "[" :: Chr "[" ::
          (lazy_star any_char ++ word "]]"))%char in H.
  cbn [match_here Ascii.eqb Bool.eqb] in H.
  destruct (match_here (lazy_star any_char ++ word "]]") (Some "["%char) s)
    as [m|] eqn:E; [|discriminate].
  apply lazy_needs_closer in E.
  repeat apply occurs_before_later. exact E.
Qed.

Lemma re_sub_empty_no_closer t :
  forall prev,
    occurs_before (lit "]]") (length t) t = false ->
    re_sub_empty COMMENT 0 prev t = t.
Proof.
  induction t as [|c t IH]; intros prev H; [reflexivity|].
  cbn [re_sub_empty].
  destruct (match_here COMMENT prev (c :: t)) as [n|] eqn:E.
  - apply COMMENT_needs_closer in E. congruence.
  - rewrite IH; [reflexivity|].
    cbn [length occurs_before] in H. apply orb_false_iff in H. apply H.
Qed.

(** *** Pieces of text with comments between them *)

Lemma no_opener_before_comment piece rest :
  no_opener piece = true ->
  occurs_before (lit "--[[") (length piece) (piece ++ lit "--[[" ++ rest)
  = false.
Proof.
  unfold no_opener. rewrite negb_true_iff. intro H.
  apply (opener_not_straddling piece [] rest).
  rewrite app_nil_r. exact H.
Qed.

Lemma remove_comments_commented parts :
  forall last,
    Forall (fun pb => no_opener (fst pb) = true
                      /\ closes_at_end (snd pb) = true) parts ->
    re_sub_empty COMMENT 0 None (commented parts last)
    = List.concat (map fst parts) ++ re_sub_empty COMMENT 0 None last.
Proof.
  induction parts as [|[piece body] parts IH]; intros last H;
    [reflexivity|].
  inversion H as [|? ? [Hp Hb] Hall]; subst. simpl in Hp, Hb.
  cbn [commented map List.concat fst].
  rewrite re_sub_empty_keeps
    by (unfold block_comment; rewrite <- !app_assoc;
        apply no_opener_before_comment, Hp).
  rewrite <- app_assoc. f_equal.
  pose proof (COMMENT_matches_block body (commented parts last) None Hb)
    as Hm.
  remember (block_comment body ++ commented parts last) as s eqn:Es.
  destruct s as [|c s]; [discriminate Es|].
  cbn [re_sub_empty]. rewrite Hm.
  replace (length body + 6) with (S (length body + 5)) by lia.
  unfold block_comment in Es. cbn in Es. inversion Es; subst c s.
  replace (length body + 5)
    with (length ("-" :: "[" :: "[" :: body ++ lit "]]")%char)
    by (simpl; rewrite length_app; simpl; lia).
  change (re_sub_empty COMMENT
            (length ("-" :: "[" :: "[" :: body ++ lit "]]")%char)
            (Some "-"%char)
            (("-" :: "[" :: "[" :: body ++ lit "]]")%char
             ++ commented parts last)
          = List.concat (map fst parts)
            ++ re_sub_empty COMMENT 0 None last).
  rewrite re_sub_empty_skip. apply IH, Hall.
Qed.

(** *** A comment put into a text *)

(** A whole block comment at the head of the text is dropped. *)
Lemma re_sub_empty_block body rest prev :
  closes_at_end body = true ->
  re_sub_empty COMMENT 0 prev (block_comment body ++ rest)
  = re_sub_empty COMMENT 0 None rest.
Proof.
  intro Hc.
  pose proof (COMMENT_matches_block body rest prev Hc) as Hm.
  remember (block_comment body ++ rest) as s eqn:Es.
  destruct s as [|c s]; [discriminate Es|].
  cbn [re_sub_empty]. rewrite Hm.
  replace (length body + 6) with (S (length body + 5)) by lia.
  unfold block_comment in Es. cbn in Es. inversion Es; subst c s.
  change ("-" :: "[" :: "[" :: (body ++ lit "]]") ++ rest)%char
    with (("-" :: "[" :: "[" :: body ++ lit "]]") ++ rest)%char.
  replace (length body + 5)
    with (length ("-" :: "[" :: "[" :: body ++ lit "]]")%char)
    by (simpl; rewrite length_app; simpl; lia).
  apply re_sub_empty_skip.
Qed.

Lemma starts_with_eq pat :
  forall s, starts_with pat s = true -> exists r, s = pat ++ r.
Proof.
  induction pat as [|c pat IH]; intros s H; [exists s; reflexivity|].
  destruct s as [|x s]; [discriminate|]. simpl in H.
  apply andb_prop in H. destruct H as [Hx Hs].
  apply Ascii.eqb_eq in Hx. subst x.
  destruct (IH s Hs) as [r ->]. exists r. reflexivity.
Qed.

Lemma starts_with_refl pat r : starts_with pat (pat ++ r) = true.
Proof.
  induction pat as [|c pat IH]; [reflexivity|]. simpl.
  rewrite Ascii.eqb_refl, IH. reflexivity.
Qed.

(** The first [ ]] ] of a text, if there is one. *)
Lemma first_closer r :
  occurs_before (lit "]]") (length r) r = false
  \/ exists b rest, r = b ++ lit "]]" ++ rest /\ closes_at_end b = true.
Proof.
  induction r as [|c r IH].
  - left. reflexivity.
  - destruct (starts_with (lit "]]") (c :: r)) eqn:Hs.
    + right. apply starts_with_eq in Hs. destruct Hs as [rest E].
      exists [], rest. split; [exact E|reflexivity].
    + destruct IH as [Hn|(b & rest & E & Hb)].
      * left. cbn [length occurs_before]. rewrite Hs, Hn. reflexivity.
      * right. exists (c :: b), rest. split; [rewrite E; reflexivity|].
        unfold closes_at_end in *. rewrite negb_true_iff in *.
        cbn [length occurs_before app]. rewrite Hb, orb_false_r.
        change (c :: b ++ lit "]]") with ((c :: b) ++ lit "]]").
        rewrite <- (starts_with_app (lit "]]") ((c :: b) ++ lit "]]") rest)
          by (rewrite length_app; simpl; lia).
        rewrite <- app_assoc. cbn [app]. rewrite <- E. exact Hs.
Qed.

Lemma no_closer_after_opener r :
  occurs_before (lit "]]") (length r) r = false ->
  occurs_before (lit "]]") (length (lit "--[[" ++ r)) (lit "--[[" ++ r)
  = false.
Proof.
  intro H.
  change (lit "--[[" ++ r) with ("-" :: "-" :: "[" :: "[" :: r)%char.
  cbn [length occurs_before]. rewrite H.
  destruct r as [|a r]; reflexivity.
Qed.

(** The three ways a text stands to the comment pattern at its head: it
    does not begin with [--[[]; it does and no [ ]] ] follows; it begins
    with a block comment. *)
Lemma comment_cases s :
  starts_with (lit "--[[") s = false
  \/ (exists r, s = lit "--[[" ++ r
                /\ occurs_before (lit "]]") (length r) r = false)
  \/ (exists b rest, s = block_comment b ++ rest /\ closes_at_end b = true).
Proof.
  destruct (starts_with (lit "--[[") s) eqn:Hs; [|left; reflexivity].
  right. apply starts_with_eq in Hs. destruct Hs as [r ->].
  destruct (first_closer r) as [Hn|(b & rest & -> & Hb)].
  - left. exists r. split; [reflexivity|exact Hn].
  - right. exists b, rest. split; [|exact Hb].
    unfold block_comment. rewrite <- !app_assoc. reflexivity.
Qed.

Lemma COMMENT_unclosed prev r :
  occurs_before (lit "]]") (length r) r = false ->
  match_here COMMENT prev (lit "--[[" ++ r) = None.
Proof.
  intro H. apply no_closer_after_opener in H.
  destruct (match_here COMMENT prev (lit "--[[" ++ r)) as [n|] eqn:E;
    [|reflexivity].
  apply COMMENT_needs_closer in E. congruence.
Qed.

Lemma re_sub_empty_length s :
  forall skip prev, length (re_sub_empty COMMENT skip prev s) <= length s.
Proof.
  induction s as [|c s IH]; intros skip prev; [simpl; lia|].
  cbn [re_sub_empty]. destruct skip as [|k].
  - destruct (match_here COMMENT prev (c :: s)) as [[|m]|];
      simpl; try (specialize (IH 0 (Some c)); lia).
    specialize (IH m (Some c)). lia.
  - specialize (IH k (Some c)). simpl. lia.
Qed.

(** Where the pattern does not match, the character is kept. *)
Lemma re_sub_empty_kept c s prev :
  match_here COMMENT prev (c :: s) = None ->
  re_sub_empty COMMENT 0 prev (c :: s) = c :: re_sub_empty COMMENT 0 None s.
Proof.
  intro H. cbn [re_sub_empty]. rewrite H. f_equal. apply re_sub_empty_prev.
Qed.

(** *** Occurrences in a text put together from parts *)

Lemma occurs_before_app pat a :
  forall n s,
    occurs_before pat (length a + n) (a ++ s)
    = occurs_before pat (length a) (a ++ s) || occurs_before pat n s.
Proof.
  induction a as [|x a IH]; intros n s; [reflexivity|].
  cbn [length app Nat.add occurs_before]. rewrite IH.
  rewrite orb_assoc. reflexivity.
Qed.

Lemma occurs_before_le pat :
  forall n m s,
    occurs_before pat n s = false -> m <= n -> occurs_before pat m s = false.
Proof.
  induction n as [|n IH]; intros m s H Hm.
  - replace m with 0 by lia. reflexivity.
  - destruct m as [|m]; [reflexivity|].
    cbn [occurs_before] in *. apply orb_false_iff in H. destruct H as [Hs Ho].
    rewrite Hs. destruct s as [|x s]; [reflexivity|].
    apply (IH m s Ho). lia.
Qed.

(** Whether a [ ]] ] begins in [a] depends on [a] and on the character
    after it. *)
Lemma closer_in_prefix a :
  forall c z z',
    occurs_before (lit "]]") (length a) (a ++ c :: z)
    = occurs_before (lit "]]") (length a) (a ++ c :: z').
Proof.
  induction a as [|x a IH]; intros c z z'; [reflexivity|].
  cbn [length app occurs_before]. rewrite (IH c z z'). f_equal.
  destruct a as [|y a]; cbn; [|reflexivity].
  destruct (Ascii.eqb x "]"); [|reflexivity]. cbn.
  destruct (Ascii.eqb c "]"); reflexivity.
Qed.

(** No [ ]] ] begins in [a] when what follows is not a [ ] ]. *)
Lemma closer_free_before a :
  forall z c z',
    occurs_before (lit "]]") (length a) (a ++ z) = false ->
    Ascii.eqb c "]" = false ->
    occurs_before (lit "]]") (length a) (a ++ c :: z') = false.
Proof.
  induction a as [|x a IH]; intros z c z' H Hc; [reflexivity|].
  cbn [length app occurs_before] in *.
  apply orb_false_iff in H. destruct H as [Hs Ho].
  rewrite (IH z c z' Ho Hc), orb_false_r.
  destruct a as [|y a]; cbn in *; [|exact Hs].
  rewrite Hc. destruct (Ascii.eqb x "]"); reflexivity.
Qed.

Lemma app_split_le {A : Type} (a b c d : list A) :
  a ++ b = c ++ d -> length a <= length c ->
  exists e, c = a ++ e /\ b = e ++ d.
Proof.
  revert c. induction a as [|x a IH]; intros c H Hl.
  - exists c. split; [reflexivity|exact H].
  - destruct c as [|y c]; [simpl in Hl; lia|].
    simpl in H. inversion H; subst y.
    destruct (IH c H2) as [e [-> ->]]; [simpl in Hl; lia|].
    exists e. split; reflexivity.
Qed.

(** *** The opener *)

(** A [--[[] does not begin in a text of fewer than four characters that
    another [--[[] follows. *)
Lemma opener_needs_four x z :
  x <> [] -> length x < 4 ->
  starts_with (lit "--[[") (x ++ lit "--[[" ++ z) = false.
Proof.
  intros Hx Hl.
  destruct x as [|a [|b [|c [|d x]]]];
    [contradiction Hx; reflexivity| | | |simpl in Hl; lia];
    cbn;
    repeat match goal with
      | |- context [Ascii.eqb ?x ?y] => destruct (Ascii.eqb x y) eqn:?; cbn
      end; try reflexivity; try discriminate.
Qed.

Lemma no_opener_in_short x z :
  length x < 4 ->
  occurs_before (lit "--[[") (length x) (x ++ lit "--[[" ++ z) = false.
Proof.
  revert z. induction x as [|a x IH]; intros z Hl; [reflexivity|].
  cbn [length app occurs_before].
  rewrite IH by (simpl in Hl; lia). rewrite orb_false_r.
  apply (opener_needs_four (a :: x) z); [discriminate|exact Hl].
Qed.

(** *** Bodies *)

Lemma closes_at_end_suffix a v :
  closes_at_end (a ++ v) = true -> closes_at_end v = true.
Proof.
  unfold closes_at_end. rewrite !negb_true_iff.
  rewrite length_app, <- app_assoc, occurs_before_app. intro H.
  apply orb_false_iff in H. apply H.
Qed.

(** The body of a comment that reaches from an earlier [--[[] over some
    text [b1] without [ ]] ] to the end of another comment. *)
Lemma closes_at_end_joined b1 body :
  occurs_before (lit "]]") (length b1) (b1 ++ lit "--[[" ++ body ++ lit "]]")
  = false ->
  closes_at_end body = true ->
  closes_at_end (b1 ++ lit "--[[" ++ body) = true.
Proof.
  unfold closes_at_end. rewrite !negb_true_iff. intros H1 Hb.
  rewrite length_app. rewrite <- !app_assoc.
  rewrite occurs_before_app, H1. cbn [orb].
  change (lit "--[[" ++ body ++ lit "]]")
    with ("-" :: "-" :: "[" :: "[" :: body ++ lit "]]")%char.
  rewrite length_app.
  change (length (lit "--[[") + length body)
    with (S (S (S (S (length body))))).
  cbn [occurs_before]. rewrite Hb. destruct body as [|c body]; reflexivity.
Qed.

(** What is left of a block comment after a part of it that is not the
    whole: a lone [ ] ], or the end of the body and the [ ]] ]. *)
Lemma rest_of_comment b b1 u :
  closes_at_end b = true -> b ++ lit "]]" = b1 ++ u -> u <> [] ->
  occurs_before (lit "]]") (length b1) (b1 ++ lit "-") = false
  /\ (u = lit "]"
      \/ exists v, u = v ++ lit "]]" /\ closes_at_end v = true).
Proof.
  intros Hb E Hu.
  destruct (Nat.le_gt_cases (length b1) (length b)) as [Hl|Hl].
  - symmetry in E. destruct (app_split_le b1 u b (lit "]]") E Hl)
      as [v [-> ->]].
    split.
    + unfold closes_at_end in Hb. rewrite negb_true_iff in Hb.
      rewrite length_app, <- app_assoc, occurs_before_app in Hb.
      apply orb_false_iff in Hb. destruct Hb as [Hb _].
      apply (closer_free_before b1 _ "-"%char [] Hb). reflexivity.
    + right. exists v. split; [reflexivity|].
      apply (closes_at_end_suffix b1 v Hb).
  - destruct (app_split_le b (lit "]]") b1 u E) as [e [-> E2]]; [lia|].
    rewrite length_app in Hl.
    destruct e as [|x [|y e]]; [simpl in Hl; lia| |].
    + cbn in E2. inversion E2; subst. split; [|left; reflexivity].
      rewrite length_app, <- app_assoc, occurs_before_app.
      unfold closes_at_end in Hb. rewrite negb_true_iff in Hb.
      change (["]"%char] ++ lit "-") with ("]"%char :: lit "-").
      rewrite (closer_in_prefix b "]"%char _ (lit "]")).
      change (b ++ "]"%char :: lit "]") with (b ++ lit "]]").
      rewrite Hb. reflexivity.
    + cbn in E2. inversion E2; subst.
      destruct e; [|discriminate]. destruct u; [|discriminate].
      contradiction Hu; reflexivity.
Qed.

(** *** The pass over the rest of a comment *)

(** The end of a body with its [ ]] ]: what the pass keeps of it comes
    before what it keeps of the text after it, and it keeps nothing just
    when a [--[[] stands at the head. *)
Lemma re_sub_empty_body_end v :
  forall rest,
    closes_at_end v = true ->
    exists kept,
      re_sub_empty COMMENT 0 None (v ++ lit "]]" ++ rest)
      = kept ++ re_sub_empty COMMENT 0 None rest
      /\ (kept = []
          <-> starts_with (lit "--[[") (v ++ lit "]]" ++ rest) = true).
Proof.
  induction v as [|c v IH]; intros rest Hv.
  - exists (lit "]]"). split; [|split; discriminate].
    change ([] ++ lit "]]" ++ rest) with ("]" :: "]" :: rest)%char.
    rewrite re_sub_empty_kept by (apply COMMENT_needs_opener; reflexivity).
    rewrite re_sub_empty_kept by (apply COMMENT_needs_opener; reflexivity).
    reflexivity.
  - destruct (starts_with (lit "--[[") ((c :: v) ++ lit "]]" ++ rest)) eqn:Hs.
    + exists []. split; [|split; reflexivity].
      assert (E : exists w, c :: v = lit "--[[" ++ w).
      { destruct v as [|d [|e [|f v]]]; cbn in Hs;
          repeat match type of Hs with
            | context [Ascii.eqb ?x ?y] =>
                destruct (Ascii.eqb_spec x y); [subst x|]; cbn in Hs
            end; try discriminate Hs.
        exists v. reflexivity. }
      destruct E as [w E]. rewrite E in *.
      apply (closes_at_end_suffix (lit "--[[") w) in Hv.
      change ((lit "--[[" ++ w) ++ lit "]]" ++ rest)
        with (lit "--[[" ++ w ++ lit "]]" ++ rest).
      replace (lit "--[[" ++ w ++ lit "]]" ++ rest)
        with (block_comment w ++ rest)
        by (unfold block_comment; rewrite <- !app_assoc; reflexivity).
      apply re_sub_empty_block, Hv.
    + destruct (IH rest (closes_at_end_suffix [c] v Hv)) as (kept & E & _).
      exists (c :: kept). split; [|split; discriminate].
      cbn [app].
      rewrite re_sub_empty_kept by (apply COMMENT_needs_opener; exact Hs).
      rewrite E. reflexivity.
Qed.

Lemma re_sub_empty_comment_rest u rest :
  u = lit "]"
  \/ (exists v, u = v ++ lit "]]" /\ closes_at_end v = true) ->
  exists kept,
    re_sub_empty COMMENT 0 None (u ++ rest)
    = kept ++ re_sub_empty COMMENT 0 None rest
    /\ (kept = [] <-> starts_with (lit "--[[") (u ++ rest) = true).
Proof.
  intros [->|(v & -> & Hv)].
  - exists (lit "]"). split; [|split; discriminate].
    change (lit "]" ++ rest) with ("]"%char :: rest).
    rewrite re_sub_empty_kept by (apply COMMENT_needs_opener; reflexivity).
    reflexivity.
  - rewrite <- app_assoc. apply re_sub_empty_body_end, Hv.
Qed.

(** *** Following the pass to the place of the comment *)

Lemma comment_place_skip u :
  forall j z,
    comment_place (length u) (length u + j) (u ++ z) = comment_place 0 j z.
Proof.
  induction u as [|a u IH]; intros j z; [reflexivity|].
  cbn [length app Nat.add comment_place]. apply IH.
Qed.

Lemma comment_place_inside u :
  forall k z,
    length u < k ->
    comment_place k (length u) (u ++ z) = starts_with (lit "--[[") z.
Proof.
  induction u as [|a u IH]; intros k z Hk.
  - destruct k as [|k]; [lia|]. reflexivity.
  - destruct k as [|k]; [simpl in Hk; lia|].
    cbn [length app comment_place]. apply IH. simpl in Hk. lia.
Qed.

(** *** A comment put into a text: the cases *)

Lemma opener_not_made x y z :
  x <> [] ->
  starts_with (lit "--[[") (x ++ y) = false \/ length x < 4 ->
  starts_with (lit "--[[") (x ++ lit "--[[" ++ z) = false.
Proof.
  intros Hx H.
  destruct (Nat.lt_ge_cases (length x) 4) as [Hl|Hl];
    [apply opener_needs_four; assumption|].
  destruct H as [H|H]; [|lia].
  rewrite starts_with_app in H by exact Hl.
  rewrite starts_with_app by exact Hl. exact H.
Qed.

(** Before the place of the comment the pass keeps a character of the
    text: it keeps it with the comment put in as well. *)
Lemma place_kept body c x y :
  match_here COMMENT None (c :: x ++ y) = None ->
  starts_with (lit "--[[") ((c :: x) ++ block_comment body ++ y) = false ->
  re_sub_empty COMMENT 0 None ((c :: x) ++ block_comment body ++ y)
  = re_sub_empty COMMENT 0 None ((c :: x) ++ y)
  <-> re_sub_empty COMMENT 0 None (x ++ block_comment body ++ y)
      = re_sub_empty COMMENT 0 None (x ++ y).
Proof.
  intros Hm Hs. cbn [app] in *.
  rewrite (re_sub_empty_kept c (x ++ y) None Hm).
  rewrite re_sub_empty_kept by (apply COMMENT_needs_opener; exact Hs).
  split; intro H; [inversion H; reflexivity|rewrite H; reflexivity].
Qed.

(** After a [--[[] that the text does not close, the comment closes it:
    the pass takes away more than the comment. *)
Lemma place_after_unclosed body r x y :
  closes_at_end body = true ->
  occurs_before (lit "]]") (length r) r = false ->
  lit "--[[" ++ r = x ++ y -> 4 <= length x ->
  re_sub_empty COMMENT 0 None (x ++ block_comment body ++ y)
  <> re_sub_empty COMMENT 0 None (x ++ y).
Proof.
  intros Hb Hr E Hl.
  destruct (app_split_le (lit "--[[") r x y E Hl) as [b1 [-> ->]].
  rewrite <- E.
  rewrite (re_sub_empty_no_closer _ None (no_closer_after_opener _ Hr)).
  assert (Hj : closes_at_end (b1 ++ lit "--[[" ++ body) = true).
  { apply closes_at_end_joined; [|exact Hb].
    apply (closer_free_before b1 y "-"%char); [|reflexivity].
    apply (occurs_before_le _ (length (b1 ++ y))); [exact Hr|].
    rewrite length_app. lia. }
  replace ((lit "--[[" ++ b1) ++ block_comment body ++ y)
    with (block_comment (b1 ++ lit "--[[" ++ body) ++ y)
    by (unfold block_comment; rewrite <- !app_assoc; reflexivity).
  rewrite (re_sub_empty_block _ y None Hj). intro H.
  pose proof (re_sub_empty_length y 0 None) as Hy.
  rewrite H in Hy. rewrite !length_app in Hy. simpl in Hy. lia.
Qed.

(** Inside a comment, at or after its body: the comment put there ends
    the one around it, and the pass goes on with the rest of that one. *)
Lemma place_in_comment body b x u rest :
  closes_at_end body = true -> closes_at_end b = true ->
  block_comment b = x ++ u -> u <> [] -> 4 <= length x ->
  re_sub_empty COMMENT 0 None (x ++ block_comment body ++ u ++ rest)
  = re_sub_empty COMMENT 0 None rest
  <-> starts_with (lit "--[[") (u ++ rest) = true.
Proof.
  intros Hbody Hb E Hu Hl. unfold block_comment in E at 1.
  destruct (app_split_le (lit "--[[") (b ++ lit "]]") x u E Hl)
    as [b1 [-> E2]].
  destruct (rest_of_comment b b1 u Hb E2 Hu) as [Hfree Hshape].
  assert (Hj : closes_at_end (b1 ++ lit "--[[" ++ body) = true).
  { apply closes_at_end_joined; [|exact Hbody].
    transitivity (occurs_before (lit "]]") (length b1) (b1 ++ lit "-"));
      [apply (closer_in_prefix b1 "-"%char)|exact Hfree]. }
  replace ((lit "--[[" ++ b1) ++ block_comment body ++ u ++ rest)
    with (block_comment (b1 ++ lit "--[[" ++ body) ++ u ++ rest)
    by (unfold block_comment; rewrite <- !app_assoc; reflexivity).
  rewrite (re_sub_empty_block _ (u ++ rest) None Hj).
  destruct (re_sub_empty_comment_rest u rest Hshape) as (kept & -> & Hk).
  rewrite <- Hk. split; intro H; [|rewrite H; reflexivity].
  destruct kept as [|k kept]; [reflexivity|].
  apply (f_equal (@length ascii)) in H. rewrite length_app in H.
  simpl in H. lia.
Qed.

Lemma closes_at_end_cons c b :
  Ascii.eqb c "]" = false -> closes_at_end b = true ->
  closes_at_end (c :: b) = true.
Proof.
  unfold closes_at_end. rewrite !negb_true_iff. intros Hc Hb.
  cbn [length app occurs_before]. rewrite Hb, orb_false_r.
  cbn. rewrite Hc. reflexivity.
Qed.

(** Inside the [--[[] of a comment: the comment put there breaks it. *)
Lemma place_in_opener body b x u rest :
  closes_at_end body = true -> closes_at_end b = true ->
  block_comment b = x ++ u -> x <> [] -> length x < 4 ->
  re_sub_empty COMMENT 0 None (x ++ block_comment body ++ u ++ rest)
  <> re_sub_empty COMMENT 0 None rest
  /\ starts_with (lit "--[[") (u ++ rest) = false.
Proof.
  intros Hbody Hb E Hx Hl.
  assert (Hu : (exists v, u = v ++ lit "]]" /\ closes_at_end v = true)
               /\ starts_with (lit "--[[") (u ++ rest) = false).
  { unfold block_comment in E.
    destruct x as [|x1 [|x2 [|x3 [|x4 x]]]];
      [contradiction Hx; reflexivity| | | |simpl in Hl; lia];
      cbn in E; inversion E; subst; (split; [|reflexivity]).
    - exists ("-" :: "[" :: "[" :: b)%char. split; [reflexivity|].
      repeat (apply closes_at_end_cons; [reflexivity|]). exact Hb.
    - exists ("[" :: "[" :: b)%char. split; [reflexivity|].
      repeat (apply closes_at_end_cons; [reflexivity|]). exact Hb.
    - exists ("[" :: b)%char. split; [reflexivity|].
      repeat (apply closes_at_end_cons; [reflexivity|]). exact Hb. }
  destruct Hu as [Hshape Hs]. split; [|exact Hs].
  unfold block_comment at 1. rewrite <- !app_assoc.
  rewrite re_sub_empty_keeps by (apply no_opener_in_short; exact Hl).
  destruct (re_sub_empty_comment_rest u rest (or_intror Hshape))
    as (kept & Ek & _).
  replace (lit "--[[" ++ body ++ lit "]]" ++ u ++ rest)
    with (block_comment body ++ u ++ rest)
    by (unfold block_comment; rewrite <- !app_assoc; reflexivity).
  rewrite (re_sub_empty_block body (u ++ rest) None Hbody), Ek.
  intro H. apply (f_equal (@length ascii)) in H.
  rewrite !length_app in H. destruct x; [contradiction Hx; reflexivity|].
  simpl in H. lia.
Qed.

(** *** The places of a comment *)

(** A block comment put between [x] and [y] leaves the result of the
    pass as it is for [x ++ y] exactly when [x ++ y] has a place for a
    comment after [x]. *)
Lemma comment_place_iff body :
  closes_at_end body = true ->
  forall n x y,
    length x <= n ->
    re_sub_empty COMMENT 0 None (x ++ block_comment body ++ y)
    = re_sub_empty COMMENT 0 None (x ++ y)
    <-> comment_place 0 (length x) (x ++ y) = true.
Proof.
  intro Hbody.
  assert (H0 : forall y,
             re_sub_empty COMMENT 0 None ([] ++ block_comment body ++ y)
             = re_sub_empty COMMENT 0 None ([] ++ y)
             <-> comment_place 0 (length (@nil ascii)) ([] ++ y) = true).
  { intro y. split; [reflexivity|]. intros _.
    apply re_sub_empty_block, Hbody. }
  induction n as [|n IH]; intros x y Hl.
  - destruct x as [|c x]; [apply H0|simpl in Hl; lia].
  - destruct x as [|c x]; [apply H0|].
    assert (Hx : length x <= n) by (simpl in Hl; lia).
    destruct (comment_cases ((c :: x) ++ y))
      as [Hs|[(r & E & Hr)|(b & rest & E & Hb)]].
    + (* no opener at the head *)
      pose proof (COMMENT_needs_opener None _ Hs) as Hm.
      rewrite (place_kept body c x y Hm)
        by (unfold block_comment; rewrite <- !app_assoc;
            apply (opener_not_made (c :: x) y); [discriminate|left; exact Hs]).
      rewrite (IH x y Hx).
      cbn [length comment_place app] in *. rewrite Hm, Hs. reflexivity.
    + (* an opener that the text does not close *)
      assert (Hm : match_here COMMENT None ((c :: x) ++ y) = None)
        by (rewrite E; apply COMMENT_unclosed, Hr).
      assert (Hs : starts_with (lit "--[[") ((c :: x) ++ y) = true)
        by (rewrite E; apply starts_with_refl).
      destruct (Nat.lt_ge_cases (length (c :: x)) 4) as [H4|H4].
      * rewrite (place_kept body c x y Hm)
          by (unfold block_comment; rewrite <- !app_assoc;
              apply (opener_not_made (c :: x) y);
              [discriminate|right; exact H4]).
        rewrite (IH x y Hx).
        cbn [length comment_place app] in *. rewrite Hm, Hs.
        replace (4 <=? S (length x)) with false
          by (symmetry; apply Nat.leb_gt; exact H4).
        reflexivity.
      * split.
        -- intro H. exfalso.
           apply (place_after_unclosed body r (c :: x) y Hbody Hr); auto.
        -- cbn [length comment_place app] in *. rewrite Hm, Hs.
           replace (4 <=? S (length x)) with true
             by (symmetry; apply Nat.leb_le; exact H4).
           discriminate.
    + (* a block comment at the head *)
      assert (Hm : match_here COMMENT None ((c :: x) ++ y)
                   = Some (S (length b + 5))).
      { rewrite E, (COMMENT_matches_block b rest None Hb). f_equal. lia. }
      assert (Hlen : length (block_comment b) = S (length b + 5)).
      { unfold block_comment. rewrite !length_app. simpl. lia. }
      assert (Hp : comment_place 0 (length (c :: x)) ((c :: x) ++ y)
                   = comment_place (length b + 5) (length x) (x ++ y)).
      { cbn [length comment_place app] in *. rewrite Hm. reflexivity. }
      rewrite Hp.
      destruct (Nat.le_gt_cases (length (block_comment b)) (length (c :: x)))
        as [Hin|Hin].
      * (* the comment ends before the place *)
        destruct (app_split_le (block_comment b) rest (c :: x) y)
          as [e [Ex Er]]; [symmetry; exact E|exact Hin|].
        rewrite Ex, <- !app_assoc.
        rewrite !(re_sub_empty_block b _ None Hb).
        assert (He : length e <= n).
        { apply (f_equal (@length ascii)) in Ex.
          rewrite length_app in Ex. simpl in Ex, Hl. lia. }
        rewrite (IH e y He).
        assert (Ex' : exists u0, x = u0 ++ e /\ length u0 = length b + 5).
        { exists ("-" :: "[" :: "[" :: b ++ lit "]]")%char.
          unfold block_comment in Ex. cbn in Ex. inversion Ex. split.
          - cbn. rewrite <- app_assoc. reflexivity.
          - simpl. rewrite length_app. simpl. lia. }
        destruct Ex' as (u0 & -> & <-).
        rewrite length_app, <- app_assoc, comment_place_skip. reflexivity.
      * (* the place is inside the comment *)
        destruct (app_split_le (c :: x) y (block_comment b) rest E)
          as [u [Eb Ey]]; [lia|].
        assert (Hu : u <> []).
        { intros ->. rewrite app_nil_r in Eb. rewrite Eb in Hin. lia. }
        rewrite (comment_place_inside x (length b + 5) y)
          by (rewrite Hlen in Hin; cbn [length] in Hin; lia).
        rewrite Ey. rewrite (app_assoc (c :: x) u rest), <- Eb.
        rewrite (re_sub_empty_block b rest None Hb).
        destruct (Nat.lt_ge_cases (length (c :: x)) 4) as [H4|H4].
        -- destruct (place_in_opener body b (c :: x) u rest Hbody Hb Eb)
             as [Hne Hs]; [discriminate|exact H4|].
           rewrite Hs. split; [intro H; contradiction|discriminate].
        -- apply (place_in_comment body b (c :: x) u rest Hbody Hb Eb Hu H4).
Qed.

Lemma commented_app parts :
  forall rest, commented parts rest = commented parts [] ++ rest.
Proof.
  induction parts as [|[piece body] parts IH]; intro rest; [reflexivity|].
  cbn [commented]. rewrite (IH rest), <- !app_assoc. reflexivity.
Qed.

(** After comments that are closed, before any new [--[[], the text has
    a place for a comment. *)
Lemma comment_place_after_comments parts rest j :
  Forall (fun pb => no_opener (fst pb) = true
                    /\ closes_at_end (snd pb) = true) parts ->
  j <= length rest ->
  occurs_before (lit "--[[") j rest = false ->
  comment_place 0 (length (commented parts []) + j) (commented parts rest)
  = true.
Proof.
  intros Hparts Hj Ho.
  rewrite (commented_app parts rest).
  rewrite <- (firstn_skipn j rest) at 1.
  rewrite app_assoc.
  replace (length (commented parts []) + j)
    with (length (commented parts [] ++ firstn j rest))
    by (rewrite length_app, length_firstn; lia).
  apply (comment_place_iff [] eq_refl _ _ _ (Nat.le_refl _)).
  rewrite <- !app_assoc, <- !commented_app.
  rewrite !(remove_comments_commented parts _ Hparts). f_equal.
  change (re_sub_empty COMMENT 0 None
            (firstn j rest ++ block_comment [] ++ skipn j rest))
    with (remove_comments (firstn j rest ++ block_comment [] ++ skipn j rest)).
  rewrite remove_comments_inserted; [reflexivity| |reflexivity].
  rewrite length_firstn, Nat.min_l by exact Hj.
  rewrite firstn_skipn. exact Ho.
Qed.

(** C2 as it is worded fails: the text ['--[['] is one string literal
    whose content is an opener; with the comment [--[[x]]] put after it,
    the pre-pass takes away everything from the opener inside the literal
    to the end, and what is left, a lone quote, does not lex. *)
Lemma C2_comment_after_opener_in_string :
  main_tree (lit "'--[['") = Ok (Some (VStr (lit "--[[")))
  /\ main_tree (insert_at 6 (block_comment (lit "x")) (lit "'--[['"))
     = Raise (SyntaxError (lit "Unexpected character at position 0"))
  /\ main_tree (insert_at 6 (block_comment (lit "x")) (lit "'--[['"))
     <> main_tree (lit "'--[['").
Proof. vm_compute. repeat split; try reflexivity. discriminate. Qed.

(** C2, amended.  Let the body of the comment hold no [ ]] ] before the
    one that closes it.  The pre-pass gives the same text with the
    comment put at position [i] of [t] as for [t] itself exactly when [i]
    is a place for a comment in [t]: the pass over [t] comes to [i]
    between two comments, having met no [--[[] that [t] leaves open, or it
    comes to [i] inside a comment at the start of a [--[[].  At such a
    place the text with the comment is tokenized and parsed to the same
    result as [t].  Every position behind the comments that end before
    it, with no [--[[] begun since the last of them, is such a place; the
    position behind a [--[[] inside a string literal is none. *)
Theorem C2_comment_at_a_place_for_it :
  (forall t i body,
      i <= length t -> closes_at_end body = true ->
      (remove_comments (insert_at i (block_comment body) t)
       = remove_comments t
       <-> comment_place 0 i t = true)
      /\ (comment_place 0 i t = true ->
          main_tree (insert_at i (block_comment body) t) = main_tree t))
  /\ (forall parts rest j,
         Forall (fun pb => no_opener (fst pb) = true
                           /\ closes_at_end (snd pb) = true) parts ->
         j <= length rest ->
         occurs_before (lit "--[[") j rest = false ->
         comment_place 0 (length (commented parts []) + j)
           (commented parts rest) = true)
  /\ comment_place 0 10 (lit "--[[a]] .5") = true
  /\ comment_place 0 6 (lit "'--[['") = false.
Proof.
  split; [|split; [|split; reflexivity]].
  - intros t i body Hi Hc.
    assert (E : remove_comments (insert_at i (block_comment body) t)
                = remove_comments t
                <-> comment_place 0 i t = true).
    { unfold remove_comments, insert_at.
      rewrite <- (firstn_skipn i t) at 3 4.
      replace i with (length (firstn i t)) at 5
        by (rewrite length_firstn; lia).
      apply (comment_place_iff body Hc _ _ _ (Nat.le_refl _)). }
    split; [exact E|]. intro Hp. unfold main_tree.
    rewrite (proj2 E Hp). reflexivity.
  - apply comment_place_after_comments.
Qed.

Lemma C2_witness :
  main_tree (insert_at 25 (block_comment (lit " the
 list [0] of x ")) (lit "set x = .5 --[[ half ]]  (list |x|)"))
  = main_tree (lit "set x = .5 --[[ half ]]  (list |x|)").
Proof.
  refine (proj2 (proj1 C2_comment_at_a_place_for_it
                   (lit "set x = .5 --[[ half ]]  (list |x|)") 25
                   (lit " the
 list [0] of x ") _ eq_refl) eq_refl).
  vm_compute. lia.
Defined.


(** ** The parser *)

Lemma parse_value_S fuel p :
  parse_value (S fuel) p =
  match peek p with
  | None => Raise none_has_no_type
  | Some tok =>
      match type tok with
      | NUMBER =>
          '(t, p1) <- consume None p ;;
          x <- float (value t) ;;
          Ok (VFloat x, p1)
      | STRING =>
          '(t, p1) <- consume None p ;;
          Ok (VStr (strip "'" (value t)), p1)
      | CONST =>
          '(t, p1) <- consume None p ;;
          let name := strip "|" (value t) in
          match dict_get (constants p1) name with
          | None => Raise (SyntaxError (lit "Unknown constant " ++ name))
          | Some v => Ok (v, p1)
          end
      | LIST => parse_list fuel p
      | STRUCT => parse_struct fuel p
      | other =>
          Raise (SyntaxError (lit "Unexpected token " ++ type_name other))
      end
  end.
Proof. reflexivity. Qed.

Lemma parse_list_S fuel p :
  parse_list (S fuel) p =
  ('(_, p1) <- consume (Some LIST) p ;;
   '(items, p2) <- parse_list_loop fuel p1 [] ;;
   '(_, p3) <- consume (Some RPAREN) p2 ;;
   Ok (VList items, p3)).
Proof. reflexivity. Qed.

Lemma parse_list_loop_S fuel p items :
  parse_list_loop (S fuel) p items =
  if more_before RPAREN p then
    '(v, p1) <- parse_value fuel p ;;
    parse_list_loop fuel p1 (items ++ [v])
  else Ok (items, p).
Proof. reflexivity. Qed.

Lemma parse_struct_S fuel p :
  parse_struct (S fuel) p =
  ('(_, p1) <- consume (Some STRUCT) p ;;
   '(_, p2) <- consume (Some LBRACE) p1 ;;
   '(obj, p3) <- parse_struct_loop fuel p2 [] ;;
   '(_, p4) <- consume (Some RBRACE) p3 ;;
   Ok (VDict obj, p4)).
Proof. reflexivity. Qed.

Lemma parse_struct_loop_S fuel p obj :
  parse_struct_loop (S fuel) p obj =
  if more_before RBRACE p then
    '(k, p1) <- consume (Some IDENT) p ;;
    '(_, p2) <- consume (Some EQUAL) p1 ;;
    '(v, p3) <- parse_value fuel p2 ;;
    let obj' := dict_set obj (value k) v in
    if at_comma p3 then
      '(_, p4) <- consume (Some COMMA) p3 ;;
      parse_struct_loop fuel p4 obj'
    else parse_struct_loop fuel p3 obj'
  else Ok (obj, p).
Proof. reflexivity. Qed.

Lemma parse_loop_S fuel p result :
  parse_loop (S fuel) p result =
  match peek p with
  | None => Ok (result, p)
  | Some tok =>
      if TokenType_eqb (type tok) SET then
        p1 <- parse_set fuel p ;;
        parse_loop fuel p1 result
      else
        '(v, p1) <- parse_value fuel p ;;
        parse_loop fuel p1 (Some v)
  end.
Proof. reflexivity. Qed.

Lemma TokenType_eqb_eq a b : TokenType_eqb a b = true <-> a = b.
Proof. destruct a, b; simpl; split; intro H; congruence. Qed.

Lemma peek_nth p : peek p = nth_error (tokens p) (pos p).
Proof.
  unfold peek. destruct (pos p <? length (tokens p)) eqn:E; [reflexivity|].
  apply Nat.ltb_ge in E. symmetry. apply nth_error_None. exact E.
Qed.

Lemma peek_some p tok : peek p = Some tok -> pos p < length (tokens p).
Proof.
  rewrite peek_nth. intro H. apply nth_error_Some. congruence.
Qed.

(** What a successful [consume] has done. *)
Lemma consume_ok expected p tok p' :
  consume expected p = Ok (tok, p') ->
  peek p = Some tok /\ p' = advance p
  /\ (forall ex, expected = Some ex -> type tok = ex).
Proof.
  unfold consume. destruct (peek p) as [t|]; [|discriminate].
  destruct expected as [ex|].
  - destruct (TokenType_eqb (type t) ex) eqn:E; simpl; [|discriminate].
    intro H. inversion H; subst. apply TokenType_eqb_eq in E.
    repeat split. intros ex' Hex. congruence.
  - intro H. inversion H; subst. repeat split. discriminate.
Qed.

Lemma consume_never_out_of_fuel expected p : consume expected p <> OutOfFuel.
Proof.
  unfold consume. destruct (peek p) as [t|]; [|discriminate].
  destruct expected as [ex|]; [|discriminate].
  destruct (negb (TokenType_eqb (type t) ex)); discriminate.
Qed.

Lemma float_never_out_of_fuel s : float s <> OutOfFuel.
Proof.
  unfold float. destruct (span is_digit s) as [a [|c frac]]; [discriminate|].
  destruct (Ascii.eqb_spec c "."); [subst c|].
  - destruct frac as [|d frac]; [discriminate|].
    destruct (forallb is_digit (d :: frac)); discriminate.
  - destruct c as [[] [] [] [] [] [] [] []]; try discriminate.
    contradiction n; reflexivity.
Qed.

Lemma consume_moved_on expected p tok p' :
  consume expected p = Ok (tok, p') -> moved_on p p'.
Proof.
  intro H. apply consume_ok in H. destruct H as (_ & -> & _).
  unfold moved_on, same_input, advance. simpl. auto.
Qed.

Lemma moved_on_trans p1 p2 p3 :
  moved_on p1 p2 -> not_back p2 p3 -> moved_on p1 p3.
Proof.
  unfold moved_on, not_back, same_input. intuition (try congruence; try lia).
Qed.

Lemma not_back_trans p1 p2 p3 :
  not_back p1 p2 -> not_back p2 p3 -> not_back p1 p3.
Proof.
  unfold not_back, same_input. intuition (try congruence; try lia).
Qed.

Lemma moved_on_not_back p p' : moved_on p p' -> not_back p p'.
Proof. unfold moved_on, not_back. intuition lia. Qed.

Lemma not_back_refl p : not_back p p.
Proof. unfold not_back, same_input. auto. Qed.

(** Every successful call of the three parsing functions takes at least
    one token, never touches the token sequence or the constant table,
    and the loops never go back. *)
Lemma parser_progress fuel :
  value_moves parse_value fuel /\ value_moves parse_list fuel
  /\ value_moves parse_struct fuel
  /\ loop_stays parse_list_loop fuel /\ loop_stays parse_struct_loop fuel.
Proof.
  unfold value_moves, loop_stays.
  induction fuel as [|fuel (IHv & IHl & IHs & IHll & IHsl)].
  - split; [|split; [|split; [|split]]]; intros; discriminate.
  - split; [|split; [|split; [|split]]].
    + intros p v p' H. rewrite parse_value_S in H.
      destruct (peek p) as [tok|]; [|discriminate].
      destruct (type tok); try discriminate.
      * destruct (consume None p) as [[t p1]| |] eqn:C; try discriminate.
        simpl in H. destruct (float (value t)); try discriminate.
        inversion H; subst. eapply consume_moved_on; eauto.
      * destruct (consume None p) as [[t p1]| |] eqn:C; try discriminate.
        inversion H; subst. eapply consume_moved_on; eauto.
      * eauto.
      * eauto.
      * destruct (consume None p) as [[t p1]| |] eqn:C; try discriminate.
        simpl in H.
        destruct (dict_get (constants p1) (strip "|" (value t)));
          try discriminate.
        inversion H; subst. eapply consume_moved_on; eauto.
    + intros p v p' H. rewrite parse_list_S in H.
      destruct (consume (Some LIST) p) as [[t p1]| |] eqn:C1;
        try discriminate. simpl in H.
      destruct (parse_list_loop fuel p1 []) as [[items p2]| |] eqn:L;
        try discriminate. simpl in H.
      destruct (consume (Some RPAREN) p2) as [[t' p3]| |] eqn:C2;
        try discriminate. inversion H; subst.
      apply consume_moved_on in C1, C2. apply IHll in L.
      eapply moved_on_trans; [exact C1|].
      eapply not_back_trans; [exact L|]. apply moved_on_not_back, C2.
    + intros p v p' H. rewrite parse_struct_S in H.
      destruct (consume (Some STRUCT) p) as [[t p1]| |] eqn:C1;
        try discriminate. simpl in H.
      destruct (consume (Some LBRACE) p1) as [[t1 p2]| |] eqn:C2;
        try discriminate. simpl in H.
      destruct (parse_struct_loop fuel p2 []) as [[obj p3]| |] eqn:L;
        try discriminate. simpl in H.
      destruct (consume (Some RBRACE) p3) as [[t' p4]| |] eqn:C3;
        try discriminate. inversion H; subst.
      apply consume_moved_on in C1, C2, C3. apply IHsl in L.
      eapply moved_on_trans; [exact C1|].
      eapply not_back_trans; [apply moved_on_not_back, C2|].
      eapply not_back_trans; [exact L|]. apply moved_on_not_back, C3.
    + intros p acc acc' p' H. rewrite parse_list_loop_S in H.
      destruct (more_before RPAREN p).
      * destruct (parse_value fuel p) as [[v p1]| |] eqn:V;
          try discriminate. simpl in H.
        apply IHv in V. apply IHll in H.
        eapply not_back_trans; [apply moved_on_not_back, V|exact H].
      * inversion H; subst. apply not_back_refl.
    + intros p acc acc' p' H. rewrite parse_struct_loop_S in H.
      destruct (more_before RBRACE p).
      * destruct (consume (Some IDENT) p) as [[k p1]| |] eqn:C1;
          try discriminate. simpl in H.
        destruct (consume (Some EQUAL) p1) as [[t1 p2]| |] eqn:C2;
          try discriminate. simpl in H.
        destruct (parse_value fuel p2) as [[v p3]| |] eqn:V;
          try discriminate. simpl in H.
        apply consume_moved_on in C1, C2. apply IHv in V.
        assert (Hp3 : not_back p p3).
        { apply moved_on_not_back.
          eapply moved_on_trans; [exact C1|].
          eapply not_back_trans; apply moved_on_not_back; eauto. }
        destruct (at_comma p3).
        -- destruct (consume (Some COMMA) p3) as [[t2 p4]| |] eqn:C3;
             try discriminate. simpl in H.
           apply consume_moved_on in C3. apply IHsl in H.
           eapply not_back_trans; [exact Hp3|].
           eapply not_back_trans; [apply moved_on_not_back, C3|exact H].
        -- apply IHsl in H. eapply not_back_trans; eauto.
      * inversion H; subst. apply not_back_refl.
Qed.

Lemma parse_value_moved_on fuel p v p' :
  parse_value fuel p = Ok (v, p') -> moved_on p p'.
Proof. apply (proj1 (parser_progress fuel)). Qed.

(** [m] is a recursive call in a run that did not run out of fuel: the
    same call made with the fuel [more] is rewritten to it, and the case
    in which [m] itself ran out is closed. *)
Ltac same_call IH more m :=
  let E := fresh "E" in
  let N := fresh "N" in
  assert (N : m <> OutOfFuel)
    by (intro E; rewrite E in *; simpl in *; congruence);
  rewrite (IH more _ ltac:(lia) N) || rewrite (IH more _ _ ltac:(lia) N);
  clear N.

(** A call that has returned or raised does the same with more fuel. *)
Lemma parser_fuel_stable fuel :
  value_stable parse_value fuel /\ value_stable parse_list fuel
  /\ value_stable parse_struct fuel
  /\ loop_stable parse_list_loop fuel /\ loop_stable parse_struct_loop fuel.
Proof.
  unfold value_stable, loop_stable.
  induction fuel as [|fuel (IHv & IHl & IHs & IHll & IHsl)].
  - split; [|split; [|split; [|split]]]; intros; simpl in *; congruence.
  - split; [|split; [|split; [|split]]].
    + intros [|fuel'] p Hle H; [lia|].
      rewrite parse_value_S in H; rewrite !parse_value_S.
      destruct (peek p) as [tok|]; [|reflexivity].
      destruct (type tok); try reflexivity.
      * same_call IHs fuel' (parse_struct fuel p). reflexivity.
      * same_call IHl fuel' (parse_list fuel p). reflexivity.
    + intros [|fuel'] p Hle H; [lia|].
      rewrite parse_list_S in H; rewrite !parse_list_S.
      destruct (consume (Some LIST) p) as [[t p1]| |]; try reflexivity.
      simpl in *.
      same_call IHll fuel' (parse_list_loop fuel p1 []). reflexivity.
    + intros [|fuel'] p Hle H; [lia|].
      rewrite parse_struct_S in H; rewrite !parse_struct_S.
      destruct (consume (Some STRUCT) p) as [[t p1]| |]; try reflexivity.
      simpl in *.
      destruct (consume (Some LBRACE) p1) as [[t1 p2]| |]; try reflexivity.
      simpl in *.
      same_call IHsl fuel' (parse_struct_loop fuel p2 []). reflexivity.
    + intros [|fuel'] p acc Hle H; [lia|].
      rewrite parse_list_loop_S in H; rewrite !parse_list_loop_S.
      destruct (more_before RPAREN p); [|reflexivity].
      same_call IHv fuel' (parse_value fuel p).
      destruct (parse_value fuel p) as [[v p1]| |]; try reflexivity.
      simpl in *.
      same_call IHll fuel' (parse_list_loop fuel p1 (acc ++ [v])). reflexivity.
    + intros [|fuel'] p acc Hle H; [lia|].
      rewrite parse_struct_loop_S in H; rewrite !parse_struct_loop_S.
      destruct (more_before RBRACE p); [|reflexivity].
      destruct (consume (Some IDENT) p) as [[k p1]| |]; try reflexivity.
      simpl in *.
      destruct (consume (Some EQUAL) p1) as [[t1 p2]| |]; try reflexivity.
      simpl in *.
      same_call IHv fuel' (parse_value fuel p2).
      destruct (parse_value fuel p2) as [[v p3]| |]; try reflexivity.
      simpl in *.
      destruct (at_comma p3).
      * destruct (consume (Some COMMA) p3) as [[t2 p4]| |]; try reflexivity.
        simpl in *.
        same_call IHsl fuel'
          (parse_struct_loop fuel p4 (dict_set acc (value k) v)).
        reflexivity.
      * same_call IHsl fuel'
          (parse_struct_loop fuel p3 (dict_set acc (value k) v)).
        reflexivity.
Qed.

Lemma parse_value_more_fuel fuel fuel' p v p' :
  fuel <= fuel' ->
  parse_value fuel p = Ok (v, p') -> parse_value fuel' p = Ok (v, p').
Proof.
  intros Hle H. rewrite <- H.
  apply (proj1 (parser_fuel_stable fuel)); [exact Hle|].
  rewrite H. discriminate.
Qed.

Lemma parse_list_loop_more_fuel fuel fuel' p acc r :
  fuel <= fuel' ->
  parse_list_loop fuel p acc = Ok r -> parse_list_loop fuel' p acc = Ok r.
Proof.
  intros Hle H. rewrite <- H.
  apply (proj1 (proj2 (proj2 (proj2 (parser_fuel_stable fuel)))));
    [exact Hle|].
  rewrite H. discriminate.
Qed.

Lemma parse_struct_loop_more_fuel fuel fuel' p acc r :
  fuel <= fuel' ->
  parse_struct_loop fuel p acc = Ok r -> parse_struct_loop fuel' p acc = Ok r.
Proof.
  intros Hle H. rewrite <- H.
  apply (proj2 (proj2 (proj2 (proj2 (parser_fuel_stable fuel)))));
    [exact Hle|].
  rewrite H. discriminate.
Qed.

(** Two runs of [parse_value] on the same parser that both return agree. *)
Lemma returns_value_unique p v1 p1 v2 p2 :
  returns_value p v1 p1 -> returns_value p v2 p2 -> v1 = v2 /\ p1 = p2.
Proof.
  intros [f1 H1] [f2 H2].
  apply (parse_value_more_fuel f1 (max f1 f2)) in H1; [|lia].
  apply (parse_value_more_fuel f2 (max f1 f2)) in H2; [|lia].
  rewrite H1 in H2. inversion H2. auto.
Qed.

Lemma consume_remaining expected p tok p' :
  consume expected p = Ok (tok, p') -> S (remaining p') = remaining p.
Proof.
  intro H. apply consume_ok in H. destruct H as (Hp & -> & _).
  apply peek_some in Hp. unfold remaining, advance. simpl. lia.
Qed.

Lemma parse_value_remaining fuel p v p' :
  parse_value fuel p = Ok (v, p') -> remaining p' < remaining p.
Proof.
  intro H. pose proof (parse_value_moved_on _ _ _ _ H) as [[Ht _] Hlt].
  destruct fuel as [|fuel]; [discriminate|].
  rewrite parse_value_S in H.
  destruct (peek p) as [tok|] eqn:Hp; [|discriminate].
  apply peek_some in Hp. unfold remaining. rewrite Ht. lia.
Qed.

Lemma not_back_remaining p p' : not_back p p' -> remaining p' <= remaining p.
Proof. intros [[Ht _] Hle]. unfold remaining. rewrite Ht. lia. Qed.

(** Three units of fuel for each token left, and a few more, are enough
    for every call. *)
Lemma parser_fuel_enough fuel :
  value_ends parse_value 2 fuel /\ value_ends parse_list 1 fuel
  /\ value_ends parse_struct 1 fuel
  /\ loop_ends parse_list_loop fuel /\ loop_ends parse_struct_loop fuel.
Proof.
  unfold value_ends, loop_ends.
  induction fuel as [|fuel (IHv & IHl & IHs & IHll & IHsl)].
  - split; [|split; [|split; [|split]]]; intros; lia.
  - split; [|split; [|split; [|split]]].
    + intros p Hf. rewrite parse_value_S.
      destruct (peek p) as [tok|]; [|discriminate].
      destruct (type tok); try discriminate;
        try (apply IHs; lia); try (apply IHl; lia).
      * destruct (consume None p) as [[t p1]| |] eqn:C; try discriminate.
        -- simpl. pose proof (float_never_out_of_fuel (value t)).
           destruct (float (value t)); try discriminate. congruence.
        -- exfalso. eapply consume_never_out_of_fuel; eauto.
      * destruct (consume None p) as [[t p1]| |] eqn:C; try discriminate.
        exfalso. eapply consume_never_out_of_fuel; eauto.
      * destruct (consume None p) as [[t p1]| |] eqn:C; try discriminate.
        -- simpl. destruct (dict_get (constants p1) (strip "|" (value t)));
             discriminate.
        -- exfalso. eapply consume_never_out_of_fuel; eauto.
    + intros p Hf. rewrite parse_list_S.
      destruct (consume (Some LIST) p) as [[t p1]| |] eqn:C1;
        try discriminate;
        [|exfalso; eapply consume_never_out_of_fuel; eauto].
      simpl. apply consume_remaining in C1.
      destruct (parse_list_loop fuel p1 []) as [[items p2]| |] eqn:L;
        try discriminate; [|exfalso; apply (IHll p1 []); [lia|exact L]].
      simpl.
      destruct (consume (Some RPAREN) p2) as [[t' p3]| |] eqn:C2;
        try discriminate.
      exfalso; eapply consume_never_out_of_fuel; eauto.
    + intros p Hf. rewrite parse_struct_S.
      destruct (consume (Some STRUCT) p) as [[t p1]| |] eqn:C1;
        try discriminate;
        [|exfalso; eapply consume_never_out_of_fuel; eauto].
      simpl. apply consume_remaining in C1.
      destruct (consume (Some LBRACE) p1) as [[t1 p2]| |] eqn:C2;
        try discriminate;
        [|exfalso; eapply consume_never_out_of_fuel; eauto].
      simpl. apply consume_remaining in C2.
      destruct (parse_struct_loop fuel p2 []) as [[obj p3]| |] eqn:L;
        try discriminate; [|exfalso; apply (IHsl p2 []); [lia|exact L]].
      simpl.
      destruct (consume (Some RBRACE) p3) as [[t' p4]| |] eqn:C3;
        try discriminate.
      exfalso; eapply consume_never_out_of_fuel; eauto.
    + intros p acc Hf. rewrite parse_list_loop_S.
      destruct (more_before RPAREN p); [|discriminate].
      destruct (parse_value fuel p) as [[v p1]| |] eqn:V;
        try discriminate; [|exfalso; apply (IHv p); [lia|exact V]].
      simpl. apply parse_value_remaining in V. apply IHll. lia.
    + intros p acc Hf. rewrite parse_struct_loop_S.
      destruct (more_before RBRACE p); [|discriminate].
      destruct (consume (Some IDENT) p) as [[k p1]| |] eqn:C1;
        try discriminate;
        [|exfalso; eapply consume_never_out_of_fuel; eauto].
      simpl. apply consume_remaining in C1.
      destruct (consume (Some EQUAL) p1) as [[t1 p2]| |] eqn:C2;
        try discriminate;
        [|exfalso; eapply consume_never_out_of_fuel; eauto].
      simpl. apply consume_remaining in C2.
      destruct (parse_value fuel p2) as [[v p3]| |] eqn:V;
        try discriminate; [|exfalso; apply (IHv p2); [lia|exact V]].
      simpl. apply parse_value_remaining in V.
      destruct (at_comma p3).
      * destruct (consume (Some COMMA) p3) as [[t2 p4]| |] eqn:C3;
          try discriminate;
          [|exfalso; eapply consume_never_out_of_fuel; eauto].
        simpl. apply consume_remaining in C3. apply IHsl. lia.
      * apply IHsl. lia.
Qed.

Lemma parse_value_ends fuel p :
  3 * remaining p + 2 <= fuel -> parse_value fuel p <> OutOfFuel.
Proof. apply (proj1 (parser_fuel_enough fuel)). Qed.

(** A value that [parse_value] returns with some fuel, it returns with
    any fuel that is enough for the tokens left. *)
Lemma returns_value_with fuel p v p' :
  returns_value p v p' ->
  3 * remaining p + 2 <= fuel -> parse_value fuel p = Ok (v, p').
Proof.
  intros [f H] Hf.
  pose proof (parse_value_ends fuel p Hf) as Hn.
  apply (parse_value_more_fuel f (max f fuel)) in H; [|lia].
  rewrite <- H. symmetry.
  apply (proj1 (parser_fuel_stable fuel)); [lia|exact Hn].
Qed.

(** ** Top level *)

Lemma consume_token_at ttype p tok p' :
  consume (Some ttype) p = Ok (tok, p') ->
  token_at p 0 ttype tok /\ p' = move 1 p.
Proof.
  intro H. apply consume_ok in H. destruct H as (Hp & -> & Ht).
  rewrite peek_nth in Hp. split; [split|]; auto.
Qed.

Lemma token_at_consume ttype p tok :
  token_at p 0 ttype tok -> consume (Some ttype) p = Ok (tok, move 1 p).
Proof.
  intros [Hn Ht]. unfold consume. rewrite peek_nth. simpl in Hn. rewrite Hn.
  rewrite Ht. destruct ttype; reflexivity.
Qed.

Lemma token_at_move k j p ttype tok :
  token_at (move k p) j ttype tok <-> token_at p (j + k) ttype tok.
Proof.
  unfold token_at, move. simpl. rewrite Nat.add_assoc. reflexivity.
Qed.

Lemma move_move k j p : move j (move k p) = move (j + k) p.
Proof. unfold move. simpl. rewrite Nat.add_assoc. reflexivity. Qed.

(** A successful [parse_set] has read ['set' Ident '=' Value] and bound
    the name. *)
Lemma parse_set_statement fuel p p' :
  parse_set fuel p = Ok p' ->
  exists name v, statement p (ISet name v) p'.
Proof.
  unfold parse_set. intro H.
  destruct (consume (Some SET) p) as [[t0 p1]| |] eqn:C0; try discriminate.
  simpl in H.
  destruct (consume (Some IDENT) p1) as [[t1 p2]| |] eqn:C1;
    try discriminate. simpl in H.
  destruct (consume (Some EQUAL) p2) as [[t2 p3]| |] eqn:C2;
    try discriminate. simpl in H.
  destruct (parse_value fuel p3) as [[v p4]| |] eqn:V; try discriminate.
  inversion H; subst p'.
  apply consume_token_at in C0. destruct C0 as [T0 ->].
  apply consume_token_at in C1. destruct C1 as [T1 ->].
  apply consume_token_at in C2. destruct C2 as [T2 ->].
  rewrite !move_move in *. rewrite token_at_move in T1, T2.
  exists (value t1), v.
  apply (statement_set p t0 t1 t2 v p4); auto. exists fuel. exact V.
Qed.

Lemma statement_set_parse fuel p name v p' :
  statement p (ISet name v) p' ->
  3 * remaining p + 2 <= fuel -> parse_set fuel p = Ok p'.
Proof.
  intros H Hf. inversion H as [q t0 t1 t2 w q' T0 T1 T2 R|]; subst.
  unfold parse_set.
  rewrite (token_at_consume SET p t0 T0). simpl.
  rewrite (token_at_consume IDENT (move 1 p) t1)
    by (apply token_at_move; exact T1). simpl.
  rewrite (token_at_consume EQUAL (move 1 (move 1 p)) t2)
    by (rewrite move_move; apply token_at_move; exact T2). simpl.
  rewrite !move_move. simpl.
  rewrite (returns_value_with fuel (move 3 p) v q' R); [reflexivity|].
  unfold remaining, move in *. simpl. lia.
Qed.

Lemma statement_remaining p it p' :
  statement p it p' -> remaining p' < remaining p /\ tokens p' = tokens p.
Proof.
  intro H.
  inversion H
    as [q t0 t1 t2 w q' T0 T1 T2 [f R]|q tok w q' Hp Hn [f R]]; subst.
  - pose proof (parse_value_remaining _ _ _ _ R) as Hr.
    pose proof (parse_value_moved_on _ _ _ _ R) as [[Ht _] _].
    destruct T0 as [T0 _].
    assert (pos p < length (tokens p))
      by (apply nth_error_Some; simpl in T0; congruence).
    unfold remaining, set_constant, move in *. simpl in *. split; [lia|auto].
  - pose proof (parse_value_moved_on _ _ _ _ R) as [[Ht _] _].
    split; [eapply parse_value_remaining; eauto|auto].
Qed.

(** The loop of [parse] reads statements up to the end of the tokens and
    keeps the value of the last one that is not a [set]. *)
Lemma parse_loop_statements fuel :
  forall p result r p',
    parse_loop fuel p result = Ok (r, p') ->
    exists items,
      statements p items p' /\ peek p' = None
      /\ r = fold_left
               (fun r it =>
                  match it with IValue v => Some v | ISet _ _ => r end)
               items result.
Proof.
  induction fuel as [|fuel IH]; intros p result r p' H; [discriminate|].
  rewrite parse_loop_S in H.
  destruct (peek p) as [tok|] eqn:Hp.
  - destruct (TokenType_eqb (type tok) SET) eqn:Et.
    + destruct (parse_set fuel p) as [p1| |] eqn:S1; try discriminate.
      simpl in H. apply parse_set_statement in S1.
      destruct S1 as (name & v & S1).
      destruct (IH _ _ _ _ H) as (items & Hs & He & Hr).
      exists (ISet name v :: items). split; [|split]; auto.
      eapply statements_cons; eauto.
    + destruct (parse_value fuel p) as [[v p1]| |] eqn:V; try discriminate.
      simpl in H.
      destruct (IH _ _ _ _ H) as (items & Hs & He & Hr).
      exists (IValue v :: items). split; [|split]; auto.
      eapply statements_cons; [|exact Hs].
      apply (statement_value p tok v p1); auto.
      * intro E. apply TokenType_eqb_eq in E. congruence.
      * exists fuel. exact V.
  - inversion H; subst. exists []. split; [constructor|auto].
Qed.

Lemma statements_parse_loop p items p' :
  statements p items p' ->
  peek p' = None ->
  forall fuel result,
    3 * remaining p + 3 <= fuel ->
    parse_loop fuel p result
    = Ok (fold_left
            (fun r it => match it with IValue v => Some v | ISet _ _ => r end)
            items result, p').
Proof.
  induction 1 as [p|p it p1 items p' Hst Hs IH]; intros He fuel result Hf.
  - destruct fuel as [|fuel]; [lia|]. rewrite parse_loop_S, He. reflexivity.
  - destruct fuel as [|fuel]; [lia|]. rewrite parse_loop_S.
    pose proof (statement_remaining _ _ _ Hst) as [Hr _].
    inversion Hst as [q t0 t1 t2 w q' T0 T1 T2 R|q tok w q' Hp Hn R]; subst.
    + destruct T0 as [T0 Ty0]. simpl in T0. rewrite peek_nth, T0, Ty0. simpl.
      rewrite (statement_set_parse fuel p _ _ _ Hst) by lia. simpl.
      apply IH; [exact He|lia].
    + rewrite Hp.
      destruct (TokenType_eqb (type tok) SET) eqn:Et;
        [apply TokenType_eqb_eq in Et; contradiction|].
      rewrite (returns_value_with fuel p w p1 R) by lia. simpl.
      apply IH; [exact He|lia].
Qed.

Lemma statements_constants p items p' :
  statements p items p' ->
  tokens p' = tokens p
  /\ constants p' = constants_after items (constants p).
Proof.
  induction 1 as [p|p it p1 items p' Hst Hs [IHt IHc]]; [split; reflexivity|].
  rewrite IHt, IHc.
  inversion Hst as [q t0 t1 t2 w q' T0 T1 T2 [f R]|q tok w q' Hp Hn [f R]];
    subst; apply parse_value_moved_on in R; destruct R as [[Ht Hc] _];
    simpl; rewrite ?Hc; auto.
Qed.

Lemma remaining_init toks : remaining (Parser_init toks) = length toks.
Proof. unfold remaining. simpl. lia. Qed.

(** C3: a token sequence parses successfully to [r] exactly when it is a
    sequence of top-level statements up to its end and [r] is the value of
    the last one that is not a [set], or [None] when there is none (as for
    the empty sequence); the values before it are parsed and dropped, and
    the [set] statements write the constant table and nothing else. *)
Theorem C3_result_is_last_top_level_value toks r :
  (parse_tokens toks = Ok r <->
   exists items p',
     statements (Parser_init toks) items p' /\ peek p' = None
     /\ r = last_value items)
  /\ (forall items p',
         statements (Parser_init toks) items p' ->
         tokens p' = toks /\ constants p' = constants_after items [])
  /\ last_value [] = None
  /\ (forall items name v,
         last_value (items ++ [ISet name v]) = last_value items)
  /\ (forall items v, last_value (items ++ [IValue v]) = Some v)
  /\ parse_tokens [] = Ok None.
Proof.
  split; [|split; [|split; [|split; [|split]]]].
  - unfold parse_tokens, parse. split.
    + intro H.
      destruct (parse_loop (parse_fuel toks) (Parser_init toks) None)
        as [[r' p']| |] eqn:L; try discriminate.
      inversion H; subst r'.
      apply parse_loop_statements in L. destruct L as (items & Hs & He & Hr).
      exists items, p'. auto.
    + intros (items & p' & Hs & He & Hr).
      rewrite (statements_parse_loop _ _ _ Hs He (parse_fuel toks) None).
      * simpl. rewrite Hr. reflexivity.
      * rewrite remaining_init. unfold parse_fuel. lia.
  - intros items p' Hs. apply statements_constants in Hs. exact Hs.
  - reflexivity.
  - intros items name v. unfold last_value. rewrite fold_left_app. reflexivity.
  - intros items v. unfold last_value. rewrite fold_left_app. reflexivity.
  - reflexivity.
Qed.

Lemma C3_witness :
  exists items p',
    statements
      (Parser_init [mkToken STRING (lit "'a'"); mkToken SET (lit "set");
                    mkToken IDENT (lit "x"); mkToken EQUAL (lit "=");
                    mkToken STRING (lit "'b'"); mkToken STRING (lit "'c'");
                    mkToken SET (lit "set"); mkToken IDENT (lit "y");
                    mkToken EQUAL (lit "="); mkToken CONST (lit "|x|")])
      items p'
    /\ peek p' = None
    /\ Some (VStr (lit "c")) = last_value items.
Proof.
  exact (proj1 (proj1 (C3_result_is_last_top_level_value
    [mkToken STRING (lit "'a'"); mkToken SET (lit "set");
     mkToken IDENT (lit "x"); mkToken EQUAL (lit "=");
     mkToken STRING (lit "'b'"); mkToken STRING (lit "'c'");
     mkToken SET (lit "set"); mkToken IDENT (lit "y");
     mkToken EQUAL (lit "="); mkToken CONST (lit "|x|")]
    (Some (VStr (lit "c"))))) eq_refl).
Defined.

(** ** Termination *)

Lemma parse_set_stable fuel fuel' p :
  fuel <= fuel' -> parse_set fuel p <> OutOfFuel ->
  parse_set fuel' p = parse_set fuel p.
Proof.
  unfold parse_set. intros Hle H.
  destruct (consume (Some SET) p) as [[t0 p1]| |]; try reflexivity.
  simpl in *.
  destruct (consume (Some IDENT) p1) as [[t1 p2]| |]; try reflexivity.
  simpl in *.
  destruct (consume (Some EQUAL) p2) as [[t2 p3]| |]; try reflexivity.
  simpl in *.
  rewrite (proj1 (parser_fuel_stable fuel) fuel' p3 Hle); [reflexivity|].
  intro E. rewrite E in H. simpl in H. congruence.
Qed.

Lemma parse_set_ends fuel p :
  3 * remaining p + 2 <= fuel -> parse_set fuel p <> OutOfFuel.
Proof.
  unfold parse_set. intro Hf.
  destruct (consume (Some SET) p) as [[t0 p1]| |] eqn:C0; try discriminate;
    [|exfalso; eapply consume_never_out_of_fuel; eauto].
  simpl. apply consume_remaining in C0.
  destruct (consume (Some IDENT) p1) as [[t1 p2]| |] eqn:C1; try discriminate;
    [|exfalso; eapply consume_never_out_of_fuel; eauto].
  simpl. apply consume_remaining in C1.
  destruct (consume (Some EQUAL) p2) as [[t2 p3]| |] eqn:C2; try discriminate;
    [|exfalso; eapply consume_never_out_of_fuel; eauto].
  simpl. apply consume_remaining in C2.
  destruct (parse_value fuel p3) as [[v p4]| |] eqn:V; try discriminate.
  exfalso. apply (parse_value_ends fuel p3); [lia|exact V].
Qed.

Lemma parse_loop_ends fuel :
  forall p result,
    3 * remaining p + 3 <= fuel -> parse_loop fuel p result <> OutOfFuel.
Proof.
  induction fuel as [|fuel IH]; intros p result Hf; [lia|].
  rewrite parse_loop_S. destruct (peek p) as [tok|]; [|discriminate].
  destruct (TokenType_eqb (type tok) SET).
  - destruct (parse_set fuel p) as [p1| |] eqn:S1; try discriminate.
    + simpl. apply parse_set_statement in S1. destruct S1 as (n & v & S1).
      apply statement_remaining in S1. apply IH. lia.
    + exfalso. apply (parse_set_ends fuel p); [lia|exact S1].
  - destruct (parse_value fuel p) as [[v p1]| |] eqn:V; try discriminate.
    + simpl. apply parse_value_remaining in V. apply IH. lia.
    + exfalso. apply (parse_value_ends fuel p); [lia|exact V].
Qed.

Lemma parse_loop_stable fuel :
  forall fuel' p result,
    fuel <= fuel' -> parse_loop fuel p result <> OutOfFuel ->
    parse_loop fuel' p result = parse_loop fuel p result.
Proof.
  induction fuel as [|fuel IH]; intros [|fuel'] p result Hle H;
    try lia; try (simpl in H; congruence).
  rewrite parse_loop_S in H. rewrite !parse_loop_S.
  destruct (peek p) as [tok|]; [|reflexivity].
  destruct (TokenType_eqb (type tok) SET).
  - rewrite (parse_set_stable fuel fuel' p) by
        (try lia; intro E; rewrite E in H; simpl in H; congruence).
    destruct (parse_set fuel p) as [p1| |]; try reflexivity.
    simpl in *. apply IH; [lia|exact H].
  - rewrite (proj1 (parser_fuel_stable fuel) fuel' p) by
        (try lia; intro E; rewrite E in H; simpl in H; congruence).
    destruct (parse_value fuel p) as [[v p1]| |]; try reflexivity.
    simpl in *. apply IH; [lia|exact H].
Qed.

(** C9: tokenizing and parsing come to an end on every input.  Every
    match of the lexer, the blanks of SKIP included, takes at least one
    character, so the position goes up in every turn of the loop and the
    fuel [length text + 1] is never used up; every successful call of
    [parse_value], [parse_list] and [parse_struct] has taken at least one
    token, so the cursor goes up, and the fuel [parse_fuel toks] is never
    used up either, while more fuel gives the same result. *)
Theorem C9_lexer_and_parser_terminate :
  (forall text pos ttype e,
      first_match TOKEN_REGEX text pos = Some (ttype, e) ->
      pos < e <= length text)
  /\ (forall text,
         tokenize text <> OutOfFuel
         /\ forall fuel, length text < fuel ->
              tokenize_loop fuel text 0 [] = tokenize text)
  /\ (forall fuel p v p',
         parse_value fuel p = Ok (v, p') \/ parse_list fuel p = Ok (v, p')
         \/ parse_struct fuel p = Ok (v, p') ->
         pos p < pos p' /\ tokens p' = tokens p)
  /\ (forall toks,
         parse_tokens toks <> OutOfFuel
         /\ forall fuel, parse_fuel toks <= fuel ->
              parse fuel (Parser_init toks)
              = parse (parse_fuel toks) (Parser_init toks))
  /\ (forall source, main_tree source <> OutOfFuel).
Proof.
  assert (Hp : forall toks,
             parse (parse_fuel toks) (Parser_init toks) <> OutOfFuel).
  { intro toks. apply parse_loop_ends. rewrite remaining_init.
    unfold parse_fuel. lia. }
  assert (Ht : forall toks, parse_tokens toks <> OutOfFuel).
  { intro toks. unfold parse_tokens. specialize (Hp toks).
    destruct (parse (parse_fuel toks) (Parser_init toks)) as [[r p']| |];
      simpl; congruence. }
  split; [|split; [|split; [|split]]].
  - apply first_match_progress.
  - intro text. split; [apply tokenize_terminates|].
    intros fuel Hf. unfold tokenize. apply tokenize_loop_fuel; lia.
  - intros fuel p v p' [H|[H|H]].
    + apply (proj1 (parser_progress fuel)) in H.
      destruct H as [[Ht' _] Hlt]. auto.
    + apply (proj1 (proj2 (parser_progress fuel))) in H.
      destruct H as [[Ht' _] Hlt]. auto.
    + apply (proj1 (proj2 (proj2 (parser_progress fuel)))) in H.
      destruct H as [[Ht' _] Hlt]. auto.
  - intro toks. split; [apply Ht|].
    intros fuel Hf. apply parse_loop_stable; [exact Hf|apply Hp].
  - intro source. unfold main_tree.
    pose proof (tokenize_terminates (remove_comments source)) as Hk.
    destruct (tokenize (remove_comments source)) as [toks| |]; simpl;
      [apply Ht|discriminate|congruence].
Qed.

Lemma C9_witness :
  0 < 5 <= length (lit "(list 1.0)")
  /\ (parse (100) (Parser_init [mkToken LIST (lit "(list");
                                mkToken RPAREN (lit ")")])
      = parse (parse_fuel [mkToken LIST (lit "(list");
                           mkToken RPAREN (lit ")")])
          (Parser_init [mkToken LIST (lit "(list");
                        mkToken RPAREN (lit ")")])).
Proof.
  split.
  - exact (proj1 C9_lexer_and_parser_terminate (lit "(list 1.0)") 0 LIST 5
             eq_refl).
  - apply (proj2 (proj1 (proj2 (proj2 (proj2 C9_lexer_and_parser_terminate)))
                    [mkToken LIST (lit "(list"); mkToken RPAREN (lit ")")])).
    vm_compute. lia.
Defined.

(** ** Constants *)

Lemma str_eqb_eq a b : str_eqb a b = true <-> a = b.
Proof.
  revert b. induction a as [|x a IH]; intros [|y b]; simpl;
    try (split; intro; congruence).
  rewrite andb_true_iff, Ascii.eqb_eq, IH. split.
  - intros [-> ->]. reflexivity.
  - intro H. inversion H. auto.
Qed.

Lemma str_eqb_refl a : str_eqb a a = true.
Proof. apply str_eqb_eq. reflexivity. Qed.

(** Reading a dict after an assignment. *)
Lemma dict_get_set {V : Type} (d : list (str * V)) k v k' :
  dict_get (dict_set d k v) k'
  = if str_eqb k k' then Some v else dict_get d k'.
Proof.
  induction d as [|[k0 v0] d IH]; simpl.
  - reflexivity.
  - destruct (str_eqb k0 k) eqn:E0; simpl.
    + apply str_eqb_eq in E0. subst k0.
      destruct (str_eqb k k'); reflexivity.
    + destruct (str_eqb k0 k') eqn:E1.
      * apply str_eqb_eq in E1. subst k0.
        destruct (str_eqb k k') eqn:E2; [|reflexivity].
        apply str_eqb_eq in E2. subst k'. rewrite str_eqb_refl in E0.
        discriminate.
      * exact IH.
Qed.

(** The table after a run of statements holds, for every name, the value
    of its last [set]. *)
Lemma dict_get_constants_after items :
  forall d name,
    dict_get (constants_after items d) name
    = fold_left
        (fun r it =>
           match it with
           | ISet n v => if str_eqb n name then Some v else r
           | IValue _ => r
           end) items (dict_get d name).
Proof.
  unfold constants_after.
  induction items as [|[n v|v] items IH]; intros d name; simpl.
  - reflexivity.
  - rewrite IH, dict_get_set. reflexivity.
  - apply IH.
Qed.

Lemma lstrip_none c s :
  forallb (fun x => negb (Ascii.eqb x c)) s = true -> lstrip c s = s.
Proof.
  destruct s as [|x s]; simpl; [reflexivity|].
  intro H. apply andb_prop in H. destruct H as [Hx _].
  apply negb_true_iff in Hx. rewrite Hx. reflexivity.
Qed.

Lemma ident_char_not_bar c : is_ident_char c = true -> Ascii.eqb c "|" = false.
Proof.
  destruct c as [[] [] [] [] [] [] [] []]; vm_compute; intro H;
    first [reflexivity | discriminate H].
Qed.

(** The name inside a CONST lexeme. *)
Lemma strip_bars name :
  forallb is_ident_char name = true ->
  strip "|" (lit "|" ++ name ++ lit "|") = name.
Proof.
  intro H.
  assert (Hb : forallb (fun x => negb (Ascii.eqb x "|")) name = true).
  { rewrite forallb_forall in *. intros x Hx.
    rewrite (ident_char_not_bar x (H x Hx)). reflexivity. }
  destruct name as [|x name]; [reflexivity|].
  unfold strip, rstrip.
  change (lit "|" ++ (x :: name) ++ lit "|")
    with ("|"%char :: (x :: name) ++ ["|"%char]).
  cbn [lstrip]. rewrite Ascii.eqb_refl.
  cbn [app lstrip].
  pose proof Hb as Hx. simpl in Hx. apply andb_prop in Hx.
  destruct Hx as [Hx _]. apply negb_true_iff in Hx. rewrite Hx.
  change (x :: name ++ ["|"%char]) with ((x :: name) ++ ["|"%char]).
  rewrite rev_unit. cbn [lstrip]. rewrite Ascii.eqb_refl.
  rewrite lstrip_none; [apply rev_involutive|].
  rewrite forallb_forall in *. intros y Hy. apply Hb.
  apply in_rev. exact Hy.
Qed.

(** C4: a reference [|name|] is looked up in the constant table at the
    moment it is parsed.  The table then holds the [set] statements parsed
    so far, in the order of the text, each name with the value of its last
    [set]: without one the call raises the SyntaxError for an unknown
    constant; with one it returns that value, and a later [set] of the same
    name, which comes after the call has returned, does not reach it.
    Parsing a value, whatever it is nested in, leaves the table as it
    was. *)
Theorem C4_reference_reads_the_table_as_set_so_far :
  (forall fuel p tok,
      peek p = Some tok -> type tok = CONST ->
      parse_value (S fuel) p
      = match dict_get (constants p) (strip "|" (value tok)) with
        | Some v => Ok (v, advance p)
        | None =>
            Raise (SyntaxError
                     (lit "Unknown constant " ++ strip "|" (value tok)))
        end)
  /\ (forall name,
         forallb is_ident_char name = true ->
         strip "|" (lit "|" ++ name ++ lit "|") = name)
  /\ (forall toks items p name,
         statements (Parser_init toks) items p ->
         dict_get (constants p) name = last_set name items)
  /\ (forall fuel p v p',
         parse_value fuel p = Ok (v, p') -> constants p' = constants p)
  /\ (forall items name v,
         last_set name (items ++ [ISet name v]) = Some v)
  /\ last_set (lit "x") [] = None
  /\ main_tree (lit "(list |x|) set x = .5")
     = Raise (SyntaxError (lit "Unknown constant x"))
  /\ main_tree (lit "set x = |x|")
     = Raise (SyntaxError (lit "Unknown constant x"))
  /\ main_tree (lit "set x = .5 set x = 'a' (list |x|)")
     = Ok (Some (VList [VStr (lit "a")]))
  /\ main_tree (lit "set x = .5 set y = (list |x|) set x = 'a' |y|")
     = Ok (Some (VList [VFloat (S754_finite false 4503599627370496 (-53))])).
Proof.
  split; [|split; [|split; [|split; [|split; [|split]]]]].
  - intros fuel p tok Hp Ht. rewrite parse_value_S, Hp, Ht.
    unfold consume. rewrite Hp. reflexivity.
  - apply strip_bars.
  - intros toks items p name Hs. apply statements_constants in Hs.
    destruct Hs as [_ Hc]. rewrite Hc. simpl constants.
    rewrite dict_get_constants_after. reflexivity.
  - intros fuel p v p' H. apply parse_value_moved_on in H.
    destruct H as [[_ Hc] _]. exact Hc.
  - intros items name v. unfold last_set. rewrite fold_left_app. simpl.
    rewrite str_eqb_refl. reflexivity.
  - reflexivity.
  - vm_compute. repeat split; reflexivity.
Qed.

Lemma C4_witness :
  parse_value 1
    (mkParser [mkToken CONST (lit "|x|")] 0 [(lit "x", VStr (lit "a"))])
  = Ok (VStr (lit "a"),
        mkParser [mkToken CONST (lit "|x|")] 1 [(lit "x", VStr (lit "a"))]).
Proof.
  exact (proj1 C4_reference_reads_the_table_as_set_so_far 0
           (mkParser [mkToken CONST (lit "|x|")] 0
              [(lit "x", VStr (lit "a"))])
           (mkToken CONST (lit "|x|")) eq_refl eq_refl).
Defined.

(** ** Struct literals *)

Lemma more_before_token_at p closing ttype tok :
  token_at p 0 ttype tok ->
  more_before closing p = negb (TokenType_eqb ttype closing).
Proof.
  intros [Hn Ht]. unfold more_before. rewrite peek_nth. simpl in Hn.
  rewrite Hn, Ht. reflexivity.
Qed.

(** The loop of [parse_struct] reads entries up to a token that is [}] or
    up to the end, and assigns them in order. *)
Lemma parse_struct_loop_entries fuel :
  forall p obj obj' p',
    parse_struct_loop fuel p obj = Ok (obj', p') ->
    exists kvs,
      struct_entries p kvs p' /\ more_before RBRACE p' = false
      /\ obj' = dict_of kvs obj.
Proof.
  induction fuel as [|fuel IH]; intros p obj obj' p' H; [discriminate|].
  rewrite parse_struct_loop_S in H.
  destruct (more_before RBRACE p) eqn:Hm.
  - destruct (consume (Some IDENT) p) as [[k p1]| |] eqn:C1;
      try discriminate. simpl in H.
    destruct (consume (Some EQUAL) p1) as [[t1 p2]| |] eqn:C2;
      try discriminate. simpl in H.
    destruct (parse_value fuel p2) as [[v p3]| |] eqn:V;
      try discriminate. simpl in H.
    apply consume_token_at in C1. destruct C1 as [T1 ->].
    apply consume_token_at in C2. destruct C2 as [T2 ->].
    rewrite move_move in V. rewrite token_at_move in T2.
    assert (Hnext : parse_struct_loop fuel
                      (if at_comma p3 then advance p3 else p3)
                      (dict_set obj (value k) v) = Ok (obj', p')).
    { destruct (at_comma p3) eqn:Hc; [|exact H].
      destruct (consume (Some COMMA) p3) as [[t2 p4]| |] eqn:C3;
        try discriminate. simpl in H.
      apply consume_ok in C3. destruct C3 as (_ & -> & _). exact H. }
    destruct (IH _ _ _ _ Hnext) as (kvs & He & Hend & Hobj).
    exists ((value k, v) :: kvs). split; [|split]; auto.
    apply (entries_cons p k t1 v p3 kvs p'); auto. exists fuel. exact V.
  - inversion H; subst. exists []. split; [constructor|auto].
Qed.

Lemma struct_entries_remaining p kvs p' :
  struct_entries p kvs p' -> not_back p p'.
Proof.
  induction 1 as [p|p k t v p1 kvs p' T1 T2 [f R] Hs IH].
  - apply not_back_refl.
  - apply parse_value_moved_on in R.
    assert (H1 : not_back p p1).
    { destruct R as [[Ht Hc] Hlt]. unfold not_back, same_input, move in *.
      simpl in *. repeat split; auto. lia. }
    eapply not_back_trans; [exact H1|].
    eapply not_back_trans; [|exact IH].
    destruct (at_comma p1); [|apply not_back_refl].
    unfold not_back, same_input, advance. simpl. auto.
Qed.

Lemma entries_parse_struct_loop p kvs p' :
  struct_entries p kvs p' ->
  more_before RBRACE p' = false ->
  forall fuel obj,
    3 * remaining p + 3 <= fuel ->
    parse_struct_loop fuel p obj = Ok (dict_of kvs obj, p').
Proof.
  induction 1 as [p|p k t v p1 kvs p' T1 T2 R Hs IH]; intros Hend fuel obj Hf;
    (destruct fuel as [|fuel]; [lia|]); rewrite parse_struct_loop_S.
  - rewrite Hend. reflexivity.
  - rewrite (more_before_token_at p RBRACE IDENT k T1). simpl.
    rewrite (token_at_consume IDENT p k T1). simpl.
    rewrite (token_at_consume EQUAL (move 1 p) t)
      by (apply token_at_move; exact T2). simpl.
    rewrite move_move. simpl.
    assert (Hk : pos p < length (tokens p)).
    { destruct T1 as [T1 _]. apply nth_error_Some. simpl in T1. congruence. }
    assert (Hr2 : remaining (move 2 p) <= remaining p)
      by (unfold remaining, move; simpl; lia).
    rewrite (returns_value_with fuel (move 2 p) v p1 R) by lia. simpl.
    destruct R as [f R]. apply parse_value_remaining in R.
    unfold dict_of. simpl. fold (dict_of kvs (dict_set obj (value k) v)).
    destruct (at_comma p1) eqn:Hc.
    + assert (C : consume (Some COMMA) p1
                  = Ok (match peek p1 with Some c => c | None => k end,
                        advance p1)).
      { unfold consume, at_comma in *. destruct (peek p1) as [c|];
          [|discriminate]. rewrite Hc. reflexivity. }
      rewrite C. simpl. apply IH; [exact Hend|].
      unfold remaining, advance in *. simpl in *. lia.
    + apply IH; [exact Hend|]. lia.
Qed.

(** [parse_struct] returns exactly on
    ['struct' '{' (Ident '=' Value (',')?)* '}'], with the dict of the
    entries, the cursor after the [}]. *)
Lemma parse_struct_entries p v p' :
  (exists fuel, parse_struct fuel p = Ok (v, p')) <->
  exists t_struct t_lbrace kvs p3 t_rbrace,
    token_at p 0 STRUCT t_struct /\ token_at p 1 LBRACE t_lbrace
    /\ struct_entries (move 2 p) kvs p3
    /\ token_at p3 0 RBRACE t_rbrace
    /\ v = VDict (dict_of kvs []) /\ p' = advance p3.
Proof.
  split.
  - intros [[|fuel] H]; [discriminate|]. rewrite parse_struct_S in H.
    destruct (consume (Some STRUCT) p) as [[t p1]| |] eqn:C1;
      try discriminate. simpl in H.
    destruct (consume (Some LBRACE) p1) as [[t1 p2]| |] eqn:C2;
      try discriminate. simpl in H.
    destruct (parse_struct_loop fuel p2 []) as [[obj p3]| |] eqn:L;
      try discriminate. simpl in H.
    destruct (consume (Some RBRACE) p3) as [[t' p4]| |] eqn:C3;
      try discriminate. inversion H; subst v p'.
    apply consume_token_at in C1. destruct C1 as [T1 ->].
    apply consume_token_at in C2. destruct C2 as [T2 ->].
    apply consume_token_at in C3. destruct C3 as [T3 ->].
    rewrite move_move in L. rewrite token_at_move in T2.
    apply parse_struct_loop_entries in L.
    destruct L as (kvs & He & _ & ->).
    exists t, t1, kvs, p3, t'.
    repeat split; auto; apply T1 || apply T2 || apply T3.
  - intros (t & t1 & kvs & p3 & t' & T1 & T2 & He & T3 & -> & ->).
    exists (S (3 * remaining p + 3)). rewrite parse_struct_S.
    rewrite (token_at_consume STRUCT p t T1). simpl.
    rewrite (token_at_consume LBRACE (move 1 p) t1)
      by (apply token_at_move; exact T2). simpl.
    rewrite move_move. simpl.
    rewrite (entries_parse_struct_loop _ _ _ He).
    + simpl. rewrite (token_at_consume RBRACE p3 t' T3). reflexivity.
    + rewrite (more_before_token_at p3 RBRACE RBRACE t' T3). reflexivity.
    + unfold remaining, move. simpl. lia.
Qed.

(** Reading the dict of a run of entries gives the last value under the
    key. *)
Lemma dict_get_dict_of kvs :
  forall obj k,
    dict_get (dict_of kvs obj) k
    = fold_left (fun r kv => if str_eqb (fst kv) k then Some (snd kv) else r)
        kvs (dict_get obj k).
Proof.
  unfold dict_of. induction kvs as [|[k0 v0] kvs IH]; intros obj k; simpl.
  - reflexivity.
  - rewrite IH, dict_get_set. reflexivity.
Qed.

(** A call of [parse_value] that raises with some fuel raises the same
    with any fuel that is enough for the tokens left. *)
Lemma raises_value_with fuel f p e :
  parse_value f p = Raise e ->
  3 * remaining p + 2 <= fuel -> parse_value fuel p = Raise e.
Proof.
  intros H Hf.
  pose proof (parse_value_ends fuel p Hf) as Hn.
  assert (Hm : parse_value (max f fuel) p = Raise e).
  { rewrite <- H. apply (proj1 (parser_fuel_stable f)); [lia|].
    rewrite H. discriminate. }
  rewrite <- Hm. symmetry.
  apply (proj1 (parser_fuel_stable fuel)); [lia|exact Hn].
Qed.

(** What the loop of [parse_struct] raises after some entries, it raises
    from the start of the entries. *)
Lemma entries_then_raises p kvs p' e :
  struct_entries p kvs p' ->
  (forall fuel obj,
      3 * remaining p' + 3 <= fuel ->
      parse_struct_loop fuel p' obj = Raise e) ->
  forall fuel obj,
    3 * remaining p + 3 <= fuel -> parse_struct_loop fuel p obj = Raise e.
Proof.
  induction 1 as [p|p k t v p1 kvs p' T1 T2 R Hs IH]; intros Hend fuel obj Hf;
    [apply Hend; exact Hf|].
  destruct fuel as [|fuel]; [lia|]. rewrite parse_struct_loop_S.
  rewrite (more_before_token_at p RBRACE IDENT k T1). simpl.
  rewrite (token_at_consume IDENT p k T1). simpl.
  rewrite (token_at_consume EQUAL (move 1 p) t)
    by (apply token_at_move; exact T2). simpl.
  rewrite move_move. simpl.
  assert (Hk : pos p < length (tokens p)).
  { destruct T1 as [T1 _]. apply nth_error_Some. simpl in T1. congruence. }
  assert (Hr2 : remaining (move 2 p) <= remaining p)
    by (unfold remaining, move; simpl; lia).
  rewrite (returns_value_with fuel (move 2 p) v p1 R) by lia. simpl.
  destruct R as [f R]. apply parse_value_remaining in R.
  destruct (at_comma p1) eqn:Hc.
  - assert (C : consume (Some COMMA) p1
                = Ok (match peek p1 with Some c => c | None => k end,
                      advance p1)).
    { unfold consume, at_comma in *. destruct (peek p1) as [c|];
        [|discriminate]. rewrite Hc. reflexivity. }
    rewrite C. simpl. apply IH; [exact Hend|].
    unfold remaining, advance in *. simpl in *. lia.
  - apply IH; [exact Hend|]. lia.
Qed.

(** The loop of [parse_struct] on a key with nothing after it, and on a key
    and [=] followed by a value that raises. *)
Lemma struct_loop_key_at_end p t_key fuel obj :
  token_at p 0 IDENT t_key -> peek (move 1 p) = None ->
  parse_struct_loop (S fuel) p obj = Raise end_of_input.
Proof.
  intros T1 Hend. rewrite parse_struct_loop_S.
  rewrite (more_before_token_at p RBRACE IDENT t_key T1). simpl.
  rewrite (token_at_consume IDENT p t_key T1). simpl.
  unfold consume. rewrite Hend. reflexivity.
Qed.

Lemma struct_loop_value_raises p t_key t_eq f e fuel obj :
  token_at p 0 IDENT t_key -> token_at p 1 EQUAL t_eq ->
  parse_value f (move 2 p) = Raise e ->
  3 * remaining p + 3 <= fuel ->
  parse_struct_loop fuel p obj = Raise e.
Proof.
  intros T1 T2 V Hf. destruct fuel as [|fuel]; [lia|].
  rewrite parse_struct_loop_S.
  rewrite (more_before_token_at p RBRACE IDENT t_key T1). simpl.
  rewrite (token_at_consume IDENT p t_key T1). simpl.
  rewrite (token_at_consume EQUAL (move 1 p) t_eq)
    by (apply token_at_move; exact T2). simpl.
  rewrite move_move. simpl.
  rewrite (raises_value_with fuel f (move 2 p) e V); [reflexivity|].
  unfold remaining, move in *. simpl in *. lia.
Qed.

(** [parse_struct] past [struct] and [{]. *)
Lemma parse_struct_header p t_struct t_lbrace fuel :
  token_at p 0 STRUCT t_struct -> token_at p 1 LBRACE t_lbrace ->
  parse_struct (S fuel) p
  = '(obj, p3) <- parse_struct_loop fuel (move 2 p) [] ;;
    '(_, p4) <- consume (Some RBRACE) p3 ;;
    Ok (VDict obj, p4).
Proof.
  intros T1 T2. rewrite parse_struct_S.
  rewrite (token_at_consume STRUCT p t_struct T1). simpl.
  rewrite (token_at_consume LBRACE (move 1 p) t_lbrace)
    by (apply token_at_move; exact T2). simpl.
  rewrite move_move. reflexivity.
Qed.

(** A struct literal that the tokens leave open: what [parse_struct]
    raises, by the place where the tokens end or where a value fails. *)
Lemma parse_struct_unterminated p t_struct t_lbrace kvs p3 :
  token_at p 0 STRUCT t_struct -> token_at p 1 LBRACE t_lbrace ->
  struct_entries (move 2 p) kvs p3 ->
  (peek p3 = None -> exists fuel, parse_struct fuel p = Raise end_of_input)
  /\ (forall t_key,
         token_at p3 0 IDENT t_key -> peek (move 1 p3) = None ->
         exists fuel, parse_struct fuel p = Raise end_of_input)
  /\ (forall t_key t_eq e,
         token_at p3 0 IDENT t_key -> token_at p3 1 EQUAL t_eq ->
         (exists fuel, parse_value fuel (move 2 p3) = Raise e) ->
         exists fuel, parse_struct fuel p = Raise e)
  /\ (forall t_key t_eq,
         token_at p3 0 IDENT t_key -> token_at p3 1 EQUAL t_eq ->
         peek (move 2 p3) = None ->
         exists fuel, parse_struct fuel p = Raise none_has_no_type).
Proof.
  intros T1 T2 He.
  assert (Hf : 3 * remaining (move 2 p) + 3 <= 3 * remaining p + 3)
    by (unfold remaining, move; simpl; lia).
  assert (Hv : forall t_key t_eq e,
             token_at p3 0 IDENT t_key -> token_at p3 1 EQUAL t_eq ->
             (exists fuel, parse_value fuel (move 2 p3) = Raise e) ->
             exists fuel, parse_struct fuel p = Raise e).
  { intros k t e K1 K2 [f V]. exists (S (3 * remaining p + 3)).
    rewrite (parse_struct_header p t_struct t_lbrace _ T1 T2).
    rewrite (entries_then_raises _ _ _ e He); [reflexivity| |exact Hf].
    intros fuel obj Hfuel.
    apply (struct_loop_value_raises p3 k t f e fuel obj K1 K2 V Hfuel). }
  split; [|split; [|split]].
  - intro Hend. exists (S (3 * remaining p + 3)).
    rewrite (parse_struct_header p t_struct t_lbrace _ T1 T2).
    rewrite (entries_parse_struct_loop _ _ _ He); [| |exact Hf].
    + simpl. unfold consume. rewrite Hend. reflexivity.
    + unfold more_before. rewrite Hend. reflexivity.
  - intros k K1 Hend. exists (S (3 * remaining p + 3)).
    rewrite (parse_struct_header p t_struct t_lbrace _ T1 T2).
    rewrite (entries_then_raises _ _ _ end_of_input He);
      [reflexivity| |exact Hf].
    intros fuel obj Hfuel. destruct fuel as [|fuel]; [lia|].
    apply (struct_loop_key_at_end p3 k fuel obj K1 Hend).
  - exact Hv.
  - intros k t K1 K2 Hend. apply (Hv k t none_has_no_type K1 K2).
    exists 1. rewrite parse_value_S, Hend. reflexivity.
Qed.

(** ** Numbers *)

Lemma digit_cases c : is_digit c = true -> In c (lit "0123456789").
Proof.
  destruct c as [[] [] [] [] [] [] [] []]; vm_compute; intro H;
    try discriminate H;
    repeat (first [left; reflexivity | right]).
Qed.

Lemma digit_not_point c : is_digit c = true -> Ascii.eqb c "." = false.
Proof.
  intro H. apply digit_cases in H. simpl in H.
  repeat (destruct H as [<-|H]; [reflexivity|]). contradiction.
Qed.

Lemma digit_not_dash c : is_digit c = true -> Ascii.eqb c "-" = false.
Proof.
  intro H. apply digit_cases in H. simpl in H.
  repeat (destruct H as [<-|H]; [reflexivity|]). contradiction.
Qed.

(** A greedy [class*] takes a whole run of the class when the text after
    the run does not go on with it and the rest of the pattern, free of
    [\b], matches there. *)
Lemma star_takes_run p r xs rest n :
  forallb p xs = true ->
  match rest with c :: _ => p c = false | [] => True end ->
  prev_free r = true ->
  match_here r None rest = Some n ->
  forall prev, match_here (Star p :: r) prev (xs ++ rest)
               = Some (length xs + n).
Proof.
  intros Hxs Hrest Hfree Hn.
  induction xs as [|x xs IH]; intro prev; rewrite match_here_star.
  - simpl. rewrite (match_here_prev_free r Hfree prev None), Hn.
    destruct rest as [|c rest]; [reflexivity|]. rewrite Hrest. reflexivity.
  - simpl in Hxs. apply andb_prop in Hxs. destruct Hxs as [Hx Hxs].
    simpl. rewrite Hx, (IH Hxs). reflexivity.
Qed.

Lemma number_pattern_matches ip fp prev :
  forallb is_digit ip = true -> forallb is_digit fp = true -> fp <> [] ->
  match_here (star is_digit ++ chr "." ++ plus is_digit) prev
    (ip ++ lit "." ++ fp)
  = Some (length (ip ++ lit "." ++ fp)).
Proof.
  intros Hip Hfp Hne. destruct fp as [|f fp]; [contradiction|].
  simpl in Hfp. apply andb_prop in Hfp. destruct Hfp as [Hf Hfp].
  change (star is_digit ++ chr "." ++ plus is_digit)
    with (Star is_digit :: [Chr "."; Cls is_digit; Star is_digit])%char.
  rewrite (star_takes_run is_digit _ ip (lit "." ++ f :: fp) (2 + length fp)).
  - rewrite !length_app; simpl; f_equal; lia.
  - exact Hip.
  - reflexivity.
  - reflexivity.
  - pose proof (star_takes_run is_digit [] fp [] 0 Hfp I eq_refl eq_refl
                  (Some f)) as E.
    rewrite app_nil_r, Nat.add_0_r in E.
    cbn [lit String.list_ascii_of_string app match_here]. cbn. rewrite Hf.
    cbn in E. rewrite E. reflexivity.
Qed.

Lemma number_pattern_needs_point ds prev :
  forallb is_digit ds = true ->
  match_here (star is_digit ++ chr "." ++ plus is_digit) prev ds = None.
Proof.
  change (star is_digit ++ chr "." ++ plus is_digit)
    with (Star is_digit :: Chr "." :: plus is_digit)%char.
  revert prev. induction ds as [|x ds IH]; intros prev H;
    rewrite match_here_star.
  - reflexivity.
  - simpl in H. apply andb_prop in H. destruct H as [Hx Hds].
    rewrite Hx, (IH (Some x) Hds). cbn [match_here].
    rewrite (digit_not_point x Hx). reflexivity.
Qed.

Lemma span_run p xs rest :
  forallb p xs = true ->
  match rest with c :: _ => p c = false | [] => True end ->
  span p (xs ++ rest) = (xs, rest).
Proof.
  intros Hxs Hrest. induction xs as [|x xs IH]; simpl.
  - destruct rest as [|c rest]; [reflexivity|]. simpl. rewrite Hrest.
    reflexivity.
  - simpl in Hxs. apply andb_prop in Hxs. destruct Hxs as [Hx Hxs].
    rewrite Hx, (IH Hxs). reflexivity.
Qed.

Lemma float_of_decimal ip fp :
  forallb is_digit ip = true -> forallb is_digit fp = true -> fp <> [] ->
  float (ip ++ lit "." ++ fp)
  = Ok (binary64_of_decimal (decimal (ip ++ fp)) (length fp)).
Proof.
  intros Hip Hfp Hne. unfold float.
  rewrite (span_run is_digit ip (lit "." ++ fp) Hip) by reflexivity.
  cbn [lit String.list_ascii_of_string app].
  destruct fp as [|f fp]; [contradiction|]. rewrite Hfp. reflexivity.
Qed.

Lemma tokenize_one text ttype :
  text <> [] -> ttype <> SKIP ->
  first_match TOKEN_REGEX text 0 = Some (ttype, length text) ->
  tokenize text = Ok [mkToken ttype text].
Proof.
  intros Hne Hk Hm. unfold tokenize. rewrite tokenize_loop_S.
  destruct text as [|c text]; [contradiction|].
  change (0 <? length (c :: text)) with true. cbv iota. rewrite Hm.
  cbn [length]. rewrite tokenize_loop_S, Nat.ltb_irrefl.
  unfold emit, slice. destruct ttype; try contradiction; simpl;
    rewrite firstn_all; reflexivity.
Qed.

Lemma parse_tokens_number d x :
  float d = Ok x -> parse_tokens [mkToken NUMBER d] = Ok (Some (VFloat x)).
Proof.
  intro H. unfold parse_tokens, parse, parse_fuel. cbn [length Nat.mul Nat.add].
  rewrite parse_loop_S. cbn [peek Parser_init pos tokens length Nat.ltb
    Nat.leb nth_error type TokenType_eqb].
  rewrite parse_value_S. cbn [peek Parser_init pos tokens length Nat.ltb
    Nat.leb nth_error type TokenType_eqb consume bind value].
  rewrite H. cbn [bind]. rewrite parse_loop_S. reflexivity.
Qed.

Lemma decimal_literal_no_dash ip fp :
  forallb is_digit ip = true -> forallb is_digit fp = true ->
  forallb (fun c => negb (Ascii.eqb c "-")) (ip ++ lit "." ++ fp) = true.
Proof.
  intros Hip Hfp. rewrite !forallb_app.
  assert (H : forall ds, forallb is_digit ds = true ->
                forallb (fun c => negb (Ascii.eqb c "-")) ds = true).
  { intros ds Hds. rewrite forallb_forall in *. intros c Hc.
    rewrite (digit_not_dash c (Hds c Hc)). reflexivity. }
  rewrite (H ip Hip), (H fp Hfp). reflexivity.
Qed.

Lemma integer_matches_no_pattern ds :
  ds <> [] -> forallb is_digit ds = true ->
  first_match TOKEN_REGEX ds 0 = None.
Proof.
  intros Hne Hds. unfold TOKEN_REGEX, first_match, re_match.
  cbn [skipn char_before].
  rewrite (number_pattern_needs_point ds None Hds). cbn [option_map].
  destruct ds as [|c ds]; [contradiction|].
  simpl in Hds. apply andb_prop in Hds. destruct Hds as [Hc _].
  apply digit_cases in Hc. simpl in Hc.
  repeat (destruct Hc as [<-|Hc]; [reflexivity|]). contradiction.
Qed.

(** C6: a text [d] made of digits, a point and one digit or more is
    lexed as the single NUMBER token [d] and parsed to [float(d)], the
    binary64 number nearest to the decimal that [d] writes; digits alone
    match no pattern, and [tokenize] raises the SyntaxError for position
    0 on them. *)
Theorem C6_decimal_literals :
  (forall ip fp,
      forallb is_digit ip = true -> forallb is_digit fp = true -> fp <> [] ->
      let d := ip ++ lit "." ++ fp in
      tokenize d = Ok [mkToken NUMBER d]
      /\ float d = Ok (binary64_of_decimal (decimal (ip ++ fp)) (length fp))
      /\ (forall x, float d = Ok x -> main_tree d = Ok (Some (VFloat x))))
  /\ (forall ds,
         ds <> [] -> forallb is_digit ds = true ->
         first_match TOKEN_REGEX ds 0 = None
         /\ tokenize ds
            = Raise (SyntaxError (lit "Unexpected character at position 0")))
  /\ main_tree (lit ".5")
     = Ok (Some (VFloat (S754_finite false 4503599627370496 (-53))))
  /\ main_tree (lit "3.14")
     = Ok (Some (VFloat (S754_finite false 7070651414971679 (-51))))
  /\ tokenize (lit "3")
     = Raise (SyntaxError (lit "Unexpected character at position 0")).
Proof.
  split; [|split; [|split; [|split]]].
  - intros ip fp Hip Hfp Hne d.
    assert (Hd : d <> []).
    { unfold d. destruct ip; discriminate. }
    assert (Ht : tokenize d = Ok [mkToken NUMBER d]).
    { apply tokenize_one; [exact Hd|discriminate|].
      unfold TOKEN_REGEX, first_match, re_match. cbn [skipn char_before].
      unfold d. rewrite (number_pattern_matches ip fp None Hip Hfp Hne).
      reflexivity. }
    split; [exact Ht|]. split; [apply float_of_decimal; assumption|].
    intros x Hx. unfold main_tree.
    rewrite (remove_comments_no_dash d (decimal_literal_no_dash ip fp Hip Hfp)).
    rewrite Ht. cbn [bind]. apply parse_tokens_number. exact Hx.
  - intros ds Hne Hds.
    pose proof (integer_matches_no_pattern ds Hne Hds) as Hm.
    split; [exact Hm|]. unfold tokenize. rewrite tokenize_loop_S.
    destruct ds as [|c ds]; [contradiction|].
    change (0 <? length (c :: ds)) with true. cbv iota. rewrite Hm.
    reflexivity.
  - vm_compute. reflexivity.
  - vm_compute. reflexivity.
  - vm_compute. reflexivity.
Qed.

Lemma C6_witness :
  tokenize (lit "12" ++ lit "." ++ lit "50")
  = Ok [mkToken NUMBER (lit "12" ++ lit "." ++ lit "50")]
  /\ tokenize (lit "12")
     = Raise (SyntaxError (lit "Unexpected character at position 0")).
Proof.
  split.
  - refine (proj1 (proj1 C6_decimal_literals (lit "12") (lit "50")
                     eq_refl eq_refl _)).
    discriminate.
  - refine (proj2 (proj1 (proj2 C6_decimal_literals) (lit "12") _ eq_refl)).
    discriminate.
Defined.

(** ** Claims on struct literals *)

(** C7: [parse_struct] returns exactly on the token [struct], the token
    [{], any number of entries [key = value], each with or without a comma
    after it, and the token [}]; the result is the dict of the entries.
    A struct literal that the tokens leave open fails, but not always with
    a SyntaxError.  Where the tokens end after [struct], after [{], after
    an entry with or without its comma, or after a key, [consume] raises
    the SyntaxError for the end of input.  Where they end after the [=] of
    an entry, [parse_value] reads the type of the [None] that [peek]
    returned and an AttributeError is raised, which is no SyntaxError: the
    defect of C1.  What the value of an entry raises, the literal raises. *)
Theorem C7_struct_entries_with_optional_commas :
  (forall p v p',
      (exists fuel, parse_struct fuel p = Ok (v, p')) <->
      exists t_struct t_lbrace kvs p3 t_rbrace,
        token_at p 0 STRUCT t_struct /\ token_at p 1 LBRACE t_lbrace
        /\ struct_entries (move 2 p) kvs p3
        /\ token_at p3 0 RBRACE t_rbrace
        /\ v = VDict (dict_of kvs []) /\ p' = advance p3)
  /\ (forall p t_struct,
         token_at p 0 STRUCT t_struct -> peek (move 1 p) = None ->
         exists fuel, parse_struct fuel p = Raise end_of_input)
  /\ (forall p t_struct t_lbrace kvs p3,
         token_at p 0 STRUCT t_struct -> token_at p 1 LBRACE t_lbrace ->
         struct_entries (move 2 p) kvs p3 ->
         (peek p3 = None ->
          exists fuel, parse_struct fuel p = Raise end_of_input)
         /\ (forall t_key,
                token_at p3 0 IDENT t_key -> peek (move 1 p3) = None ->
                exists fuel, parse_struct fuel p = Raise end_of_input)
         /\ (forall t_key t_eq e,
                token_at p3 0 IDENT t_key -> token_at p3 1 EQUAL t_eq ->
                (exists fuel, parse_value fuel (move 2 p3) = Raise e) ->
                exists fuel, parse_struct fuel p = Raise e)
         /\ (forall t_key t_eq,
                token_at p3 0 IDENT t_key -> token_at p3 1 EQUAL t_eq ->
                peek (move 2 p3) = None ->
                exists fuel, parse_struct fuel p = Raise none_has_no_type))
  /\ (forall msg, none_has_no_type <> SyntaxError msg)
  /\ main_tree (lit "struct{a=1.0,b='x'}")
     = Ok (Some (VDict
                   [(lit "a",
                     VFloat (S754_finite false 4503599627370496 (-52)));
                    (lit "b", VStr (lit "x"))]))
  /\ main_tree (lit "struct{a=1.0,b='x',}")
     = main_tree (lit "struct{a=1.0,b='x'}")
  /\ main_tree (lit "struct{a=1.0 b='x'}")
     = main_tree (lit "struct{a=1.0,b='x'}")
  /\ main_tree (lit "struct{a=1.0,}")
     = Ok (Some (VDict
                   [(lit "a",
                     VFloat (S754_finite false 4503599627370496 (-52)))]))
  /\ main_tree (lit "struct{}") = Ok (Some (VDict []))
  /\ main_tree (lit "struct{a=1.0") = Raise end_of_input
  /\ main_tree (lit "struct{a=1.0,") = Raise end_of_input
  /\ main_tree (lit "struct{a=1.0,b") = Raise end_of_input
  /\ main_tree (lit "struct{a=") = Raise none_has_no_type
  /\ main_tree (lit "struct{a=1.0,b=") = Raise none_has_no_type
  /\ main_tree (lit "struct{a=1.0,b=struct{c=") = Raise none_has_no_type.
Proof.
  split; [|split; [|split; [|split]]].
  - apply parse_struct_entries.
  - intros p t T1 Hend. exists 1. rewrite parse_struct_S.
    rewrite (token_at_consume STRUCT p t T1). simpl.
    unfold consume. rewrite Hend. reflexivity.
  - apply parse_struct_unterminated.
  - intros msg H. discriminate H.
  - vm_compute. repeat split; reflexivity.
Qed.

Lemma C7_witness :
  exists t_struct t_lbrace kvs p3 t_rbrace,
    token_at
      (Parser_init [mkToken STRUCT (lit "struct"); mkToken LBRACE (lit "{");
                    mkToken IDENT (lit "a"); mkToken EQUAL (lit "=");
                    mkToken STRING (lit "'x'"); mkToken RBRACE (lit "}")])
      0 STRUCT t_struct
    /\ token_at
         (Parser_init [mkToken STRUCT (lit "struct"); mkToken LBRACE (lit "{");
                       mkToken IDENT (lit "a"); mkToken EQUAL (lit "=");
                       mkToken STRING (lit "'x'"); mkToken RBRACE (lit "}")])
         1 LBRACE t_lbrace
    /\ struct_entries
         (move 2
            (Parser_init [mkToken STRUCT (lit "struct");
                          mkToken LBRACE (lit "{");
                          mkToken IDENT (lit "a"); mkToken EQUAL (lit "=");
                          mkToken STRING (lit "'x'");
                          mkToken RBRACE (lit "}")])) kvs p3
    /\ token_at p3 0 RBRACE t_rbrace
    /\ VDict [(lit "a", VStr (lit "x"))] = VDict (dict_of kvs [])
    /\ mkParser [mkToken STRUCT (lit "struct"); mkToken LBRACE (lit "{");
                 mkToken IDENT (lit "a"); mkToken EQUAL (lit "=");
                 mkToken STRING (lit "'x'"); mkToken RBRACE (lit "}")] 6 []
       = advance p3.
Proof.
  apply (proj1 (proj1 C7_struct_entries_with_optional_commas _ _ _)).
  exists 10. reflexivity.
Defined.

(** C10: a struct literal may give a key more than once; the call
    returns, and in the dict every key has the value of its last entry. *)
Theorem C10_duplicate_key_takes_last_value :
  (forall p t_struct t_lbrace kvs p3 t_rbrace,
      token_at p 0 STRUCT t_struct -> token_at p 1 LBRACE t_lbrace ->
      struct_entries (move 2 p) kvs p3 -> token_at p3 0 RBRACE t_rbrace ->
      exists fuel obj,
        parse_struct fuel p = Ok (VDict obj, advance p3)
        /\ forall k, dict_get obj k = last_entry k kvs)
  /\ (forall kvs k v, last_entry k (kvs ++ [(k, v)]) = Some v)
  /\ main_tree (lit "struct{a=1.0,a=2.0}")
     = Ok (Some (VDict
                   [(lit "a",
                     VFloat (S754_finite false 4503599627370496 (-51)))])).
Proof.
  split; [|split].
  - intros p t t1 kvs p3 t' T1 T2 He T3.
    destruct (proj2 (parse_struct_entries p (VDict (dict_of kvs []))
                       (advance p3))) as [fuel H].
    { exists t, t1, kvs, p3, t'. auto 10. }
    exists fuel, (dict_of kvs []). split; [exact H|].
    intro k. rewrite dict_get_dict_of. reflexivity.
  - intros kvs k v. unfold last_entry. rewrite fold_left_app. simpl.
    rewrite str_eqb_refl. reflexivity.
  - vm_compute. reflexivity.
Qed.

Lemma C10_witness :
  exists fuel obj,
    parse_struct fuel
      (Parser_init [mkToken STRUCT (lit "struct"); mkToken LBRACE (lit "{");
                    mkToken IDENT (lit "a"); mkToken EQUAL (lit "=");
                    mkToken STRING (lit "'x'"); mkToken COMMA (lit ",");
                    mkToken IDENT (lit "a"); mkToken EQUAL (lit "=");
                    mkToken STRING (lit "'y'"); mkToken RBRACE (lit "}")])
    = Ok (VDict obj,
          advance
            (mkParser
               [mkToken STRUCT (lit "struct"); mkToken LBRACE (lit "{");
                mkToken IDENT (lit "a"); mkToken EQUAL (lit "=");
                mkToken STRING (lit "'x'"); mkToken COMMA (lit ",");
                mkToken IDENT (lit "a"); mkToken EQUAL (lit "=");
                mkToken STRING (lit "'y'"); mkToken RBRACE (lit "}")] 9 []))
    /\ forall k,
         dict_get obj k
         = last_entry k [(lit "a", VStr (lit "x")); (lit "a", VStr (lit "y"))].
Proof.
  apply (proj1 C10_duplicate_key_takes_last_value _
           (mkToken STRUCT (lit "struct")) (mkToken LBRACE (lit "{"))
           [(lit "a", VStr (lit "x")); (lit "a", VStr (lit "y"))]
           _ (mkToken RBRACE (lit "}"))).
  - split; reflexivity.
  - split; reflexivity.
  - eapply (entries_cons _ (mkToken IDENT (lit "a")) (mkToken EQUAL (lit "="))
              (VStr (lit "x")) (mkParser _ 5 [])).
    + split; reflexivity.
    + split; reflexivity.
    + exists 1. reflexivity.
    + eapply (entries_cons _ (mkToken IDENT (lit "a"))
                (mkToken EQUAL (lit "=")) (VStr (lit "y"))
                (mkParser _ 9 [])).
      * split; reflexivity.
      * split; reflexivity.
      * exists 1. reflexivity.
      * apply entries_nil.
  - split; reflexivity.
Defined.

(** ** End of input where a value must follow *)

Lemma parse_value_at_end fuel p :
  peek p = None -> parse_value (S fuel) p = Raise none_has_no_type.
Proof. intro H. rewrite parse_value_S, H. reflexivity. Qed.

Lemma consume_at_end expected p :
  peek p = None -> consume expected p = Raise end_of_input.
Proof. intro H. unfold consume. rewrite H. reflexivity. Qed.

(** C1 does not hold of the code: where the tokens end and a value must
    follow, as after [set x =] or [struct{a=], [parse_value] reads the type
    of the [None] that [peek] returned, and what is raised is an
    AttributeError, which is no SyntaxError; [consume], at the end of the
    input, raises the SyntaxError that the claim names. *)
Theorem C1_end_of_input_where_a_value_must_follow :
  parse_tokens [mkToken SET (lit "set"); mkToken IDENT (lit "x");
                mkToken EQUAL (lit "=")]
  = Raise none_has_no_type
  /\ main_tree (lit "set x =") = Raise none_has_no_type
  /\ main_tree (lit "struct{a=") = Raise none_has_no_type
  /\ (forall msg, none_has_no_type <> SyntaxError msg)
  /\ main_tree (lit "struct{a=1.0") = Raise end_of_input
  /\ main_tree (lit "set x") = Raise end_of_input.
Proof.
  vm_compute. repeat split; try reflexivity. intros msg H. discriminate H.
Qed.

(** * Further properties *)

(** ** List literals *)

(** A value begins with a token of one of five types. *)
Lemma parse_value_starts fuel p v p' :
  parse_value fuel p = Ok (v, p') ->
  exists tok, peek p = Some tok /\ starts_value (type tok) = true.
Proof.
  destruct fuel as [|fuel]; [discriminate|]. rewrite parse_value_S.
  destruct (peek p) as [tok|]; [|discriminate].
  intro H. exists tok. split; [reflexivity|].
  destruct (type tok); try discriminate; reflexivity.
Qed.

Lemma returns_value_more_before p v p' closing :
  returns_value p v p' -> starts_value closing = false ->
  more_before closing p = true.
Proof.
  intros [fuel H] Hc. apply parse_value_starts in H.
  destruct H as (tok & Hp & Hs). unfold more_before. rewrite Hp.
  destruct (type tok), closing; try discriminate; reflexivity.
Qed.

(** The loop of [parse_list] reads values up to a token that is [)] or
    up to the end, and appends them in order. *)
Lemma parse_list_loop_items fuel :
  forall p items items' p',
    parse_list_loop fuel p items = Ok (items', p') ->
    exists vs,
      list_items p vs p' /\ more_before RPAREN p' = false
      /\ items' = items ++ vs.
Proof.
  induction fuel as [|fuel IH]; intros p items items' p' H; [discriminate|].
  rewrite parse_list_loop_S in H.
  destruct (more_before RPAREN p) eqn:Hm.
  - destruct (parse_value fuel p) as [[v p1]| |] eqn:V; try discriminate.
    simpl in H. destruct (IH _ _ _ _ H) as (vs & Hi & Hend & ->).
    exists (v :: vs). split; [|split]; auto.
    + apply (items_cons p v p1 vs p'); [exists fuel; exact V|exact Hi].
    + rewrite <- app_assoc. reflexivity.
  - inversion H; subst. exists []. split; [constructor|].
    split; [exact Hm|]. rewrite app_nil_r. reflexivity.
Qed.

Lemma items_parse_list_loop p vs p' :
  list_items p vs p' ->
  more_before RPAREN p' = false ->
  forall fuel items,
    3 * remaining p + 3 <= fuel ->
    parse_list_loop fuel p items = Ok (items ++ vs, p').
Proof.
  induction 1 as [p|p v p1 vs p' R Hi IH]; intros Hend fuel items Hf;
    (destruct fuel as [|fuel]; [lia|]); rewrite parse_list_loop_S.
  - rewrite Hend, app_nil_r. reflexivity.
  - rewrite (returns_value_more_before p v p1 RPAREN R eq_refl).
    rewrite (returns_value_with fuel p v p1 R) by lia. simpl.
    destruct R as [f R]. apply parse_value_remaining in R.
    rewrite (IH Hend fuel (items ++ [v])) by lia.
    rewrite <- app_assoc. reflexivity.
Qed.

(** X1: [parse_list] returns exactly on ['(list' Value* ')']: the token
    [(list], any number of values with nothing between them, and the token
    [)]; the result is the list of the values in the order of the text,
    the cursor after the [)].  [parse_value] on a LIST token is this
    call. *)
Theorem X1_list_is_values_in_order :
  (forall p v p',
      (exists fuel, parse_list fuel p = Ok (v, p')) <->
      exists t_list vs p2 t_rparen,
        token_at p 0 LIST t_list
        /\ list_items (move 1 p) vs p2
        /\ token_at p2 0 RPAREN t_rparen
        /\ v = VList vs /\ p' = advance p2)
  /\ (forall fuel p tok,
         peek p = Some tok -> type tok = LIST ->
         parse_value (S fuel) p = parse_list fuel p).
Proof.
  split.
  - intros p v p'. split.
    + intros [[|fuel] H]; [discriminate|]. rewrite parse_list_S in H.
      destruct (consume (Some LIST) p) as [[t p1]| |] eqn:C1;
        try discriminate. simpl in H.
      destruct (parse_list_loop fuel p1 []) as [[items p2]| |] eqn:L;
        try discriminate. simpl in H.
      destruct (consume (Some RPAREN) p2) as [[t' p3]| |] eqn:C2;
        try discriminate. inversion H; subst v p'.
      apply consume_token_at in C1. destruct C1 as [T1 ->].
      apply consume_token_at in C2. destruct C2 as [T2 ->].
      apply parse_list_loop_items in L. destruct L as (vs & Hi & _ & ->).
      exists t, vs, p2, t'. simpl. auto 6.
    + intros (t & vs & p2 & t' & T1 & Hi & T2 & -> & ->).
      exists (S (3 * remaining p + 3)). rewrite parse_list_S.
      rewrite (token_at_consume LIST p t T1). simpl.
      rewrite (items_parse_list_loop _ _ _ Hi).
      * simpl. rewrite (token_at_consume RPAREN p2 t' T2). reflexivity.
      * rewrite (more_before_token_at p2 RPAREN RPAREN t' T2). reflexivity.
      * unfold remaining, move. simpl. lia.
  - intros fuel p tok Hp Ht. rewrite parse_value_S, Hp, Ht. reflexivity.
Qed.

Lemma X1_witness :
  exists t_list vs p2 t_rparen,
    token_at
      (Parser_init [mkToken LIST (lit "(list"); mkToken STRING (lit "'a'");
                    mkToken LIST (lit "(list"); mkToken RPAREN (lit ")");
                    mkToken RPAREN (lit ")")]) 0 LIST t_list
    /\ list_items
         (move 1
            (Parser_init [mkToken LIST (lit "(list");
                          mkToken STRING (lit "'a'");
                          mkToken LIST (lit "(list");
                          mkToken RPAREN (lit ")");
                          mkToken RPAREN (lit ")")])) vs p2
    /\ token_at p2 0 RPAREN t_rparen
    /\ VList [VStr (lit "a"); VList []] = VList vs
    /\ mkParser [mkToken LIST (lit "(list"); mkToken STRING (lit "'a'");
                 mkToken LIST (lit "(list"); mkToken RPAREN (lit ")");
                 mkToken RPAREN (lit ")")] 5 []
       = advance p2.
Proof.
  apply (proj1 (proj1 X1_list_is_values_in_order _ _ _)).
  exists 10. reflexivity.
Defined.

(** X2: a list literal takes no separator and must be closed.  After
    ['(list'] and some values, at the end of the tokens [parse_list]
    raises the SyntaxError for the end of input, and before a token that
    is neither [)] nor the beginning of a value, a comma for one, it
    raises the SyntaxError that names the type of that token. *)
Theorem X2_list_unclosed_or_separated p t_list vs p2 :
  token_at p 0 LIST t_list ->
  list_items (move 1 p) vs p2 ->
  (peek p2 = None -> exists fuel, parse_list fuel p = Raise end_of_input)
  /\ (forall tok,
         peek p2 = Some tok ->
         type tok <> RPAREN -> starts_value (type tok) = false ->
         exists fuel,
           parse_list fuel p
           = Raise (SyntaxError
                      (lit "Unexpected token " ++ type_name (type tok)))).
Proof.
  intros T1 Hi.
  assert (Hpre : forall fuel,
             parse_list (S fuel) p
             = ('(items, q) <- parse_list_loop fuel (move 1 p) [] ;;
                '(_, q') <- consume (Some RPAREN) q ;;
                Ok (VList items, q'))).
  { intro fuel. rewrite parse_list_S, (token_at_consume LIST p t_list T1).
    reflexivity. }
  split.
  - intro Hend. exists (S (3 * remaining p + 3)). rewrite Hpre.
    rewrite (items_parse_list_loop _ _ _ Hi).
    + simpl. unfold consume. rewrite Hend. reflexivity.
    + unfold more_before. rewrite Hend. reflexivity.
    + unfold remaining, move. simpl. lia.
  - intros tok Hp Hn Hs.
    (* the loop goes on at [p2] and asks [parse_value] for one more value *)
    assert (Hgo : forall q ws q',
               list_items q ws q' ->
               peek q' = Some tok ->
               forall fuel items,
                 3 * remaining q + 4 <= fuel ->
                 parse_list_loop fuel q items
                 = Raise (SyntaxError
                            (lit "Unexpected token "
                             ++ type_name (type tok)))).
    { clear Hp. induction 1 as [q|q v q1 ws q' R Hi' IH];
        intros Hp fuel items Hf.
      - destruct fuel as [|[|fuel]]; try lia.
        rewrite parse_list_loop_S. unfold more_before. rewrite Hp.
        destruct (TokenType_eqb (type tok) RPAREN) eqn:E;
          [apply TokenType_eqb_eq in E; contradiction|].
        cbn [negb]. rewrite parse_value_S, Hp.
        destruct (type tok); try discriminate; reflexivity.
      - destruct fuel as [|fuel]; [lia|]. rewrite parse_list_loop_S.
        rewrite (returns_value_more_before q v q1 RPAREN R eq_refl).
        rewrite (returns_value_with fuel q v q1 R) by lia. simpl.
        destruct R as [f R]. apply parse_value_remaining in R.
        apply IH; [exact Hp|lia]. }
    exists (S (3 * remaining p + 4)). rewrite Hpre.
    rewrite (Hgo _ _ _ Hi Hp); [reflexivity|].
    unfold remaining, move. simpl. lia.
Qed.

Lemma X2_witness :
  exists fuel,
    parse_list fuel
      (Parser_init [mkToken LIST (lit "(list"); mkToken STRING (lit "'a'");
                    mkToken COMMA (lit ","); mkToken STRING (lit "'b'");
                    mkToken RPAREN (lit ")")])
    = Raise (SyntaxError (lit "Unexpected token COMMA")).
Proof.
  refine (proj2 (X2_list_unclosed_or_separated
                   (Parser_init [mkToken LIST (lit "(list");
                                 mkToken STRING (lit "'a'");
                                 mkToken COMMA (lit ",");
                                 mkToken STRING (lit "'b'");
                                 mkToken RPAREN (lit ")")])
                   (mkToken LIST (lit "(list")) [VStr (lit "a")]
                   (mkParser _ 2 []) _ _) (mkToken COMMA (lit ",")) _ _ _).
  - split; reflexivity.
  - eapply items_cons; [exists 1; reflexivity|apply items_nil].
  - reflexivity.
  - discriminate.
  - reflexivity.
Defined.

(** ** Lexemes *)

Lemma lang_star_cons (p : ascii -> bool) r x w :
  p x = true -> lang (Star p :: r) w -> lang (Star p :: r) (x :: w).
Proof.
  intros Hx H. inversion H as [| | |p0 r0 xs w0 Hxs Hw| |]; subst.
  apply (lang_star p r (x :: xs) w0); [|exact Hw].
  simpl. rewrite Hx. exact Hxs.
Qed.

Lemma lang_lazy_cons (p : ascii -> bool) r x w :
  p x = true -> lang (LazyStar p :: r) w -> lang (LazyStar p :: r) (x :: w).
Proof.
  intros Hx H. inversion H as [| | | |p0 r0 xs w0 Hxs Hw|]; subst.
  apply (lang_lazy p r (x :: xs) w0); [|exact Hw].
  simpl. rewrite Hx. exact Hxs.
Qed.

(** What the matcher takes is a word of the pattern. *)
Lemma match_here_lang (r : regex) :
  forall prev s n, match_here r prev s = Some n -> lang r (firstn n s).
Proof.
  induction r as [|a r IH]; intros prev s n H.
  - inversion H. constructor.
  - destruct a as [c|p|p|p|].
    + simpl in H. destruct s as [|x s']; [discriminate|].
      destruct (Ascii.eqb_spec x c) as [->|]; [|discriminate].
      destruct (match_here r (Some c) s') as [m|] eqn:E; [|discriminate].
      inversion H; subst. simpl. constructor. eapply IH; eauto.
    + simpl in H. destruct s as [|x s']; [discriminate|].
      destruct (p x) eqn:Hx; [|discriminate].
      destruct (match_here r (Some x) s') as [m|] eqn:E; [|discriminate].
      inversion H; subst. simpl. constructor; [exact Hx|]. eapply IH; eauto.
    + revert prev n H. induction s as [|x s' IHs]; intros prev n H;
        rewrite match_here_star in H.
      * apply IH in H. apply (lang_star p r [] _ eq_refl H).
      * destruct (p x) eqn:Hx.
        -- destruct (match_here (Star p :: r) (Some x) s') as [m|] eqn:E.
           ++ inversion H; subst. simpl. apply lang_star_cons; [exact Hx|].
              eapply IHs; eauto.
           ++ apply IH in H. apply (lang_star p r [] _ eq_refl H).
        -- apply IH in H. apply (lang_star p r [] _ eq_refl H).
    + revert prev n H. induction s as [|x s' IHs]; intros prev n H;
        rewrite match_here_lazy in H.
      * destruct (match_here r prev []) as [m|] eqn:E; [|discriminate].
        inversion H; subst. apply IH in E.
        apply (lang_lazy p r [] _ eq_refl E).
      * destruct (match_here r prev (x :: s')) as [m|] eqn:E.
        -- inversion H; subst. apply IH in E.
           apply (lang_lazy p r [] _ eq_refl E).
        -- destruct (p x) eqn:Hx; [|discriminate].
           destruct (match_here (LazyStar p :: r) (Some x) s') as [m|] eqn:E2;
             [|discriminate].
           inversion H; subst. simpl. apply lang_lazy_cons; [exact Hx|].
           eapply IHs; eauto.
    + simpl in H.
      destruct (xorb (is_word_opt prev) (is_word_opt (hd_error s)));
        [|discriminate].
      constructor. eapply IH; eauto.
Qed.

(** Inversion of [lang], one atom at a time. *)
Ltac lang_inv H :=
  repeat match type of H with
    | lang [] _ => inversion H; subst; clear H
    | lang (Chr _ :: _) _ =>
        let H' := fresh "L" in
        inversion H as [|? ? ? H'| | | |]; subst; clear H; rename H' into H
    | lang (Cls _ :: _) _ =>
        let H' := fresh "L" in let Hc := fresh "Hc" in
        inversion H as [| |? ? ? ? Hc H'| | |]; subst; clear H;
        rename H' into H
    | lang (Star _ :: _) _ =>
        let H' := fresh "L" in let Hs := fresh "Hs" in
        inversion H as [| | |? ? ? ? Hs H'| |]; subst; clear H;
        rename H' into H
    | lang (WordB :: _) _ =>
        let H' := fresh "L" in
        inversion H as [| | | | |? ? H']; subst; clear H; rename H' into H
    end.

(** The words of the patterns of the table. *)
Lemma TOKEN_REGEX_shapes ttype r w :
  In (ttype, r) TOKEN_REGEX -> lang r w -> w <> [] ->
  match ttype with
  | SKIP => forallb is_blank w = true
  | _ => lexeme_shape ttype w
  end.
Proof.
  intros Hin L Hne. unfold TOKEN_REGEX in Hin. simpl in Hin.
  repeat (destruct Hin as [Hin|Hin];
          [inversion Hin; subst ttype r; clear Hin;
           unfold plus, chr, cls, star, wordb, word in L; cbn in L;
           lang_inv L|]);
    try contradiction; try reflexivity.
  - exists xs, (x :: xs0). rewrite app_nil_r. simpl. rewrite Hc, Hs0.
    repeat split; auto. discriminate.
  - exists xs. auto.
  - exists x, xs. auto.
  - exists x, xs. rewrite app_nil_r. auto.
  - rewrite app_nil_r. simpl. rewrite Hc, Hs. reflexivity.
Qed.

Lemma firstn_plus {A : Type} (a b : nat) (l : list A) :
  firstn (a + b) l = firstn a l ++ firstn b (skipn a l).
Proof.
  revert l. induction a as [|a IH]; intro l; [reflexivity|].
  destruct l as [|x l]; simpl; [destruct b; reflexivity|].
  rewrite IH. reflexivity.
Qed.

(** What one turn of the loop of [tokenize] takes from the text. *)
Lemma first_match_slice text pos ttype e :
  first_match TOKEN_REGEX text pos = Some (ttype, e) ->
  slice text pos e <> []
  /\ firstn pos text ++ slice text pos e = firstn e text
  /\ match ttype with
     | SKIP => forallb is_blank (slice text pos e) = true
     | _ => lexeme_shape ttype (slice text pos e)
     end.
Proof.
  intro H. pose proof (first_match_progress _ _ _ _ H) as Hp.
  apply first_match_in in H. destruct H as (r & Hin & Hm).
  unfold re_match in Hm.
  destruct (match_here r (char_before text pos) (skipn pos text)) as [n|] eqn:E;
    [|discriminate].
  inversion Hm; subst e. apply match_here_lang in E.
  unfold slice. replace (pos + n - pos) with n by lia.
  assert (Hne : firstn n (skipn pos text) <> []).
  { intro Hnil. apply (f_equal (@Datatypes.length ascii)) in Hnil.
    rewrite length_firstn, length_skipn in Hnil. simpl in Hnil. lia. }
  split; [exact Hne|]. split; [symmetry; apply firstn_plus|].
  apply (TOKEN_REGEX_shapes ttype r _ Hin E Hne).
Qed.

Lemma tokens_of_app pieces pieces' :
  tokens_of (pieces ++ pieces') = tokens_of pieces ++ tokens_of pieces'.
Proof. unfold tokens_of. rewrite filter_app, map_app. reflexivity. Qed.

Lemma emit_tokens_of pieces ttype text pos e :
  emit (tokens_of pieces) ttype text pos e
  = tokens_of (pieces ++ [(ttype, slice text pos e)]).
Proof.
  unfold emit, tokens_of. rewrite filter_app, map_app. simpl.
  destruct (TokenType_eqb ttype SKIP); simpl; [rewrite app_nil_r|];
    reflexivity.
Qed.

(** The loop of [tokenize] cuts the text into matches, one after the
    other, and keeps those that are not SKIP. *)
Lemma tokenize_loop_pieces fuel :
  forall text pos pieces res,
    pos <= length text ->
    List.concat (map snd pieces) = firstn pos text ->
    Forall piece_ok pieces ->
    Forall (fun tw => fst tw <> SKIP -> lexeme_shape (fst tw) (snd tw))
      pieces ->
    tokenize_loop fuel text pos (tokens_of pieces) = Ok res ->
    exists pieces',
      List.concat (map snd pieces') = text /\ tokens_of pieces' = res
      /\ Forall piece_ok pieces'
      /\ Forall (fun tw => fst tw <> SKIP -> lexeme_shape (fst tw) (snd tw))
           pieces'.
Proof.
  induction fuel as [|fuel IH]; intros text pos pieces res Hle Hc Hok Hsh H;
    [discriminate|].
  rewrite tokenize_loop_S in H.
  destruct (pos <? length text) eqn:E.
  - destruct (first_match TOKEN_REGEX text pos) as [[ttype e]|] eqn:M;
      [|discriminate].
    pose proof (first_match_progress _ _ _ _ M) as Hp.
    destruct (first_match_slice _ _ _ _ M) as (Hne & Hcat & Hshape).
    rewrite emit_tokens_of in H.
    apply (IH text e (pieces ++ [(ttype, slice text pos e)]) res);
      [lia| | | |exact H].
    + rewrite map_app, concat_app. simpl. rewrite app_nil_r, Hc. exact Hcat.
    + apply Forall_app. split; [exact Hok|]. constructor; [|constructor].
      split; [exact Hne|]. simpl. intros ->. exact Hshape.
    + apply Forall_app. split; [exact Hsh|]. constructor; [|constructor].
      simpl. intro Hk. destruct ttype; try exact Hshape. contradiction.
  - apply Nat.ltb_ge in E. inversion H; subst res. exists pieces.
    rewrite firstn_all2 in Hc by exact E. auto.
Qed.



Lemma tokens_of_shapes pieces :
  Forall (fun tw => fst tw <> SKIP -> lexeme_shape (fst tw) (snd tw)) pieces ->
  Forall (fun t => lexeme_shape (type t) (value t)) (tokens_of pieces).
Proof.
  unfold tokens_of. induction 1 as [|[ttype w] pieces Hx Hall IH]; simpl.
  - constructor.
  - destruct (TokenType_eqb ttype SKIP) eqn:E; simpl; [exact IH|].
    constructor; [|exact IH]. simpl. apply Hx. simpl. intros ->. discriminate.
Qed.

Lemma tokenize_shapes text toks :
  tokenize text = Ok toks ->
  Forall (fun t => lexeme_shape (type t) (value t)) toks.
Proof.
  intro H. unfold tokenize in H.
  destruct (tokenize_loop_pieces (S (length text)) text 0 [] toks)
    as (pieces & _ & <- & _ & Hsh); auto; try lia.
  apply tokens_of_shapes. exact Hsh.
Qed.

Lemma strip_delimited c s :
  forallb (fun x => negb (Ascii.eqb x c)) s = true ->
  strip c ([c] ++ s ++ [c]) = s.
Proof.
  intro Hb. unfold strip, rstrip. cbn [app lstrip]. rewrite Ascii.eqb_refl.
  destruct s as [|x s].
  - simpl. rewrite Ascii.eqb_refl. reflexivity.
  - pose proof Hb as Hx. simpl in Hx. apply andb_prop in Hx.
    destruct Hx as [Hx _]. apply negb_true_iff in Hx.
    cbn [app lstrip]. rewrite Hx.
    change (x :: s ++ [c]) with ((x :: s) ++ [c]).
    rewrite rev_unit. cbn [lstrip]. rewrite Ascii.eqb_refl.
    rewrite lstrip_none; [apply rev_involutive|].
    rewrite forallb_forall in *. intros y Hy. apply Hb.
    apply in_rev. exact Hy.
Qed.

Lemma not_quote_neq s :
  forallb not_quote s = true ->
  forallb (fun x => negb (Ascii.eqb x "'")) s = true.
Proof.
  intro H. rewrite forallb_forall in *. intros x Hx. specialize (H x Hx).
  unfold not_quote, code in H. apply negb_true_iff in H.
  apply negb_true_iff. destruct (Ascii.eqb_spec x "'"); [subst x|reflexivity].
  discriminate.
Qed.

(** X4: every token that [tokenize] returns has a text of the form of its
    type, and none is a SKIP: a NUMBER is digits, a point and one digit or
    more, and [float] converts it; a STRING is a text without quote between
    two quotes, and stripping the quotes gives that text; a CONST is a name
    between two bars, and stripping the bars gives the name; the keywords
    and signs are their literal. *)
Theorem X4_lexemes_have_the_form_of_their_type text toks :
  tokenize text = Ok toks ->
  Forall
    (fun t =>
       lexeme_shape (type t) (value t)
       /\ (type t = NUMBER -> exists x, float (value t) = Ok x)
       /\ (type t = STRING ->
           exists s, value t = lit "'" ++ s ++ lit "'"
                     /\ strip "'" (value t) = s)
       /\ (type t = CONST ->
           exists name, value t = lit "|" ++ name ++ lit "|"
                        /\ strip "|" (value t) = name))
    toks.
Proof.
  intro H. apply tokenize_shapes in H.
  eapply Forall_impl; [|exact H]. intros [ttype w] Hs. simpl in *.
  split; [exact Hs|]. split; [|split]; intros ->; simpl in Hs.
  - destruct Hs as (ip & fp & -> & Hip & Hfp & Hne).
    eexists. apply float_of_decimal; assumption.
  - destruct Hs as (s & -> & Hq). exists s. split; [reflexivity|].
    apply (strip_delimited "'" s). apply not_quote_neq, Hq.
  - destruct Hs as (c & name & -> & Hc & Hn). exists (c :: name).
    split; [reflexivity|]. apply (strip_bars (c :: name)). simpl.
    rewrite Hn. unfold is_ident_char. rewrite Hc. reflexivity.
Qed.

Lemma X4_witness :
  Forall
    (fun t =>
       lexeme_shape (type t) (value t)
       /\ (type t = NUMBER -> exists x, float (value t) = Ok x)
       /\ (type t = STRING ->
           exists s, value t = lit "'" ++ s ++ lit "'"
                     /\ strip "'" (value t) = s)
       /\ (type t = CONST ->
           exists name, value t = lit "|" ++ name ++ lit "|"
                        /\ strip "|" (value t) = name))
    [mkToken CONST (lit "|x|"); mkToken NUMBER (lit ".5")].
Proof.
  apply (X4_lexemes_have_the_form_of_their_type (lit "|x| .5")).
  reflexivity.
Defined.

(** ** Blank and empty texts *)

Lemma blank_cases c :
  is_blank c = true -> c = " "%char \/ c = "009"%char \/ c = "010"%char.
Proof.
  destruct c as [[] [] [] [] [] [] [] []]; vm_compute; intro H;
    try discriminate H; auto.
Qed.

Lemma blanks_are_one_skip c rest :
  forallb is_blank (c :: rest) = true ->
  first_match TOKEN_REGEX (c :: rest) 0 = Some (SKIP, S (length rest)).
Proof.
  intro H. simpl in H. apply andb_prop in H. destruct H as [Hc Hrest].
  assert (Hskip : match_here (plus is_blank) None (c :: rest)
                  = Some (S (length rest))).
  { pose proof (star_takes_run is_blank [] rest [] 0 Hrest I eq_refl eq_refl
                  (Some c)) as E.
    rewrite app_nil_r, Nat.add_0_r in E.
    change (match_here (plus is_blank) None (c :: rest))
      with (if is_blank c
            then option_map S (match_here [Star is_blank] (Some c) rest)
            else None).
    rewrite Hc, E. reflexivity. }
  unfold TOKEN_REGEX, first_match, re_match. cbn [skipn char_before].
  rewrite Hskip.
  destruct (blank_cases c Hc) as [->|[->| ->]]; reflexivity.
Qed.

Lemma tokens_of_nil pieces :
  tokens_of pieces = [] -> Forall (fun tw => fst tw = SKIP) pieces.
Proof.
  unfold tokens_of. induction pieces as [|[ttype w] pieces IH]; simpl;
    intro H; [constructor|].
  destruct (TokenType_eqb ttype SKIP) eqn:E; simpl in H; [|discriminate].
  constructor; [apply TokenType_eqb_eq, E|apply IH, H].
Qed.

Lemma blank_no_dash text :
  forallb is_blank text = true ->
  forallb (fun c => negb (Ascii.eqb c "-")) text = true.
Proof.
  intro H. rewrite forallb_forall in *. intros c Hc.
  destruct (blank_cases c (H c Hc)) as [->|[->| ->]]; reflexivity.
Qed.

(** X5: [tokenize] returns no token exactly on the texts made of blanks,
    tabs and newlines, the empty text among them; such an input parses to
    [None]. *)
Theorem X5_no_token_iff_blank text :
  (forallb is_blank text = true <-> tokenize text = Ok [])
  /\ (forallb is_blank text = true -> main_tree text = Ok None).
Proof.
  assert (Hto : forallb is_blank text = true -> tokenize text = Ok []).
  { intro H. destruct text as [|c rest]; [reflexivity|].
    unfold tokenize. rewrite tokenize_loop_S.
    change (0 <? length (c :: rest)) with true. cbv iota.
    rewrite (blanks_are_one_skip c rest H).
    cbn [length]. rewrite tokenize_loop_S, Nat.ltb_irrefl. reflexivity. }
  split; [split; [exact Hto|]|].
  - intro H. unfold tokenize in H.
    destruct (tokenize_loop_pieces (S (length text)) text 0 [] [])
      as (pieces & Hc & Ht & Hok & _); auto; try lia.
    apply tokens_of_nil in Ht. subst text. clear H Hto.
    induction pieces as [|[ttype w] pieces IH]; [reflexivity|].
    inversion Ht as [|? ? Hk Ht']; subst. inversion Hok as [|? ? Hw Hok']; subst.
    simpl. rewrite forallb_app. rewrite (IH Ht' Hok').
    destruct Hw as [_ Hw]. simpl in *. rewrite (Hw Hk). reflexivity.
  - intro H. unfold main_tree.
    rewrite (remove_comments_no_dash text (blank_no_dash text H)).
    rewrite (Hto H). reflexivity.
Qed.

Lemma X5_witness :
  main_tree (lit "
     ") = Ok None.
Proof.
  apply (proj2 (X5_no_token_iff_blank (lit "
     "))).
  reflexivity.
Defined.

(** ** String literals *)

Lemma string_is_one_token s :
  forallb not_quote s = true ->
  first_match TOKEN_REGEX (lit "'" ++ s ++ lit "'") 0
  = Some (STRING, length (lit "'" ++ s ++ lit "'")).
Proof.
  intro H.
  assert (Hs : match_here (chr "'" ++ star not_quote ++ chr "'") None
                 (lit "'" ++ s ++ lit "'")
               = Some (S (length s + 1))).
  { change (chr "'" ++ star not_quote ++ chr "'")
      with [Chr "'"; Star not_quote; Chr "'"]%char.
    change (lit "'" ++ s ++ lit "'") with ("'"%char :: s ++ ["'"%char]).
    change (match_here [Chr "'"; Star not_quote; Chr "'"]%char None
              ("'"%char :: s ++ ["'"%char]))
      with (option_map S
              (match_here [Star not_quote; Chr "'"]%char (Some "'"%char)
                 (s ++ ["'"%char]))).
    rewrite (star_takes_run not_quote [Chr "'"%char] s ["'"%char] 1);
      auto. }
  unfold TOKEN_REGEX, first_match, re_match. cbn [skipn char_before].
  rewrite Hs.
  change (lit "'" ++ s ++ lit "'") with ("'"%char :: s ++ ["'"%char]).
  cbn [length]. rewrite length_app. cbn. reflexivity.
Qed.

Lemma no_opener_with_quote s :
  forall n,
    occurs_before (lit "--[[") n s = false ->
    occurs_before (lit "--[[") n (s ++ lit "'") = false.
Proof.
  induction s as [|c s IH]; intros n Ho.
  - destruct n as [|[|n]]; reflexivity.
  - destruct n as [|n]; [reflexivity|].
    cbn [app occurs_before] in *.
    apply orb_false_iff in Ho. destruct Ho as [Hs Ho].
    apply orb_false_iff. split; [|apply IH, Ho].
    clear IH Ho. destruct s as [|c1 [|c2 [|c3 s]]]; cbn in *;
      repeat match goal with
        | |- context [Ascii.eqb ?x ?y] =>
            destruct (Ascii.eqb x y) eqn:?; cbn in *
        end; try reflexivity; try discriminate; congruence.
Qed.

(** X6: for every text [s] without quote, the literal ['s'] is lexed as
    one STRING token and parsed to the str [s] itself, character for
    character, with no escape read in it, the empty text included; the
    whole pipeline gives the same when [s] holds no [--[[]. *)
Theorem X6_string_literal_gives_its_content s :
  forallb not_quote s = true ->
  tokenize (lit "'" ++ s ++ lit "'")
  = Ok [mkToken STRING (lit "'" ++ s ++ lit "'")]
  /\ parse_tokens [mkToken STRING (lit "'" ++ s ++ lit "'")]
     = Ok (Some (VStr s))
  /\ (occurs_before (lit "--[[") (length s) s = false ->
      main_tree (lit "'" ++ s ++ lit "'") = Ok (Some (VStr s))).
Proof.
  intro H.
  assert (Ht : tokenize (lit "'" ++ s ++ lit "'")
               = Ok [mkToken STRING (lit "'" ++ s ++ lit "'")]).
  { apply tokenize_one; [discriminate|discriminate|].
    apply string_is_one_token, H. }
  assert (Hp : parse_tokens [mkToken STRING (lit "'" ++ s ++ lit "'")]
               = Ok (Some (VStr s))).
  { unfold parse_tokens, parse, parse_fuel. cbn [length Nat.mul Nat.add].
    rewrite parse_loop_S. cbn [peek Parser_init pos tokens length Nat.ltb
      Nat.leb nth_error type TokenType_eqb].
    rewrite parse_value_S. cbn [peek Parser_init pos tokens length Nat.ltb
      Nat.leb nth_error type TokenType_eqb consume bind value].
    rewrite parse_loop_S.
    change (lit "'" ++ s ++ lit "'") with (["'"%char] ++ s ++ ["'"%char]).
    rewrite (strip_delimited "'" s (not_quote_neq s H)). reflexivity. }
  split; [exact Ht|]. split; [exact Hp|].
  intro Ho. unfold main_tree.
  assert (E : remove_comments (lit "'" ++ s ++ lit "'")
              = lit "'" ++ s ++ lit "'").
  { unfold remove_comments.
    change (lit "'" ++ s ++ lit "'") with (("'"%char :: s) ++ lit "'").
    rewrite re_sub_empty_keeps; [reflexivity|].
    cbn [length app occurs_before].
    apply orb_false_iff. split; [reflexivity|].
    apply no_opener_with_quote, Ho. }
  rewrite E, Ht. exact Hp.
Qed.

Lemma X6_witness :
  main_tree (lit "'" ++ lit "a\nb - c" ++ lit "'")
  = Ok (Some (VStr (lit "a\nb - c"))).
Proof.
  apply (proj2 (proj2 (X6_string_literal_gives_its_content
                         (lit "a\nb - c") eq_refl))).
  reflexivity.
Defined.

(** ** Texts without a whole comment *)

Lemma dash_matches_no_pattern rest :
  first_match TOKEN_REGEX ("-"%char :: rest) 0 = None.
Proof. reflexivity. Qed.

(** X13: [remove_comments] changes nothing in a text that holds no
    [--[[] or no [ ]] ]: an opener that is never closed stays where it
    is.  A text that begins with such an opener then fails in the lexer,
    with the SyntaxError for position 0, since no pattern matches a
    [-]. *)
Theorem X13_no_whole_comment_no_change t :
  (occurs_before (lit "--[[") (length t) t = false
   \/ occurs_before (lit "]]") (length t) t = false ->
   remove_comments t = t)
  /\ (occurs_before (lit "]]") (length t) t = false ->
      starts_with (lit "-") t = true ->
      main_tree t
      = Raise (SyntaxError (lit "Unexpected character at position 0"))).
Proof.
  assert (Hc : occurs_before (lit "]]") (length t) t = false ->
               remove_comments t = t)
    by (intro H; apply re_sub_empty_no_closer, H).
  split.
  - intros [H|H]; [|exact (Hc H)].
    unfold remove_comments. rewrite <- (app_nil_r t) at 1.
    rewrite re_sub_empty_keeps; [apply app_nil_r|].
    rewrite app_nil_r. exact H.
  - intros H Hs. unfold main_tree. rewrite (Hc H).
    destruct t as [|c t]; [discriminate|].
    cbn in Hs. rewrite andb_true_r in Hs. apply Ascii.eqb_eq in Hs. subst c.
    unfold tokenize. rewrite tokenize_loop_S.
    change (0 <? length ("-"%char :: t)) with true. cbv iota.
    rewrite dash_matches_no_pattern. reflexivity.
Qed.

Lemma X13_witness :
  remove_comments (lit "set x = .5 --[[ never closed ]")
  = lit "set x = .5 --[[ never closed ]"
  /\ main_tree (lit "--[[ never closed
 set x = .5")
     = Raise (SyntaxError (lit "Unexpected character at position 0")).
Proof.
  split.
  - apply (proj1 (X13_no_whole_comment_no_change
                    (lit "set x = .5 --[[ never closed ]"))).
    right. reflexivity.
  - apply (proj2 (X13_no_whole_comment_no_change (lit "--[[ never closed
 set x = .5"))); reflexivity.
Defined.

(** ** The exceptions of the parser *)

Lemma consume_raises expected p e :
  consume expected p = Raise e -> is_syntax_error e.
Proof.
  unfold consume. destruct (peek p) as [t|].
  - destruct expected as [ex|]; [|discriminate].
    destruct (negb (TokenType_eqb (type t) ex)); [|discriminate].
    intro H. inversion H. eexists. reflexivity.
  - intro H. inversion H. eexists. reflexivity.
Qed.

Lemma float_raises s e : float s = Raise e -> e = ValueError.
Proof.
  unfold float. destruct (span is_digit s) as [a [|c frac]];
    [intro H; inversion H; reflexivity|].
  destruct (Ascii.eqb_spec c "."); [subst c|].
  - destruct frac as [|d frac]; [intro H; inversion H; reflexivity|].
    destruct (forallb is_digit (d :: frac)); intro H; inversion H.
    reflexivity.
  - destruct c as [[] [] [] [] [] [] [] []];
      try (intro H; inversion H; reflexivity).
    contradiction n; reflexivity.
Qed.

Lemma peek_in p tok : peek p = Some tok -> In tok (tokens p).
Proof. rewrite peek_nth. apply nth_error_In. Qed.

(** A token with nothing after it is the last one. *)
Lemma last_token p tok :
  peek p = Some tok -> peek (advance p) = None ->
  exists before, tokens p = before ++ [tok].
Proof.
  rewrite !peek_nth. cbn [advance pos tokens]. intros H Hn.
  apply nth_error_None in Hn.
  destruct (nth_error_split _ _ H) as (l1 & l2 & E & Hl).
  exists l1. rewrite E in *. rewrite length_app in Hn. simpl in Hn.
  destruct l2 as [|x l2]; [reflexivity|]. simpl in Hn. lia.
Qed.

(** The value that must follow a [=]. *)
Lemma value_after_equal p1 t p2 e :
  consume (Some EQUAL) p1 = Ok (t, p2) ->
  blamed e (tokens p2) \/ (e = none_has_no_type /\ peek p2 = None) ->
  blamed e (tokens p1).
Proof.
  intros C H. apply consume_ok in C. destruct C as (Hp & -> & Ht).
  destruct H as [H|[-> Hn]]; [exact H|].
  right. left. split; [reflexivity|].
  destruct (last_token p1 t Hp Hn) as [before E].
  exists before, t. split; [exact E|]. apply Ht. reflexivity.
Qed.

Lemma blamed_syntax e toks : is_syntax_error e -> blamed e toks.
Proof. intro H. left. exact H. Qed.

(** Where each exception of the three parsing functions comes from. *)
Lemma parser_raises fuel :
  (forall p e,
      parse_value fuel p = Raise e ->
      blamed e (tokens p) \/ (e = none_has_no_type /\ peek p = None))
  /\ (forall p e, parse_list fuel p = Raise e -> blamed e (tokens p))
  /\ (forall p e, parse_struct fuel p = Raise e -> blamed e (tokens p))
  /\ (forall p acc e,
         parse_list_loop fuel p acc = Raise e -> blamed e (tokens p))
  /\ (forall p acc e,
         parse_struct_loop fuel p acc = Raise e -> blamed e (tokens p)).
Proof.
  induction fuel as [|fuel (IHv & IHl & IHs & IHll & IHsl)].
  - split; [|split; [|split; [|split]]]; intros; discriminate.
  - split; [|split; [|split; [|split]]].
    + intros p e H. rewrite parse_value_S in H.
      destruct (peek p) as [tok|] eqn:Hp;
        [|inversion H; right; split; reflexivity].
      left.
      destruct (type tok) eqn:Ht;
        try (inversion H; apply blamed_syntax; eexists; reflexivity);
        try (apply IHs, H); try (apply IHl, H).
      * unfold consume in H. rewrite Hp in H. cbn [bind] in H.
        destruct (float (value tok)) as [x|e'|] eqn:F; try discriminate.
        inversion H; subst e'. pose proof (float_raises _ _ F) as Fe.
        subst e. right. right. split; [reflexivity|].
        exists tok. split; [apply peek_in, Hp|]. split; [exact Ht|].
        intros (ip & fp & E & Hip & Hfp & Hne).
        rewrite E, (float_of_decimal ip fp Hip Hfp Hne) in F. discriminate.
      * unfold consume in H. rewrite Hp in H. cbn [bind] in H.
        discriminate.
      * unfold consume in H. rewrite Hp in H. cbn [bind] in H.
        destruct (dict_get (constants (advance p)) (strip "|" (value tok)));
          [discriminate|].
        inversion H. apply blamed_syntax. eexists. reflexivity.
    + intros p e H. rewrite parse_list_S in H.
      destruct (consume (Some LIST) p) as [[t p1]|e1|] eqn:C1;
        try discriminate;
        [|inversion H; subst; apply blamed_syntax;
          eapply consume_raises; eauto].
      simpl in H. apply consume_moved_on in C1. destruct C1 as [[T1 _] _].
      destruct (parse_list_loop fuel p1 []) as [[items p2]|e2|] eqn:L;
        try discriminate;
        [|inversion H; subst; rewrite <- T1; eapply IHll; eauto].
      simpl in H.
      destruct (consume (Some RPAREN) p2) as [[t' p3]|e3|] eqn:C2;
        try discriminate.
      inversion H; subst. apply blamed_syntax. eapply consume_raises; eauto.
    + intros p e H. rewrite parse_struct_S in H.
      destruct (consume (Some STRUCT) p) as [[t p1]|e1|] eqn:C1;
        try discriminate;
        [|inversion H; subst; apply blamed_syntax;
          eapply consume_raises; eauto].
      simpl in H. apply consume_moved_on in C1. destruct C1 as [[T1 _] _].
      destruct (consume (Some LBRACE) p1) as [[t1 p2]|e2|] eqn:C2;
        try discriminate;
        [|inversion H; subst; apply blamed_syntax;
          eapply consume_raises; eauto].
      simpl in H. apply consume_moved_on in C2. destruct C2 as [[T2 _] _].
      destruct (parse_struct_loop fuel p2 []) as [[obj p3]|e3|] eqn:L;
        try discriminate;
        [|inversion H; subst; rewrite <- T1, <- T2; eapply IHsl; eauto].
      simpl in H.
      destruct (consume (Some RBRACE) p3) as [[t' p4]|e4|] eqn:C3;
        try discriminate.
      inversion H; subst. apply blamed_syntax. eapply consume_raises; eauto.
    + intros p acc e H. rewrite parse_list_loop_S in H.
      destruct (more_before RPAREN p) eqn:Hm; [|discriminate].
      destruct (parse_value fuel p) as [[v p1]|e1|] eqn:V; try discriminate.
      * simpl in H. apply parse_value_moved_on in V.
        destruct V as [[T1 _] _]. rewrite <- T1. eapply IHll; eauto.
      * inversion H; subst. destruct (IHv _ _ V) as [B|[_ Hn]]; [exact B|].
        unfold more_before in Hm. rewrite Hn in Hm. discriminate.
    + intros p acc e H. rewrite parse_struct_loop_S in H.
      destruct (more_before RBRACE p) eqn:Hm; [|discriminate].
      destruct (consume (Some IDENT) p) as [[k p1]|e1|] eqn:C1;
        try discriminate;
        [|inversion H; subst; apply blamed_syntax;
          eapply consume_raises; eauto].
      simpl in H. apply consume_moved_on in C1. destruct C1 as [[T1 _] _].
      destruct (consume (Some EQUAL) p1) as [[t1 p2]|e2|] eqn:C2;
        try discriminate;
        [|inversion H; subst; apply blamed_syntax;
          eapply consume_raises; eauto].
      simpl in H. rewrite <- T1.
      destruct (parse_value fuel p2) as [[v p3]|e3|] eqn:V; try discriminate;
        [|inversion H; subst; eapply value_after_equal; eauto].
      simpl in H. apply consume_moved_on in C2. destruct C2 as [[T2 _] _].
      apply parse_value_moved_on in V. destruct V as [[T3 _] _].
      rewrite <- T2, <- T3.
      destruct (at_comma p3).
      * destruct (consume (Some COMMA) p3) as [[t2 p4]|e4|] eqn:C3;
          try discriminate;
          [|inversion H; subst; apply blamed_syntax;
            eapply consume_raises; eauto].
        simpl in H. apply consume_moved_on in C3. destruct C3 as [[T4 _] _].
        rewrite <- T4. eapply IHsl; eauto.
      * eapply IHsl; eauto.
Qed.

Lemma parse_set_raises fuel p e :
  parse_set fuel p = Raise e -> blamed e (tokens p).
Proof.
  unfold parse_set. intro H.
  destruct (consume (Some SET) p) as [[t0 p1]|e0|] eqn:C0; try discriminate;
    [|inversion H; subst; apply blamed_syntax; eapply consume_raises; eauto].
  simpl in H. apply consume_moved_on in C0. destruct C0 as [[T0 _] _].
  destruct (consume (Some IDENT) p1) as [[t1 p2]|e1|] eqn:C1;
    try discriminate;
    [|inversion H; subst; apply blamed_syntax; eapply consume_raises; eauto].
  simpl in H. apply consume_moved_on in C1. destruct C1 as [[T1 _] _].
  destruct (consume (Some EQUAL) p2) as [[t2 p3]|e2|] eqn:C2;
    try discriminate;
    [|inversion H; subst; apply blamed_syntax; eapply consume_raises; eauto].
  simpl in H. rewrite <- T0, <- T1.
  destruct (parse_value fuel p3) as [[v p4]|e3|] eqn:V; try discriminate.
  inversion H; subst. eapply value_after_equal; eauto.
  apply (proj1 (parser_raises fuel)). exact V.
Qed.

Lemma parse_loop_raises fuel :
  forall p result e,
    parse_loop fuel p result = Raise e -> blamed e (tokens p).
Proof.
  induction fuel as [|fuel IH]; intros p result e H; [discriminate|].
  rewrite parse_loop_S in H.
  destruct (peek p) as [tok|] eqn:Hp; [|discriminate].
  destruct (TokenType_eqb (type tok) SET).
  - destruct (parse_set fuel p) as [p1|e1|] eqn:S1; try discriminate.
    + simpl in H. apply parse_set_statement in S1.
      destruct S1 as (n & v & S1). apply statement_remaining in S1.
      destruct S1 as [_ T1]. rewrite <- T1. eapply IH; eauto.
    + inversion H; subst. eapply parse_set_raises; eauto.
  - destruct (parse_value fuel p) as [[v p1]|e1|] eqn:V; try discriminate.
    + simpl in H. apply parse_value_moved_on in V.
      destruct V as [[T1 _] _]. rewrite <- T1. eapply IH; eauto.
    + inversion H; subst.
      destruct (proj1 (parser_raises fuel) _ _ V) as [B|[_ Hn]]; [exact B|].
      congruence.
Qed.

Lemma parse_tokens_raises toks e :
  parse_tokens toks = Raise e -> blamed e toks.
Proof.
  unfold parse_tokens, parse. intro H.
  destruct (parse_loop (parse_fuel toks) (Parser_init toks) None)
    as [[r p']|e'|] eqn:L; try discriminate.
  inversion H; subst e'. apply parse_loop_raises in L. exact L.
Qed.

Lemma tokenize_loop_raises fuel :
  forall text pos toks e,
    tokenize_loop fuel text pos toks = Raise e -> is_syntax_error e.
Proof.
  induction fuel as [|fuel IH]; intros text pos toks e H; [discriminate|].
  rewrite tokenize_loop_S in H.
  destruct (pos <? length text); [|discriminate].
  destruct (first_match TOKEN_REGEX text pos) as [[ttype e']|].
  - eapply IH; eauto.
  - inversion H. eexists. reflexivity.
Qed.

Lemma main_tree_raises source e :
  main_tree source = Raise e ->
  is_syntax_error e
  \/ (e = none_has_no_type
      /\ exists toks,
           tokenize (remove_comments source) = Ok toks
           /\ ends_with_equal toks).
Proof.
  unfold main_tree. intro H.
  destruct (tokenize (remove_comments source)) as [toks|e'|] eqn:T;
    try discriminate.
  - simpl in H.
    destruct (parse_tokens_raises toks e H)
      as [Hs|[[-> He]|[-> (t & Hin & Ht & Hf)]]].
    + left. exact Hs.
    + right. split; [reflexivity|]. exists toks. auto.
    + exfalso. apply tokenize_shapes in T. rewrite Forall_forall in T.
      pose proof (T t Hin) as Hs. rewrite Ht in Hs. exact (Hf Hs).
  - inversion H; subst e'. left.
    unfold tokenize in T. eapply tokenize_loop_raises; eauto.
Qed.

(** ** The cursor stays inside the tokens *)

Lemma consume_in_bounds expected p tok p' :
  consume expected p = Ok (tok, p') -> pos p' <= length (tokens p').
Proof.
  intro H. apply consume_ok in H. destruct H as (Hp & -> & _).
  apply peek_some in Hp. simpl. lia.
Qed.

Lemma parse_value_in_bounds fuel p v p' :
  parse_value fuel p = Ok (v, p') -> pos p' <= length (tokens p').
Proof.
  destruct fuel as [|fuel]; [discriminate|]. rewrite parse_value_S.
  destruct (peek p) as [tok|]; [|discriminate].
  destruct (type tok); try discriminate; intro H.
  - destruct (consume None p) as [[t p1]| |] eqn:C; try discriminate.
    cbn [bind] in H. destruct (float (value t)); try discriminate.
    inversion H; subst. eapply consume_in_bounds; eauto.
  - destruct (consume None p) as [[t p1]| |] eqn:C; try discriminate.
    inversion H; subst. eapply consume_in_bounds; eauto.
  - destruct fuel as [|fuel]; [discriminate|]. rewrite parse_struct_S in H.
    destruct (consume (Some STRUCT) p) as [[t p1]| |]; try discriminate.
    cbn [bind] in H.
    destruct (consume (Some LBRACE) p1) as [[t1 p2]| |]; try discriminate.
    cbn [bind] in H.
    destruct (parse_struct_loop fuel p2 []) as [[obj p3]| |];
      try discriminate. cbn [bind] in H.
    destruct (consume (Some RBRACE) p3) as [[t' p4]| |] eqn:C;
      try discriminate.
    inversion H; subst. eapply consume_in_bounds; eauto.
  - destruct fuel as [|fuel]; [discriminate|]. rewrite parse_list_S in H.
    destruct (consume (Some LIST) p) as [[t p1]| |]; try discriminate.
    cbn [bind] in H.
    destruct (parse_list_loop fuel p1 []) as [[items p2]| |];
      try discriminate. cbn [bind] in H.
    destruct (consume (Some RPAREN) p2) as [[t' p3]| |] eqn:C;
      try discriminate.
    inversion H; subst. eapply consume_in_bounds; eauto.
  - destruct (consume None p) as [[t p1]| |] eqn:C; try discriminate.
    cbn [bind] in H.
    destruct (dict_get (constants p1) (strip "|" (value t)));
      try discriminate.
    inversion H; subst. eapply consume_in_bounds; eauto.
Qed.

Lemma statements_in_bounds p items p' :
  statements p items p' ->
  pos p <= length (tokens p) -> pos p' <= length (tokens p').
Proof.
  induction 1 as [p|p it p1 items p' Hst Hs IH]; intro Hb; [exact Hb|].
  apply IH.
  inversion Hst as [q t0 t1 t2 w q' T0 T1 T2 [f R]|q tok w q' Hp Hn [f R]];
    subst; apply parse_value_in_bounds in R; exact R.
Qed.

(** X9: the cursor never leaves the tokens.  Every parser that
    [parse_value] returns has its cursor at most at the number of tokens,
    and when [parse] returns, on the tokens it was given and unchanged,
    the cursor is exactly there: no token is left unread. *)
Theorem X9_cursor_ends_at_the_last_token :
  (forall fuel p v p',
      parse_value fuel p = Ok (v, p') -> pos p' <= length (tokens p'))
  /\ (forall fuel toks r p',
         parse fuel (Parser_init toks) = Ok (r, p') ->
         tokens p' = toks /\ pos p' = length toks).
Proof.
  split; [apply parse_value_in_bounds|].
  intros fuel toks r p' H. unfold parse in H.
  apply parse_loop_statements in H. destruct H as (items & Hs & He & _).
  pose proof (statements_in_bounds _ _ _ Hs) as Hb.
  apply statements_constants in Hs. destruct Hs as [Ht _].
  simpl in Ht, Hb. split; [exact Ht|].
  rewrite peek_nth in He. apply nth_error_None in He.
  rewrite Ht in *. specialize (Hb (Nat.le_0_l _)). lia.
Qed.

Lemma X9_witness :
  tokens (mkParser [mkToken STRING (lit "'a'"); mkToken STRING (lit "'b'")]
            2 [])
  = [mkToken STRING (lit "'a'"); mkToken STRING (lit "'b'")]
  /\ pos (mkParser [mkToken STRING (lit "'a'"); mkToken STRING (lit "'b'")]
            2 []) = 2.
Proof.
  apply (proj2 X9_cursor_ends_at_the_last_token 5
           [mkToken STRING (lit "'a'"); mkToken STRING (lit "'b'")]
           (Some (VStr (lit "b")))).
  reflexivity.
Defined.

(** ** The keys of a dict *)

Lemma keys_dict_set {V : Type} (d : list (str * V)) k v :
  map fst (dict_set d k v)
  = if existsb (fun k' => str_eqb k' k) (map fst d) then map fst d
    else map fst d ++ [k].
Proof.
  induction d as [|[k0 v0] d IH]; simpl; [reflexivity|].
  destruct (str_eqb k0 k); simpl; [reflexivity|]. rewrite IH.
  destruct (existsb (fun k' => str_eqb k' k) (map fst d)); reflexivity.
Qed.

Lemma keys_dict_of kvs :
  forall obj,
    map fst (dict_of kvs obj)
    = fold_left
        (fun acc k =>
           if existsb (fun k' => str_eqb k' k) acc then acc else acc ++ [k])
        (map fst kvs) (map fst obj).
Proof.
  unfold dict_of. induction kvs as [|[k v] kvs IH]; intro obj; simpl;
    [reflexivity|].
  rewrite IH, keys_dict_set. reflexivity.
Qed.

Lemma dict_set_nodup {V : Type} (d : list (str * V)) k v :
  NoDup (map fst d) -> NoDup (map fst (dict_set d k v)).
Proof.
  intro H. rewrite keys_dict_set.
  destruct (existsb (fun k' => str_eqb k' k) (map fst d)) eqn:E; [exact H|].
  apply NoDup_app; [exact H|repeat constructor; intros []|].
  intros x Hx [Ek|[]]. subst x.
  assert (existsb (fun k' => str_eqb k' k) (map fst d) = true); [|congruence].
  apply existsb_exists. exists k. split; [exact Hx|apply str_eqb_refl].
Qed.

Lemma dict_of_nodup kvs :
  forall obj, NoDup (map fst obj) -> NoDup (map fst (dict_of kvs obj)).
Proof.
  unfold dict_of. induction kvs as [|[k v] kvs IH]; intros obj H; simpl;
    [exact H|].
  apply IH, dict_set_nodup, H.
Qed.

(** The keys in the order in which they first come: every key, once. *)
Lemma first_keys_from ks :
  forall acc,
    NoDup acc ->
    NoDup (fold_left
             (fun acc k =>
                if existsb (fun k' => str_eqb k' k) acc then acc
                else acc ++ [k]) ks acc)
    /\ forall k,
         In k (fold_left
                 (fun acc k =>
                    if existsb (fun k' => str_eqb k' k) acc then acc
                    else acc ++ [k]) ks acc)
         <-> In k acc \/ In k ks.
Proof.
  induction ks as [|k0 ks IH]; intros acc Hacc; simpl.
  - split; [exact Hacc|]. intro k. tauto.
  - destruct (existsb (fun k' => str_eqb k' k0) acc) eqn:E.
    + destruct (IH acc Hacc) as [Hn Hi]. split; [exact Hn|].
      intro k. rewrite Hi. apply existsb_exists in E.
      destruct E as (k' & Hk' & Ek). apply str_eqb_eq in Ek. subst k'.
      split; [tauto|]. intros [H|[<-|H]]; auto.
    + assert (Hn0 : NoDup (acc ++ [k0])).
      { apply NoDup_app; [exact Hacc|repeat constructor; intros []|].
        intros x Hx [<-|[]].
        assert (existsb (fun k' => str_eqb k' k0) acc = true);
          [|congruence].
        apply existsb_exists. exists k0. split; [exact Hx|].
        apply str_eqb_refl. }
      destruct (IH (acc ++ [k0]) Hn0) as [Hn Hi]. split; [exact Hn|].
      intro k. rewrite Hi, in_app_iff. simpl. tauto.
Qed.

(** X10: for every struct literal, the dict that [parse_struct] returns
    has every key of the literal once, and the keys stand in the order in
    which they first come in the literal: a key given again keeps its
    place. *)
Theorem X10_struct_keys_once_in_first_order :
  (forall p t_struct t_lbrace kvs p3 t_rbrace,
      token_at p 0 STRUCT t_struct -> token_at p 1 LBRACE t_lbrace ->
      struct_entries (move 2 p) kvs p3 -> token_at p3 0 RBRACE t_rbrace ->
      exists fuel obj,
        parse_struct fuel p = Ok (VDict obj, advance p3)
        /\ map fst obj = first_keys (map fst kvs)
        /\ NoDup (map fst obj)
        /\ forall k, In k (map fst obj) <-> In k (map fst kvs))
  /\ (forall fuel p v p',
         parse_struct fuel p = Ok (v, p') ->
         exists obj, v = VDict obj /\ NoDup (map fst obj))
  /\ main_tree (lit "struct{b='1' a='2', b='3'}")
     = Ok (Some (VDict [(lit "b", VStr (lit "3"));
                        (lit "a", VStr (lit "2"))])).
Proof.
  split; [|split].
  - intros p t t1 kvs p3 t' T1 T2 He T3.
    destruct (proj2 (parse_struct_entries p (VDict (dict_of kvs []))
                       (advance p3))) as [fuel H].
    { exists t, t1, kvs, p3, t'. auto 10. }
    exists fuel, (dict_of kvs []). split; [exact H|].
    rewrite (keys_dict_of kvs []).
    destruct (first_keys_from (map fst kvs) [] (NoDup_nil _)) as [Hn Hi].
    split; [reflexivity|]. split; [exact Hn|].
    intro k. rewrite (Hi k). simpl. tauto.
  - intros fuel p v p' H.
    destruct (proj1 (parse_struct_entries p v p')) as
      (t & t1 & kvs & p3 & t' & _ & _ & _ & _ & -> & _);
      [exists fuel; exact H|].
    exists (dict_of kvs []). split; [reflexivity|].
    apply dict_of_nodup. constructor.
  - vm_compute. reflexivity.
Qed.

Lemma X10_witness :
  exists fuel obj,
    parse_struct fuel
      (Parser_init
         [mkToken STRUCT (lit "struct"); mkToken LBRACE (lit "{");
          mkToken IDENT (lit "b"); mkToken EQUAL (lit "=");
          mkToken STRING (lit "'1'");
          mkToken IDENT (lit "a"); mkToken EQUAL (lit "=");
          mkToken STRING (lit "'2'"); mkToken COMMA (lit ",");
          mkToken IDENT (lit "b"); mkToken EQUAL (lit "=");
          mkToken STRING (lit "'3'"); mkToken RBRACE (lit "}")])
    = Ok (VDict obj,
          advance
            (mkParser
               [mkToken STRUCT (lit "struct"); mkToken LBRACE (lit "{");
                mkToken IDENT (lit "b"); mkToken EQUAL (lit "=");
                mkToken STRING (lit "'1'");
                mkToken IDENT (lit "a"); mkToken EQUAL (lit "=");
                mkToken STRING (lit "'2'"); mkToken COMMA (lit ",");
                mkToken IDENT (lit "b"); mkToken EQUAL (lit "=");
                mkToken STRING (lit "'3'"); mkToken RBRACE (lit "}")] 12 []))
    /\ map fst obj
       = first_keys (map fst [(lit "b", VStr (lit "1"));
                              (lit "a", VStr (lit "2"));
                              (lit "b", VStr (lit "3"))])
    /\ NoDup (map fst obj)
    /\ forall k,
         In k (map fst obj)
         <-> In k (map fst [(lit "b", VStr (lit "1"));
                            (lit "a", VStr (lit "2"));
                            (lit "b", VStr (lit "3"))]).
Proof.
  apply (proj1 X10_struct_keys_once_in_first_order _
           (mkToken STRUCT (lit "struct")) (mkToken LBRACE (lit "{"))
           [(lit "b", VStr (lit "1")); (lit "a", VStr (lit "2"));
            (lit "b", VStr (lit "3"))]
           _ (mkToken RBRACE (lit "}"))).
  - split; reflexivity.
  - split; reflexivity.
  - eapply (entries_cons _ (mkToken IDENT (lit "b")) (mkToken EQUAL (lit "="))
              (VStr (lit "1")) (mkParser _ 5 [])).
    + split; reflexivity.
    + split; reflexivity.
    + exists 1. reflexivity.
    + eapply (entries_cons _ (mkToken IDENT (lit "a"))
                (mkToken EQUAL (lit "=")) (VStr (lit "2"))
                (mkParser _ 8 [])).
      * split; reflexivity.
      * split; reflexivity.
      * exists 1. reflexivity.
      * eapply (entries_cons _ (mkToken IDENT (lit "b"))
                  (mkToken EQUAL (lit "=")) (VStr (lit "3"))
                  (mkParser _ 12 [])).
        -- split; reflexivity.
        -- split; reflexivity.
        -- exists 1. reflexivity.
        -- apply entries_nil.
  - split; reflexivity.
Defined.

(** ** The pipeline never runs out of fuel *)


(** ** What follows a value *)

Lemma peek_followed_by more p tok :
  peek p = Some tok -> peek (followed_by more p) = Some tok.
Proof.
  rewrite !peek_nth. simpl. intro H.
  rewrite nth_error_app1; [exact H|]. apply nth_error_Some. congruence.
Qed.

Lemma consume_followed_by more expected p tok p' :
  consume expected p = Ok (tok, p') ->
  consume expected (followed_by more p) = Ok (tok, followed_by more p').
Proof.
  intro H. pose proof (consume_ok _ _ _ _ H) as (Hp & -> & _).
  unfold consume in *. rewrite (peek_followed_by more p tok Hp).
  rewrite Hp in H. destruct expected as [ex|]; [|reflexivity].
  destruct (negb (TokenType_eqb (type tok) ex)); [discriminate|reflexivity].
Qed.

Lemma more_before_followed_by more closing p tok :
  peek p = Some tok ->
  more_before closing (followed_by more p) = more_before closing p.
Proof.
  intro H. unfold more_before.
  rewrite (peek_followed_by more p tok H), H. reflexivity.
Qed.

Lemma at_comma_followed_by more p tok :
  peek p = Some tok -> at_comma (followed_by more p) = at_comma p.
Proof.
  intro H. unfold at_comma.
  rewrite (peek_followed_by more p tok H), H. reflexivity.
Qed.

(** A call that returns does not look beyond the place where it stops,
    but for the loops, which look at the token they stop at. *)
Lemma parser_followed_by more fuel :
  (forall p v p',
      parse_value fuel p = Ok (v, p') ->
      parse_value fuel (followed_by more p) = Ok (v, followed_by more p'))
  /\ (forall p v p',
         parse_list fuel p = Ok (v, p') ->
         parse_list fuel (followed_by more p) = Ok (v, followed_by more p'))
  /\ (forall p v p',
         parse_struct fuel p = Ok (v, p') ->
         parse_struct fuel (followed_by more p)
         = Ok (v, followed_by more p'))
  /\ (forall p acc acc' p',
         parse_list_loop fuel p acc = Ok (acc', p') ->
         peek p' <> None ->
         parse_list_loop fuel (followed_by more p) acc
         = Ok (acc', followed_by more p'))
  /\ (forall p acc acc' p',
         parse_struct_loop fuel p acc = Ok (acc', p') ->
         peek p' <> None ->
         parse_struct_loop fuel (followed_by more p) acc
         = Ok (acc', followed_by more p')).
Proof.
  induction fuel as [|fuel (IHv & IHl & IHs & IHll & IHsl)].
  - split; [|split; [|split; [|split]]]; intros; discriminate.
  - split; [|split; [|split; [|split]]].
    + intros p v p' H. rewrite parse_value_S in *.
      destruct (peek p) as [tok|] eqn:Hp; [|discriminate].
      rewrite (peek_followed_by more p tok Hp).
      destruct (type tok); try discriminate; try (apply IHs, H);
        try (apply IHl, H).
      * destruct (consume None p) as [[t p1]| |] eqn:C; try discriminate.
        rewrite (consume_followed_by more _ _ _ _ C). cbn [bind] in *.
        destruct (float (value t)); try discriminate.
        inversion H; subst. reflexivity.
      * destruct (consume None p) as [[t p1]| |] eqn:C; try discriminate.
        rewrite (consume_followed_by more _ _ _ _ C). cbn [bind] in *.
        inversion H; subst. reflexivity.
      * destruct (consume None p) as [[t p1]| |] eqn:C; try discriminate.
        rewrite (consume_followed_by more _ _ _ _ C). cbn [bind] in *.
        cbn [followed_by constants].
        destruct (dict_get (constants p1) (strip "|" (value t)));
          try discriminate.
        inversion H; subst. reflexivity.
    + intros p v p' H. rewrite parse_list_S in *.
      destruct (consume (Some LIST) p) as [[t p1]| |] eqn:C1;
        try discriminate.
      rewrite (consume_followed_by more _ _ _ _ C1). cbn [bind] in *.
      destruct (parse_list_loop fuel p1 []) as [[items p2]| |] eqn:L;
        try discriminate. cbn [bind] in H.
      destruct (consume (Some RPAREN) p2) as [[t' p3]| |] eqn:C2;
        try discriminate.
      pose proof (consume_ok _ _ _ _ C2) as (Hp2 & _ & _).
      rewrite (IHll _ _ _ _ L) by congruence. cbn [bind].
      rewrite (consume_followed_by more _ _ _ _ C2). cbn [bind].
      inversion H; subst. reflexivity.
    + intros p v p' H. rewrite parse_struct_S in *.
      destruct (consume (Some STRUCT) p) as [[t p1]| |] eqn:C1;
        try discriminate.
      rewrite (consume_followed_by more _ _ _ _ C1). cbn [bind] in *.
      destruct (consume (Some LBRACE) p1) as [[t1 p2]| |] eqn:C2;
        try discriminate.
      rewrite (consume_followed_by more _ _ _ _ C2). cbn [bind] in *.
      destruct (parse_struct_loop fuel p2 []) as [[obj p3]| |] eqn:L;
        try discriminate. cbn [bind] in H.
      destruct (consume (Some RBRACE) p3) as [[t' p4]| |] eqn:C3;
        try discriminate.
      pose proof (consume_ok _ _ _ _ C3) as (Hp3 & _ & _).
      rewrite (IHsl _ _ _ _ L) by congruence. cbn [bind].
      rewrite (consume_followed_by more _ _ _ _ C3). cbn [bind].
      inversion H; subst. reflexivity.
    + intros p acc acc' p' H Hend. rewrite parse_list_loop_S in *.
      destruct (peek p) as [tok|] eqn:Hp.
      * rewrite (more_before_followed_by more RPAREN p tok Hp).
        destruct (more_before RPAREN p).
        -- destruct (parse_value fuel p) as [[v p1]| |] eqn:V;
             try discriminate.
           rewrite (IHv _ _ _ V). cbn [bind] in *. apply IHll; assumption.
        -- inversion H; subst. reflexivity.
      * unfold more_before in H. rewrite Hp in H. inversion H; subst.
        congruence.
    + intros p acc acc' p' H Hend. rewrite parse_struct_loop_S in *.
      destruct (peek p) as [tok|] eqn:Hp.
      * rewrite (more_before_followed_by more RBRACE p tok Hp).
        destruct (more_before RBRACE p); [|inversion H; subst; reflexivity].
        destruct (consume (Some IDENT) p) as [[k p1]| |] eqn:C1;
          try discriminate.
        rewrite (consume_followed_by more _ _ _ _ C1). cbn [bind] in *.
        destruct (consume (Some EQUAL) p1) as [[t1 p2]| |] eqn:C2;
          try discriminate.
        rewrite (consume_followed_by more _ _ _ _ C2). cbn [bind] in *.
        destruct (parse_value fuel p2) as [[v p3]| |] eqn:V;
          try discriminate.
        rewrite (IHv _ _ _ V). cbn [bind] in *.
        destruct (peek p3) as [tok3|] eqn:Hp3.
        -- rewrite (at_comma_followed_by more p3 tok3 Hp3).
           destruct (at_comma p3).
           ++ destruct (consume (Some COMMA) p3) as [[t2 p4]| |] eqn:C3;
                try discriminate.
              rewrite (consume_followed_by more _ _ _ _ C3).
              cbn [bind] in *. apply IHsl; assumption.
           ++ apply IHsl; assumption.
        -- exfalso. unfold at_comma in H. rewrite Hp3 in H.
           destruct fuel as [|fuel]; [discriminate|].
           rewrite parse_struct_loop_S in H. unfold more_before in H.
           rewrite Hp3 in H. inversion H; subst. congruence.
      * unfold more_before in H. rewrite Hp in H. inversion H; subst.
        congruence.
Qed.

(** X12: a value is parsed the same whatever follows it.  When
    [parse_value] returns on some tokens, it returns the same value, with
    the cursor at the same place, on these tokens with any others put
    after them. *)
Theorem X12_value_does_not_depend_on_what_follows fuel p v p' more :
  parse_value fuel p = Ok (v, p') ->
  parse_value fuel (followed_by more p) = Ok (v, followed_by more p').
Proof. apply (proj1 (parser_followed_by more fuel)). Qed.

Lemma X12_witness :
  parse_value 5
    (followed_by [mkToken COMMA (lit ","); mkToken RPAREN (lit ")")]
       (Parser_init [mkToken STRUCT (lit "struct"); mkToken LBRACE (lit "{");
                     mkToken IDENT (lit "a"); mkToken EQUAL (lit "=");
                     mkToken STRING (lit "'x'"); mkToken RBRACE (lit "}")]))
  = Ok (VDict [(lit "a", VStr (lit "x"))],
        followed_by [mkToken COMMA (lit ","); mkToken RPAREN (lit ")")]
          (mkParser [mkToken STRUCT (lit "struct"); mkToken LBRACE (lit "{");
                     mkToken IDENT (lit "a"); mkToken EQUAL (lit "=");
                     mkToken STRING (lit "'x'"); mkToken RBRACE (lit "}")]
             6 [])).
Proof.
  apply (X12_value_does_not_depend_on_what_follows 5
           (Parser_init [mkToken STRUCT (lit "struct");
                         mkToken LBRACE (lit "{");
                         mkToken IDENT (lit "a"); mkToken EQUAL (lit "=");
                         mkToken STRING (lit "'x'");
                         mkToken RBRACE (lit "}")])).
  reflexivity.
Defined.

(** ** Blanks at the end of the text *)

Lemma match_here_needs_text r prev :
  1 <= min_length r -> match_here r prev [] = None.
Proof.
  intro H. destruct (match_here r prev []) as [n|] eqn:E; [|reflexivity].
  apply match_here_bounds in E. simpl in E. lia.
Qed.

(** A character that has no hold on a pattern, and is no word character,
    does not change what the pattern matches when it is put at the end of
    the text. *)
Lemma unmoved_match c (r : regex) :
  is_word c = false -> unmoved_by c r = true ->
  forall prev s, match_here r prev (s ++ [c]) = match_here r prev s.
Proof.
  intro Hw. induction r as [|a r IH]; intros Hu prev s; [reflexivity|].
  destruct a as [q|p|p|p|]; cbn [unmoved_by] in Hu;
    apply andb_prop in Hu || idtac.
  - destruct Hu as [Hq Hu]. apply negb_true_iff in Hq.
    destruct s as [|x s]; cbn [app match_here].
    + rewrite Hq. reflexivity.
    + rewrite (IH Hu). reflexivity.
  - destruct Hu as [Hp Hu]. apply negb_true_iff in Hp.
    destruct s as [|x s]; cbn [app match_here].
    + rewrite Hp. reflexivity.
    + rewrite (IH Hu). reflexivity.
  - destruct Hu as [Hp Hu]. specialize (IH Hu).
    revert prev. induction s as [|x s IHs]; intro prev.
    + pose proof (IH prev []) as E0. cbn [app] in *.
      rewrite (match_here_star p r prev [c]), (match_here_star p r prev []).
      rewrite E0. destruct (p c) eqn:Hc; [|reflexivity].
      cbn [negb orb] in Hp. apply Nat.leb_le in Hp.
      rewrite (match_here_star p r (Some c) []).
      rewrite (match_here_needs_text r (Some c) Hp). reflexivity.
    + pose proof (IH prev (x :: s)) as E0. cbn [app] in *.
      rewrite (match_here_star p r prev (x :: s ++ [c])).
      rewrite (match_here_star p r prev (x :: s)).
      rewrite IHs, E0. reflexivity.
  - destruct Hu as [Hp Hu]. specialize (IH Hu).
    revert prev. induction s as [|x s IHs]; intro prev.
    + pose proof (IH prev []) as E0. cbn [app] in *.
      rewrite (match_here_lazy p r prev [c]), (match_here_lazy p r prev []).
      rewrite E0. destruct (match_here r prev []) as [n|]; [reflexivity|].
      destruct (p c) eqn:Hc; [|reflexivity].
      cbn [negb orb] in Hp. apply Nat.leb_le in Hp.
      rewrite (match_here_lazy p r (Some c) []).
      rewrite (match_here_needs_text r (Some c) Hp). reflexivity.
    + pose proof (IH prev (x :: s)) as E0. cbn [app] in *.
      rewrite (match_here_lazy p r prev (x :: s ++ [c])).
      rewrite (match_here_lazy p r prev (x :: s)).
      rewrite IHs, E0. reflexivity.
  - cbn [match_here]. rewrite (IH Hu).
    destruct s as [|x s]; cbn [app hd_error is_word_opt];
      [rewrite Hw|]; reflexivity.
Qed.

Lemma blank_not_word c : is_blank c = true -> is_word c = false.
Proof. intro H. destruct (blank_cases c H) as [->|[->| ->]]; reflexivity. Qed.

Lemma blank_unmoved c :
  is_blank c = true ->
  unmoved_by c COMMENT = true
  /\ Forall (fun tr => unmoved_by c (snd tr) = true) (firstn 13 TOKEN_REGEX).
Proof.
  intro H. destruct (blank_cases c H) as [->|[->| ->]];
    (split; [reflexivity|repeat constructor]).
Qed.

Lemma TOKEN_REGEX_split :
  TOKEN_REGEX = firstn 13 TOKEN_REGEX ++ [(SKIP, plus is_blank)].
Proof. reflexivity. Qed.

Lemma first_match_app t1 t2 text pos :
  first_match (t1 ++ t2) text pos
  = match first_match t1 text pos with
    | Some x => Some x
    | None => first_match t2 text pos
    end.
Proof.
  induction t1 as [|[t r] t1 IH]; simpl; [reflexivity|].
  destruct (re_match r text pos); [reflexivity|exact IH].
Qed.

Lemma re_match_trailing r text pos c :
  pos < length text -> is_word c = false -> unmoved_by c r = true ->
  re_match r (text ++ [c]) pos = re_match r text pos.
Proof.
  intros Hp Hw Hu. unfold re_match.
  rewrite skipn_app. replace (pos - length text) with 0 by lia.
  cbn [skipn]. rewrite (unmoved_match c r Hw Hu).
  destruct pos as [|k]; [reflexivity|]. cbn [char_before].
  rewrite nth_error_app1 by lia. reflexivity.
Qed.

Lemma first_match_trailing table text pos c :
  pos < length text -> is_word c = false ->
  Forall (fun tr => unmoved_by c (snd tr) = true) table ->
  first_match table (text ++ [c]) pos = first_match table text pos.
Proof.
  intros Hp Hw. induction 1 as [|[t r] table Hu Hall IH]; [reflexivity|].
  simpl. rewrite (re_match_trailing r text pos c Hp Hw Hu), IH. reflexivity.
Qed.

(** A run of blanks takes a blank put after it. *)
Lemma star_blank_trailing c s :
  is_blank c = true ->
  forall prev,
    match_here [Star is_blank] prev (s ++ [c])
    = match match_here [Star is_blank] prev s with
      | Some n => Some (if n =? length s then S n else n)
      | None => None
      end.
Proof.
  intro Hc. induction s as [|x s IH]; intro prev.
  - cbn [app]. rewrite (match_here_star is_blank [] prev [c]), Hc.
    reflexivity.
  - cbn [app]. rewrite (match_here_star is_blank [] prev (x :: s ++ [c])).
    rewrite (match_here_star is_blank [] prev (x :: s)).
    destruct (is_blank x); [|reflexivity].
    rewrite IH.
    destruct (match_here [Star is_blank] (Some x) s) as [n|];
      [|reflexivity].
    cbn [length Nat.eqb]. destruct (n =? length s); reflexivity.
Qed.

Lemma skip_trailing c x s prev :
  is_blank c = true ->
  match_here (plus is_blank) prev ((x :: s) ++ [c])
  = match match_here (plus is_blank) prev (x :: s) with
    | Some n => Some (if n =? length (x :: s) then S n else n)
    | None => None
    end.
Proof.
  intro Hc. unfold plus. cbn [app].
  change (match_here [Cls is_blank; Star is_blank] prev (x :: s ++ [c]))
    with (if is_blank x
          then option_map S (match_here [Star is_blank] (Some x) (s ++ [c]))
          else None).
  change (match_here [Cls is_blank; Star is_blank] prev (x :: s))
    with (if is_blank x
          then option_map S (match_here [Star is_blank] (Some x) s)
          else None).
  destruct (is_blank x); [|reflexivity].
  rewrite (star_blank_trailing c s Hc).
  destruct (match_here [Star is_blank] (Some x) s) as [n|];
    [|reflexivity].
  cbn [option_map length Nat.eqb]. destruct (n =? length s); reflexivity.
Qed.

(** With a blank put at the end of the text, a turn of the loop finds
    what it found, but for the blanks that reach the end, which take the
    new one too. *)
Lemma first_match_with_blank text pos c :
  is_blank c = true -> pos < length text ->
  first_match TOKEN_REGEX (text ++ [c]) pos
  = first_match TOKEN_REGEX text pos
  \/ (first_match TOKEN_REGEX text pos = Some (SKIP, length text)
      /\ first_match TOKEN_REGEX (text ++ [c]) pos
         = Some (SKIP, S (length text))).
Proof.
  intros Hc Hp. rewrite TOKEN_REGEX_split, !first_match_app.
  rewrite (first_match_trailing _ text pos c Hp (blank_not_word c Hc)
             (proj2 (blank_unmoved c Hc))).
  destruct (first_match (firstn 13 TOKEN_REGEX) text pos);
    [left; reflexivity|].
  cbn [first_match]. unfold re_match.
  assert (Hk : char_before (text ++ [c]) pos = char_before text pos).
  { destruct pos as [|k]; [reflexivity|]. cbn [char_before].
    rewrite nth_error_app1 by lia. reflexivity. }
  rewrite Hk, skipn_app. replace (pos - length text) with 0 by lia.
  cbn [skipn].
  destruct (skipn pos text) as [|x s] eqn:Es.
  { apply (f_equal (@Datatypes.length ascii)) in Es.
    rewrite length_skipn in Es. simpl in Es. lia. }
  rewrite (skip_trailing c x s _ Hc).
  destruct (match_here (plus is_blank) (char_before text pos) (x :: s))
    as [n|]; [|left; reflexivity].
  cbn [option_map].
  assert (Hl : length (x :: s) = length text - pos)
    by (rewrite <- Es; apply length_skipn).
  destruct (n =? length (x :: s)) eqn:En; [|left; reflexivity].
  apply Nat.eqb_eq in En. right.
  replace (pos + n) with (length text) by lia.
  replace (pos + S n) with (S (length text)) by lia. auto.
Qed.

Lemma first_match_at_end text c :
  is_blank c = true ->
  first_match TOKEN_REGEX (text ++ [c]) (length text)
  = Some (SKIP, length text + 1).
Proof.
  intro Hc. unfold TOKEN_REGEX, first_match. rewrite !re_match_after.
  generalize (char_before (text ++ [c]) (length text)). intro prev.
  destruct (blank_cases c Hc) as [->|[->| ->]]; reflexivity.
Qed.

Lemma slice_trailing text pos e c :
  e <= length text -> slice (text ++ [c]) pos e = slice text pos e.
Proof.
  intro He. unfold slice.
  destruct (Nat.le_gt_cases pos (length text)) as [Hp|Hp].
  - rewrite skipn_app. replace (pos - length text) with 0 by lia.
    cbn [skipn]. rewrite firstn_app, length_skipn.
    replace (e - pos - (length text - pos)) with 0 by lia.
    cbn [firstn]. apply app_nil_r.
  - replace (e - pos) with 0 by lia. reflexivity.
Qed.

Lemma emit_trailing toks ttype text pos e c :
  e <= length text ->
  emit toks ttype (text ++ [c]) pos e = emit toks ttype text pos e.
Proof. intro He. unfold emit. rewrite slice_trailing by exact He. reflexivity. Qed.

Lemma tokenize_loop_trailing c fuel :
  is_blank c = true ->
  forall text pos toks,
    pos <= length text -> length text + 2 <= pos + fuel ->
    tokenize_loop fuel (text ++ [c]) pos toks
    = tokenize_loop fuel text pos toks.
Proof.
  intro Hc. induction fuel as [|fuel IH]; intros text pos toks Hle Hf;
    [lia|].
  rewrite !tokenize_loop_S, length_app. cbn [length].
  destruct (Nat.eq_dec pos (length text)) as [->|Hne].
  - rewrite Nat.ltb_irrefl.
    replace (length text <? length text + 1) with true
      by (symmetry; apply Nat.ltb_lt; lia).
    rewrite (first_match_at_end text c Hc).
    destruct fuel as [|fuel]; [lia|].
    rewrite tokenize_loop_S, length_app. cbn [length].
    rewrite Nat.ltb_irrefl. reflexivity.
  - replace (pos <? length text + 1) with true
      by (symmetry; apply Nat.ltb_lt; lia).
    replace (pos <? length text) with true
      by (symmetry; apply Nat.ltb_lt; lia).
    destruct (first_match_with_blank text pos c Hc) as [E|[E E']]; [lia| |].
    + rewrite E.
      destruct (first_match TOKEN_REGEX text pos) as [[ttype e]|] eqn:M;
        [|reflexivity].
      pose proof (first_match_progress _ _ _ _ M) as Hp.
      rewrite emit_trailing by lia. apply IH; lia.
    + rewrite E, E'. unfold emit. cbn [TokenType_eqb].
      destruct fuel as [|fuel]; [lia|].
      rewrite !tokenize_loop_S, length_app. cbn [length].
      rewrite Nat.ltb_irrefl.
      replace (S (length text) <? length text + 1) with false
        by (symmetry; apply Nat.ltb_ge; lia).
      reflexivity.
Qed.

Lemma tokenize_trailing_blank text c :
  is_blank c = true -> tokenize (text ++ [c]) = tokenize text.
Proof.
  intro Hc. unfold tokenize. rewrite length_app. cbn [length].
  rewrite (tokenize_loop_trailing c _ Hc) by lia.
  apply tokenize_loop_fuel; lia.
Qed.

Lemma re_sub_empty_trailing c s :
  is_blank c = true ->
  forall skip prev,
    skip <= length s ->
    re_sub_empty COMMENT skip prev (s ++ [c])
    = re_sub_empty COMMENT skip prev s ++ [c].
Proof.
  intro Hc.
  pose proof (unmoved_match c COMMENT (blank_not_word c Hc)
                (proj1 (blank_unmoved c Hc))) as Hm.
  induction s as [|x s IH]; intros skip prev Hk.
  - destruct skip; [|simpl in Hk; lia]. cbn [app re_sub_empty].
    pose proof (Hm prev []) as E. cbn [app] in E. rewrite E. reflexivity.
  - cbn [app re_sub_empty]. destruct skip as [|k].
    + pose proof (Hm prev (x :: s)) as E. cbn [app] in E. rewrite E.
      destruct (match_here COMMENT prev (x :: s)) as [[|k]|] eqn:M.
      * rewrite IH by lia. reflexivity.
      * apply match_here_bounds in M. simpl in M. apply IH. lia.
      * rewrite IH by lia. reflexivity.
    + apply IH. simpl in Hk. lia.
Qed.

(** X14: blanks, tabs and newlines at the end of the text change
    nothing: the text with them is tokenized to the same tokens, or to the
    same SyntaxError at the same position, and the pipeline gives the same
    result or raises the same exception. *)
Theorem X14_trailing_blanks_change_nothing text blanks :
  forallb is_blank blanks = true ->
  tokenize (text ++ blanks) = tokenize text
  /\ main_tree (text ++ blanks) = main_tree text.
Proof.
  revert text. induction blanks as [|c blanks IH]; intros text H.
  - rewrite app_nil_r. auto.
  - simpl in H. apply andb_prop in H. destruct H as [Hc Hb].
    change (text ++ c :: blanks) with (text ++ [c] ++ blanks).
    rewrite app_assoc. destruct (IH (text ++ [c]) Hb) as [Et Em].
    rewrite Et, Em. split; [apply tokenize_trailing_blank, Hc|].
    unfold main_tree, remove_comments.
    rewrite (re_sub_empty_trailing c text Hc 0 None) by lia.
    rewrite (tokenize_trailing_blank _ c Hc). reflexivity.
Qed.

Lemma X14_witness :
  main_tree (lit "set x = 'a' |x|" ++ lit "

") = main_tree (lit "set x = 'a' |x|").
Proof.
  apply (proj2 (X14_trailing_blanks_change_nothing
                  (lit "set x = 'a' |x|") (lit "

") eq_refl)).
Defined.

(** ** The scan behind every result of the lexer *)

Lemma tokenize_loop_scans fuel :
  forall text pos toks,
    scans text pos toks ->
    (forall res,
        tokenize_loop fuel text pos toks = Ok res ->
        scans text (length text) res)
    /\ (forall e,
           tokenize_loop fuel text pos toks = Raise e ->
           exists stop seen,
             scans text stop seen /\ stop < length text
             /\ first_match TOKEN_REGEX text stop = None
             /\ e = SyntaxError
                      (lit "Unexpected character at position "
                       ++ str_of_nat stop)).
Proof.
  induction fuel as [|fuel IH]; intros text pos toks Hs;
    [split; intros; discriminate|].
  rewrite tokenize_loop_S.
  pose proof (proj1 (scans_tokenize text pos toks Hs)) as Hle.
  destruct (pos <? length text) eqn:E.
  - apply Nat.ltb_lt in E.
    destruct (first_match TOKEN_REGEX text pos) as [[ttype e']|] eqn:M.
    + apply IH. apply (scans_step text pos toks ttype e' Hs E M).
    + split; [intros; discriminate|]. intros e H. inversion H.
      exists pos, toks. auto.
  - apply Nat.ltb_ge in E. assert (pos = length text) by lia. subst pos.
    split; [|intros; discriminate]. intros res H. inversion H; subst.
    exact Hs.
Qed.

(** X15: the scan explains every result of [tokenize].  It returns
    [toks] exactly when the scan comes to the end of the text with
    [toks]; and when it raises, the scan has come to a position inside
    the text at which no pattern matches, and the exception is the
    SyntaxError for that position. *)
Theorem X15_lexer_results_follow_the_scan text :
  (forall toks, tokenize text = Ok toks <-> scans text (length text) toks)
  /\ (forall e,
         tokenize text = Raise e ->
         exists stop seen,
           scans text stop seen /\ stop < length text
           /\ first_match TOKEN_REGEX text stop = None
           /\ e = SyntaxError
                    (lit "Unexpected character at position "
                     ++ str_of_nat stop)).
Proof.
  destruct (tokenize_loop_scans (S (length text)) text 0 []
              (scans_start text)) as [Hok Hraise].
  split; [|exact Hraise].
  intro toks. split; [apply Hok|].
  intro Hs. destruct (scans_tokenize text _ toks Hs) as [_ Hrun].
  rewrite (Hrun 1) by lia. rewrite tokenize_loop_S, Nat.ltb_irrefl.
  reflexivity.
Qed.

Lemma X15_witness :
  exists stop seen,
    scans (lit "x = 3") stop seen /\ stop < length (lit "x = 3")
    /\ first_match TOKEN_REGEX (lit "x = 3") stop = None
    /\ SyntaxError (lit "Unexpected character at position 4")
       = SyntaxError
           (lit "Unexpected character at position " ++ str_of_nat stop).
Proof.
  apply (proj2 (X15_lexer_results_follow_the_scan (lit "x = 3"))).
  reflexivity.
Defined.

(** ** Any number of comments *)

(** X16: [remove_comments] takes out every comment, however many there
    are.  For pieces of text without [--[[], each followed by a block
    comment whose body holds no [ ]] ] before the closing one, and a last
    piece without [--[[], what is left is the pieces put together, with
    nothing in the place of a comment, and the pipeline goes on with
    that text. *)
Theorem X16_all_comments_are_taken_out parts last :
  Forall (fun pb => no_opener (fst pb) = true
                    /\ closes_at_end (snd pb) = true) parts ->
  no_opener last = true ->
  remove_comments (commented parts last)
  = List.concat (map fst parts) ++ last
  /\ main_tree (commented parts last)
     = (toks <- tokenize (List.concat (map fst parts) ++ last) ;;
        parse_tokens toks).
Proof.
  intros Hparts Hlast.
  assert (Hl : re_sub_empty COMMENT 0 None last = last).
  { unfold no_opener in Hlast. rewrite negb_true_iff in Hlast.
    rewrite <- (app_nil_r last) at 1.
    rewrite re_sub_empty_keeps by (rewrite app_nil_r; exact Hlast).
    apply app_nil_r. }
  assert (E : remove_comments (commented parts last)
              = List.concat (map fst parts) ++ last).
  { unfold remove_comments.
    rewrite (remove_comments_commented parts last Hparts), Hl.
    reflexivity. }
  split; [exact E|]. unfold main_tree. rewrite E. reflexivity.
Qed.

Lemma X16_witness :
  remove_comments
    (commented [(lit "set x --[ ", lit " one "); (lit "= .5", lit "two
")] (lit " |x|"))
  = List.concat (map fst [(lit "set x --[ ", lit " one ");
                          (lit "= .5", lit "two
")]) ++ lit " |x|".
Proof.
  refine (proj1 (X16_all_comments_are_taken_out
                   [(lit "set x --[ ", lit " one "); (lit "= .5", lit "two
")] (lit " |x|") _ eq_refl)).
  constructor; [split; reflexivity|].
  constructor; [split; reflexivity|].
  constructor.
Defined.

(** ** The recursion limit *)

(** *** The limited parser does what the parser does, or raises
    RecursionError *)

Lemma agrees_bind {A B : Type} (m m' : outcome A) (k k' : A -> outcome B) :
  agrees m m' -> (forall a, agrees (k a) (k' a)) ->
  agrees (bind m k) (bind m' k').
Proof.
  intros [->| ->] Hk; [left; reflexivity|].
  destruct m' as [a|e|]; simpl; [apply Hk|right; reflexivity..].
Qed.

Lemma agrees_call {A : Type} stack (body : nat -> outcome A) o :
  (forall s, agrees (body s) o) -> agrees (call_method stack body) o.
Proof.
  intro H. destruct stack as [|s]; [left; reflexivity|apply H].
Qed.

Lemma peek_agrees stack p : agrees (limited_peek stack p) (Ok (peek p)).
Proof. apply agrees_call. intro s. right. reflexivity. Qed.

Lemma consume_agrees stack expected p :
  agrees (limited_consume stack expected p) (consume expected p).
Proof.
  apply agrees_call. intro s.
  destruct (peek_agrees s p) as [E|E]; rewrite E; [left; reflexivity|].
  right. reflexivity.
Qed.

Lemma more_before_agrees stack closing p :
  agrees (limited_more_before stack closing p) (Ok (more_before closing p)).
Proof.
  unfold limited_more_before, more_before.
  destruct (peek_agrees stack p) as [E|E]; rewrite E; [left; reflexivity|].
  right. cbn [bind]. destruct (peek p); reflexivity.
Qed.

Lemma at_comma_agrees stack p :
  agrees (limited_at_comma stack p) (Ok (at_comma p)).
Proof.
  unfold limited_at_comma, at_comma.
  destruct (peek_agrees stack p) as [E|E]; rewrite E; [left; reflexivity|].
  right. cbn [bind]. destruct (peek p); reflexivity.
Qed.

Lemma limited_parse_value_S stack fuel p :
  limited_parse_value stack (S fuel) p
  = call_method stack (fun stack =>
      tok <- limited_peek stack p ;;
      match tok with
      | None => Raise none_has_no_type
      | Some tok =>
          match type tok with
          | NUMBER =>
              '(t, p1) <- limited_consume stack None p ;;
              x <- float (value t) ;;
              Ok (VFloat x, p1)
          | STRING =>
              '(t, p1) <- limited_consume stack None p ;;
              Ok (VStr (strip "'" (value t)), p1)
          | CONST =>
              '(t, p1) <- limited_consume stack None p ;;
              let name := strip "|" (value t) in
              match dict_get (constants p1) name with
              | None =>
                  Raise (SyntaxError (lit "Unknown constant " ++ name))
              | Some v => Ok (v, p1)
              end
          | LIST => limited_parse_list stack fuel p
          | STRUCT => limited_parse_struct stack fuel p
          | other =>
              Raise (SyntaxError
                       (lit "Unexpected token " ++ type_name other))
          end
      end).
Proof. reflexivity. Qed.

Lemma limited_parse_list_S stack fuel p :
  limited_parse_list stack (S fuel) p
  = call_method stack (fun stack =>
      '(_, p1) <- limited_consume stack (Some LIST) p ;;
      '(items, p2) <- limited_parse_list_loop stack fuel p1 [] ;;
      '(_, p3) <- limited_consume stack (Some RPAREN) p2 ;;
      Ok (VList items, p3)).
Proof. reflexivity. Qed.

Lemma limited_parse_list_loop_S stack fuel p items :
  limited_parse_list_loop stack (S fuel) p items
  = (go <- limited_more_before stack RPAREN p ;;
     if go then
       '(v, p1) <- limited_parse_value stack fuel p ;;
       limited_parse_list_loop stack fuel p1 (items ++ [v])
     else Ok (items, p)).
Proof. reflexivity. Qed.

Lemma limited_parse_struct_S stack fuel p :
  limited_parse_struct stack (S fuel) p
  = call_method stack (fun stack =>
      '(_, p1) <- limited_consume stack (Some STRUCT) p ;;
      '(_, p2) <- limited_consume stack (Some LBRACE) p1 ;;
      '(obj, p3) <- limited_parse_struct_loop stack fuel p2 [] ;;
      '(_, p4) <- limited_consume stack (Some RBRACE) p3 ;;
      Ok (VDict obj, p4)).
Proof. reflexivity. Qed.

Lemma limited_parse_struct_loop_S stack fuel p obj :
  limited_parse_struct_loop stack (S fuel) p obj
  = (go <- limited_more_before stack RBRACE p ;;
     if go then
       '(k, p1) <- limited_consume stack (Some IDENT) p ;;
       '(_, p2) <- limited_consume stack (Some EQUAL) p1 ;;
       '(v, p3) <- limited_parse_value stack fuel p2 ;;
       let obj' := dict_set obj (value k) v in
       comma <- limited_at_comma stack p3 ;;
       if comma then
         '(_, p4) <- limited_consume stack (Some COMMA) p3 ;;
         limited_parse_struct_loop stack fuel p4 obj'
       else limited_parse_struct_loop stack fuel p3 obj'
     else Ok (obj, p)).
Proof. reflexivity. Qed.

Lemma limited_parse_loop_S stack fuel p result :
  limited_parse_loop stack (S fuel) p result
  = (first <- limited_peek stack p ;;
     match first with
     | None => Ok (result, p)
     | Some _ =>
         second <- limited_peek stack p ;;
         match second with
         | None => Raise none_has_no_type
         | Some tok =>
             if TokenType_eqb (type tok) SET then
               p1 <- limited_parse_set stack fuel p ;;
               limited_parse_loop stack fuel p1 result
             else
               '(v, p1) <- limited_parse_value stack fuel p ;;
               limited_parse_loop stack fuel p1 (Some v)
         end
     end).
Proof. reflexivity. Qed.

Lemma parser_agrees fuel :
  (forall stack p,
      agrees (limited_parse_value stack fuel p) (parse_value fuel p))
  /\ (forall stack p,
         agrees (limited_parse_list stack fuel p) (parse_list fuel p))
  /\ (forall stack p,
         agrees (limited_parse_struct stack fuel p) (parse_struct fuel p))
  /\ (forall stack p items,
         agrees (limited_parse_list_loop stack fuel p items)
           (parse_list_loop fuel p items))
  /\ (forall stack p obj,
         agrees (limited_parse_struct_loop stack fuel p obj)
           (parse_struct_loop fuel p obj)).
Proof.
  induction fuel as [|fuel (IHv & IHl & IHs & IHll & IHsl)].
  - split; [|split; [|split; [|split]]]; intros; right; reflexivity.
  - split; [|split; [|split; [|split]]].
    + intros stack p. rewrite limited_parse_value_S, parse_value_S.
      apply agrees_call. intro s.
      destruct (peek_agrees s p) as [E|E]; rewrite E; [left; reflexivity|].
      cbn [bind]. destruct (peek p) as [tok|]; [|right; reflexivity].
      destruct (type tok); try (right; reflexivity);
        try apply IHl; try apply IHs;
        (apply agrees_bind; [apply consume_agrees|]);
        intros [t p1]; right; reflexivity.
    + intros stack p. rewrite limited_parse_list_S, parse_list_S.
      apply agrees_call. intro s.
      apply agrees_bind; [apply consume_agrees|]. intros [t p1].
      apply agrees_bind; [apply IHll|]. intros [items p2].
      apply agrees_bind; [apply consume_agrees|]. intros [t' p3].
      right. reflexivity.
    + intros stack p. rewrite limited_parse_struct_S, parse_struct_S.
      apply agrees_call. intro s.
      apply agrees_bind; [apply consume_agrees|]. intros [t p1].
      apply agrees_bind; [apply consume_agrees|]. intros [t1 p2].
      apply agrees_bind; [apply IHsl|]. intros [obj p3].
      apply agrees_bind; [apply consume_agrees|]. intros [t' p4].
      right. reflexivity.
    + intros stack p items.
      rewrite limited_parse_list_loop_S, parse_list_loop_S.
      destruct (more_before_agrees stack RPAREN p) as [E|E]; rewrite E;
        [left; reflexivity|].
      cbn [bind]. destruct (more_before RPAREN p); [|right; reflexivity].
      apply agrees_bind; [apply IHv|]. intros [v p1]. apply IHll.
    + intros stack p obj.
      rewrite limited_parse_struct_loop_S, parse_struct_loop_S.
      destruct (more_before_agrees stack RBRACE p) as [E|E]; rewrite E;
        [left; reflexivity|].
      cbn [bind]. destruct (more_before RBRACE p); [|right; reflexivity].
      apply agrees_bind; [apply consume_agrees|]. intros [k p1].
      apply agrees_bind; [apply consume_agrees|]. intros [t1 p2].
      apply agrees_bind; [apply IHv|]. intros [v p3]. cbn zeta.
      destruct (at_comma_agrees stack p3) as [E'|E']; rewrite E';
        [left; reflexivity|].
      cbn [bind]. destruct (at_comma p3); [|apply IHsl].
      apply agrees_bind; [apply consume_agrees|]. intros [t2 p4].
      apply IHsl.
Qed.

Lemma parse_set_agrees stack fuel p :
  agrees (limited_parse_set stack fuel p) (parse_set fuel p).
Proof.
  apply agrees_call. intro s. unfold parse_set.
  apply agrees_bind; [apply consume_agrees|]. intros [t0 p1].
  apply agrees_bind; [apply consume_agrees|]. intros [t1 p2].
  apply agrees_bind; [apply consume_agrees|]. intros [t2 p3].
  apply agrees_bind; [apply (proj1 (parser_agrees fuel))|]. intros [v p4].
  right. reflexivity.
Qed.

Lemma parse_loop_agrees fuel :
  forall stack p result,
    agrees (limited_parse_loop stack fuel p result)
      (parse_loop fuel p result).
Proof.
  induction fuel as [|fuel IH]; intros stack p result;
    [right; reflexivity|].
  rewrite limited_parse_loop_S, parse_loop_S.
  destruct (peek_agrees stack p) as [E|E]; rewrite E; [left; reflexivity|].
  cbn [bind]. destruct (peek p) as [tok|]; [|right; reflexivity].
  destruct (TokenType_eqb (type tok) SET).
  - apply agrees_bind; [apply parse_set_agrees|]. intro p1. apply IH.
  - apply agrees_bind; [apply (proj1 (parser_agrees fuel))|].
    intros [v p1]. apply IH.
Qed.

Lemma parse_tokens_agrees stack toks :
  agrees (limited_parse_tokens stack toks) (parse_tokens toks).
Proof.
  unfold limited_parse_tokens, parse_tokens.
  destruct stack as [|s]; [left; reflexivity|].
  cbn [limited_Parser_init call_method bind].
  apply agrees_bind; [|intros [r p']; right; reflexivity].
  apply agrees_call. intro s'. apply parse_loop_agrees.
Qed.


(** *** The opening tokens that are left *)

Lemma skipn_nth {A : Type} (l : list A) :
  forall n x, nth_error l n = Some x -> skipn n l = x :: skipn (S n) l.
Proof.
  induction l as [|a l IH]; intros [|n] x H; try discriminate.
  - inversion H. reflexivity.
  - simpl in H. cbn [skipn]. apply (IH n x H).
Qed.

Lemma openers_advance p tok :
  peek p = Some tok ->
  openers p = (if opens (type tok) then 1 else 0) + openers (advance p).
Proof.
  rewrite peek_nth. intro H. unfold openers, nesting_tokens.
  cbn [advance pos tokens]. rewrite (skipn_nth _ _ _ H). cbn [filter].
  destruct (opens (type tok)); reflexivity.
Qed.

Lemma nesting_tokens_skipn toks :
  forall k, nesting_tokens (skipn k toks) <= nesting_tokens toks.
Proof.
  unfold nesting_tokens.
  induction toks as [|t toks IH]; intros [|k]; simpl; try lia.
  specialize (IH k). destruct (opens (type t)); simpl; lia.
Qed.

Lemma openers_later p p' :
  tokens p' = tokens p -> pos p <= pos p' -> openers p' <= openers p.
Proof.
  intros Ht Hp. unfold openers. rewrite Ht.
  replace (pos p') with ((pos p' - pos p) + pos p) by lia.
  rewrite <- skipn_skipn. apply nesting_tokens_skipn.
Qed.

Lemma openers_moved_on p p' : moved_on p p' -> openers p' <= openers p.
Proof. intros [[Ht _] Hp]. apply openers_later; [exact Ht|lia]. Qed.

Lemma openers_not_back p p' : not_back p p' -> openers p' <= openers p.
Proof. intros [[Ht _] Hp]. apply openers_later; [exact Ht|lia]. Qed.

(** *** A stack that is deep enough *)

Lemma peek_fits stack p :
  1 <= stack -> limited_peek stack p = Ok (peek p).
Proof. destruct stack; [lia|reflexivity]. Qed.

Lemma consume_fits stack expected p :
  2 <= stack -> limited_consume stack expected p = consume expected p.
Proof. destruct stack as [|[|s]]; [lia..|reflexivity]. Qed.

Lemma more_before_fits stack closing p :
  1 <= stack ->
  limited_more_before stack closing p = Ok (more_before closing p).
Proof.
  intro H. unfold limited_more_before, more_before.
  rewrite (peek_fits stack p H). cbn [bind]. destruct (peek p); reflexivity.
Qed.

Lemma at_comma_fits stack p :
  1 <= stack -> limited_at_comma stack p = Ok (at_comma p).
Proof.
  intro H. unfold limited_at_comma, at_comma.
  rewrite (peek_fits stack p H). cbn [bind]. destruct (peek p); reflexivity.
Qed.

Lemma call_fits {A : Type} stack (body : nat -> outcome A) :
  1 <= stack -> call_method stack body = body (stack - 1).
Proof.
  destruct stack as [|s]; [lia|]. intros _. cbn [call_method].
  replace (S s - 1) with s by lia. reflexivity.
Qed.

(** Two frames for each opening token that is left, and three more, are
    enough for [parse_value]: with them the limited parser does what the
    parser does. *)
Lemma parser_fits fuel :
  (forall stack p,
      2 * openers p + 3 <= stack ->
      limited_parse_value stack fuel p = parse_value fuel p)
  /\ (forall stack p,
         2 * openers p + 2 <= stack -> 3 <= stack ->
         limited_parse_list stack fuel p = parse_list fuel p)
  /\ (forall stack p,
         2 * openers p + 2 <= stack -> 3 <= stack ->
         limited_parse_struct stack fuel p = parse_struct fuel p)
  /\ (forall stack p items,
         2 * openers p + 3 <= stack ->
         limited_parse_list_loop stack fuel p items
         = parse_list_loop fuel p items)
  /\ (forall stack p obj,
         2 * openers p + 3 <= stack ->
         limited_parse_struct_loop stack fuel p obj
         = parse_struct_loop fuel p obj).
Proof.
  induction fuel as [|fuel (IHv & IHl & IHs & IHll & IHsl)].
  - split; [|split; [|split; [|split]]]; intros; reflexivity.
  - split; [|split; [|split; [|split]]].
    + intros stack p Hs. rewrite limited_parse_value_S, parse_value_S.
      rewrite call_fits by lia.
      rewrite (peek_fits (stack - 1) p) by lia. cbn [bind].
      destruct (peek p) as [tok|] eqn:Hp; [|reflexivity].
      pose proof (openers_advance p tok Hp) as Ho.
      destruct (type tok) eqn:Ht; try reflexivity;
        try (rewrite consume_fits by lia; reflexivity);
        cbn [opens] in Ho.
      * apply IHs; lia.
      * apply IHl; lia.
    + intros stack p Hs H3. rewrite limited_parse_list_S, parse_list_S.
      rewrite call_fits by lia.
      rewrite (consume_fits (stack - 1)) by lia.
      destruct (consume (Some LIST) p) as [[t p1]|e|] eqn:C; try reflexivity.
      cbn [bind]. apply consume_ok in C. destruct C as (Hp & -> & Ht).
      pose proof (openers_advance p t Hp) as Ho.
      rewrite (Ht LIST eq_refl) in Ho. cbn [opens] in Ho.
      rewrite IHll by lia.
      destruct (parse_list_loop fuel (advance p) []) as [[items p2]|e|];
        try reflexivity.
      cbn [bind]. rewrite (consume_fits (stack - 1)) by lia. reflexivity.
    + intros stack p Hs H3. rewrite limited_parse_struct_S, parse_struct_S.
      rewrite call_fits by lia.
      rewrite (consume_fits (stack - 1)) by lia.
      destruct (consume (Some STRUCT) p) as [[t p1]|e|] eqn:C;
        try reflexivity.
      cbn [bind]. apply consume_ok in C. destruct C as (Hp & -> & Ht).
      pose proof (openers_advance p t Hp) as Ho.
      rewrite (Ht STRUCT eq_refl) in Ho. cbn [opens] in Ho.
      rewrite (consume_fits (stack - 1)) by lia.
      destruct (consume (Some LBRACE) (advance p)) as [[t1 p2]|e|] eqn:C2;
        try reflexivity.
      cbn [bind]. apply consume_moved_on, openers_moved_on in C2.
      rewrite IHsl by lia.
      destruct (parse_struct_loop fuel p2 []) as [[obj p3]|e|];
        try reflexivity.
      cbn [bind]. rewrite (consume_fits (stack - 1)) by lia. reflexivity.
    + intros stack p items Hs.
      rewrite limited_parse_list_loop_S, parse_list_loop_S.
      rewrite more_before_fits by lia. cbn [bind].
      destruct (more_before RPAREN p); [|reflexivity].
      rewrite IHv by lia.
      destruct (parse_value fuel p) as [[v p1]|e|] eqn:V; try reflexivity.
      cbn [bind]. apply parse_value_moved_on, openers_moved_on in V.
      apply IHll. lia.
    + intros stack p obj Hs.
      rewrite limited_parse_struct_loop_S, parse_struct_loop_S.
      rewrite more_before_fits by lia. cbn [bind].
      destruct (more_before RBRACE p); [|reflexivity].
      rewrite consume_fits by lia.
      destruct (consume (Some IDENT) p) as [[k p1]|e|] eqn:C1;
        try reflexivity.
      cbn [bind]. apply consume_moved_on, openers_moved_on in C1.
      rewrite consume_fits by lia.
      destruct (consume (Some EQUAL) p1) as [[t1 p2]|e|] eqn:C2;
        try reflexivity.
      cbn [bind]. apply consume_moved_on, openers_moved_on in C2.
      rewrite IHv by lia.
      destruct (parse_value fuel p2) as [[v p3]|e|] eqn:V; try reflexivity.
      cbn [bind]. apply parse_value_moved_on, openers_moved_on in V.
      cbn zeta. rewrite at_comma_fits by lia. cbn [bind].
      destruct (at_comma p3).
      * rewrite consume_fits by lia.
        destruct (consume (Some COMMA) p3) as [[t2 p4]|e|] eqn:C3;
          try reflexivity.
        cbn [bind]. apply consume_moved_on, openers_moved_on in C3.
        apply IHsl. lia.
      * apply IHsl. lia.
Qed.

Lemma parse_set_fits stack fuel p :
  2 * openers p + 4 <= stack ->
  limited_parse_set stack fuel p = parse_set fuel p.
Proof.
  intro Hs. unfold limited_parse_set, parse_set.
  rewrite call_fits by lia.
  rewrite (consume_fits (stack - 1)) by lia.
  destruct (consume (Some SET) p) as [[t0 p1]|e|] eqn:C0; try reflexivity.
  cbn [bind]. apply consume_moved_on, openers_moved_on in C0.
  rewrite (consume_fits (stack - 1)) by lia.
  destruct (consume (Some IDENT) p1) as [[t1 p2]|e|] eqn:C1; try reflexivity.
  cbn [bind]. apply consume_moved_on, openers_moved_on in C1.
  rewrite (consume_fits (stack - 1)) by lia.
  destruct (consume (Some EQUAL) p2) as [[t2 p3]|e|] eqn:C2; try reflexivity.
  cbn [bind]. apply consume_moved_on, openers_moved_on in C2.
  rewrite (proj1 (parser_fits fuel)) by lia. reflexivity.
Qed.

Lemma parse_loop_fits fuel :
  forall stack p result,
    2 * openers p + 4 <= stack ->
    limited_parse_loop stack fuel p result = parse_loop fuel p result.
Proof.
  induction fuel as [|fuel IH]; intros stack p result Hs; [reflexivity|].
  rewrite limited_parse_loop_S, parse_loop_S.
  rewrite peek_fits by lia. cbn [bind].
  destruct (peek p) as [tok|]; [|reflexivity].
  destruct (TokenType_eqb (type tok) SET).
  - rewrite parse_set_fits by exact Hs.
    destruct (parse_set fuel p) as [p1|e|] eqn:S1; try reflexivity.
    cbn [bind]. apply parse_set_statement in S1.
    destruct S1 as (n & v & S1). apply statement_remaining in S1.
    destruct S1 as [Hr Ht]. apply IH.
    assert (openers p1 <= openers p); [|lia].
    apply openers_later; [exact Ht|].
    unfold remaining in Hr. rewrite Ht in Hr. lia.
  - rewrite (proj1 (parser_fits fuel)) by lia.
    destruct (parse_value fuel p) as [[v p1]|e|] eqn:V; try reflexivity.
    cbn [bind]. apply parse_value_moved_on, openers_moved_on in V.
    apply IH. lia.
Qed.

(** Two frames for each [(list] and [struct] token, and five more, are
    enough for [Parser(tokens).parse()]. *)
Lemma parse_tokens_fits stack toks :
  2 * nesting_tokens toks + 5 <= stack ->
  limited_parse_tokens stack toks = parse_tokens toks.
Proof.
  intro Hs. unfold limited_parse_tokens, parse_tokens, limited_parse, parse.
  unfold limited_Parser_init. rewrite call_fits by lia. cbn [bind].
  rewrite call_fits by lia.
  rewrite parse_loop_fits; [reflexivity|].
  unfold openers. cbn [Parser_init pos tokens skipn]. lia.
Qed.

(** *** What the limited parser raises *)

Lemma parse_tokens_no_recursion_error toks :
  parse_tokens toks <> Raise RecursionError.
Proof.
  intro H. apply parse_tokens_raises in H.
  destruct H as [[msg H]|[[H _]|[H _]]]; discriminate.
Qed.

Lemma limited_parse_tokens_raises stack toks e :
  numbers_lexed toks ->
  limited_parse_tokens stack toks = Raise e ->
  is_syntax_error e
  \/ (e = none_has_no_type /\ ends_with_equal toks)
  \/ (e = RecursionError /\ stack < 2 * nesting_tokens toks + 5).
Proof.
  intros Hn H.
  destruct (parse_tokens_agrees stack toks) as [E|E]; rewrite E in H.
  - inversion H; subst e. right. right. split; [reflexivity|].
    destruct (Nat.lt_ge_cases stack (2 * nesting_tokens toks + 5))
      as [Hs|Hs]; [exact Hs|].
    rewrite (parse_tokens_fits stack toks Hs) in E.
    contradiction (parse_tokens_no_recursion_error toks E).
  - destruct (parse_tokens_raises toks e H)
      as [Hs|[Ha|[_ (t & Hin & Ht & Hf)]]];
      [left; exact Hs|right; left; exact Ha|].
    exfalso. unfold numbers_lexed in Hn. rewrite Forall_forall in Hn.
    exact (Hf (Hn t Hin Ht)).
Qed.





(** X8: what [Parser(tokens).parse()] raises, for any tokens whose NUMBER
    tokens are as the lexer makes them and any number of frames left on
    the stack, is a SyntaxError, or the AttributeError of [parse_value] at
    the end of the input, and then the last token is an [=], or a
    RecursionError, and then the stack has fewer than five frames and two
    for each [(list] and [struct] token.  Short of a RecursionError the
    call does what it does on a stack without bound, and with that many
    frames it does. *)
Theorem X8_where_the_exceptions_come_from :
  (forall stack toks e,
      numbers_lexed toks ->
      limited_parse_tokens stack toks = Raise e ->
      is_syntax_error e
      \/ (e = none_has_no_type /\ ends_with_equal toks)
      \/ (e = RecursionError /\ stack < 2 * nesting_tokens toks + 5))
  /\ (forall stack toks,
         limited_parse_tokens stack toks = Raise RecursionError
         \/ limited_parse_tokens stack toks = parse_tokens toks)
  /\ (forall stack toks,
         2 * nesting_tokens toks + 5 <= stack ->
         limited_parse_tokens stack toks = parse_tokens toks)
  /\ limited_parse_tokens 4
       [mkToken LIST (lit "(list"); mkToken RPAREN (lit ")")]
     = Raise RecursionError
  /\ limited_parse_tokens 5
       [mkToken LIST (lit "(list"); mkToken RPAREN (lit ")")]
     = Ok (Some (VList [])).
Proof.
  split; [|split; [|split; [|split; reflexivity]]].
  - apply limited_parse_tokens_raises.
  - apply parse_tokens_agrees.
  - apply parse_tokens_fits.
Qed.

Lemma X8_witness :
  is_syntax_error none_has_no_type
  \/ (none_has_no_type = none_has_no_type
      /\ ends_with_equal [mkToken STRUCT (lit "struct");
                          mkToken LBRACE (lit "{");
                          mkToken IDENT (lit "a"); mkToken EQUAL (lit "=")])
  \/ (none_has_no_type = RecursionError
      /\ 9 < 2 * nesting_tokens [mkToken STRUCT (lit "struct");
                                 mkToken LBRACE (lit "{");
                                 mkToken IDENT (lit "a");
                                 mkToken EQUAL (lit "=")] + 5).
Proof.
  apply (proj1 X8_where_the_exceptions_come_from 9
           [mkToken STRUCT (lit "struct"); mkToken LBRACE (lit "{");
            mkToken IDENT (lit "a"); mkToken EQUAL (lit "=")]).
  - repeat constructor; discriminate.
  - reflexivity.
Defined.



(** ** main *)

